(** * Minimal DRTA synthesis: a shallow embedding of the learner's core

    The development follows the Python sources under [docker/RTA]:
    [tAPTA.py] (regions and the region alphabet), [Min3RTA.py] (the
    incremental minimiser and the accept/reject conflict resolver),
    [DRTA.py] (the automaton and its acceptance run), [Encoding.py] (the SMT
    encoder) and [test_encoding.py] (the region-partition optimiser and the
    verifier).

    Python numbers are modelled by [num]: a finite value is an exact rational
    (Python integers and the finite floats are rationals; rounding of float
    arithmetic is not modelled), together with the two infinities and NaN of
    the float type.  Python dictionaries keep insertion order and the code
    iterates over them, so they are association lists ([dict]). Objects that
    are shared and mutated (the nodes of the minimiser) live in a store
    addressed by their identifier. *)

From Stdlib Require Import QArith Qabs Qround ZArith List String Ascii Bool Lia Lqa.
From Stdlib Require Import DecimalString.
Import ListNotations.

Local Open Scope Q_scope.

(* ------------------------------------------------------------------ *)
(** ** Python numbers *)

Module PyNum.

Inductive num : Type :=
| Fin (q : Q)
| PInf
| NInf
| NaN.

Definition Qltb (x y : Q) : bool := negb (Qle_bool y x).

(** [a < b] *)
Definition ltb (a b : num) : bool :=
  match a, b with
  | Fin x, Fin y => Qltb x y
  | Fin _, PInf => true
  | NInf, Fin _ => true
  | NInf, PInf => true
  | _, _ => false
  end.

(** [a == b] *)
Definition eqb (a b : num) : bool :=
  match a, b with
  | Fin x, Fin y => Qeq_bool x y
  | PInf, PInf => true
  | NInf, NInf => true
  | _, _ => false
  end.

(** [a <= b] *)
Definition leb (a b : num) : bool := ltb a b || eqb a b.

(** [a > b] and [a >= b] are the mirrored comparisons. *)
Definition gtb (a b : num) : bool := ltb b a.
Definition geb (a b : num) : bool := leb b a.

(** [a != b] *)
Definition neqb (a b : num) : bool := negb (eqb a b).

(** The builtin [min(a, b)] keeps [a] unless [b < a]; [max(a, b)] keeps
    [a] unless [b > a]. *)
Definition min (a b : num) : num := if ltb b a then b else a.
Definition max (a b : num) : num := if gtb b a then b else a.

(** [a - b] on floats: opposite infinities subtract to an infinity, equal
    infinities to NaN. *)
Definition sub (a b : num) : num :=
  match a, b with
  | Fin x, Fin y => Fin (x - y)
  | NaN, _ | _, NaN => NaN
  | PInf, PInf | NInf, NInf => NaN
  | PInf, _ => PInf
  | NInf, _ => NInf
  | Fin _, PInf => NInf
  | Fin _, NInf => PInf
  end.

(** [int(x)] of a finite number truncates toward zero. *)
Definition int (x : Q) : Z := Z.quot (Qnum x) (Zpos (Qden x)).

Definition of_Z (z : Z) : num := Fin (inject_Z z).
Definition of_nat (n : nat) : num := of_Z (Z.of_nat n).

End PyNum.

Import PyNum.

(** A timed event [(symbol, time)] and a timed trace. Times of samples are
    finite numbers. *)
Definition event : Type := (string * Q)%type.
Definition trace : Type := list event.

(* ------------------------------------------------------------------ *)
(** ** tAPTA.py: regions and the region alphabet *)

Module TAPTA.

(** [class Region] *)
Record Region : Type := mkRegion {
  lower : num;
  upper : num;
  lower_inclusive : bool;
  upper_inclusive : bool
}.

(** [Region.contains] *)
Definition contains (self : Region) (value : Q) : bool :=
  let lower_check :=
    if lower_inclusive self then geb (Fin value) (lower self)
    else gtb (Fin value) (lower self) in
  let upper_check :=
    if upper_inclusive self then leb (Fin value) (upper self)
    else ltb (Fin value) (upper self) in
  lower_check && upper_check.

(** [Region.__eq__] *)
Definition Region_eqb (self other : Region) : bool :=
  eqb (lower self) (lower other) && eqb (upper self) (upper other)
  && Bool.eqb (lower_inclusive self) (lower_inclusive other)
  && Bool.eqb (upper_inclusive self) (upper_inclusive other).

(** The first loop of [BuildTimedAPTA]: the maximal constant. *)
Definition kappa_step (kappa : Z) (tau : Q) : Z :=
  Z.max kappa (int tau + (if Qltb (inject_Z (int tau)) tau then 1 else 0))%Z.

Definition BuildTimedAPTA_kappa (S_positive S_negative : list trace) : Z :=
  let S := S_positive ++ S_negative in
  fold_left (fun kappa omega =>
               fold_left (fun kappa (e : event) => kappa_step kappa (snd e))
                         omega kappa)
            S 0%Z.

(** The region list of [BuildTimedAPTA], built in the order of the
    [append] calls. *)
Definition BuildTimedAPTA_Regions (kappa : Z) : list Region :=
  [mkRegion (of_Z 0) (of_Z 0) true true]
  ++ flat_map (fun i : nat =>
                 [mkRegion (of_nat i) (of_nat (i + 1)) false false;
                  mkRegion (of_nat (i + 1)) (of_nat (i + 1)) true true])
              (seq 0 (Z.to_nat kappa))
  ++ [mkRegion (of_Z kappa) PInf false false].

End TAPTA.

Import TAPTA.

(* ------------------------------------------------------------------ *)
(** ** Min3RTA.py: region merging *)

Module RegionMerge.

(** [RegionTreeNode._are_regions_adjacent_or_overlapping] *)
Definition _are_regions_adjacent_or_overlapping (region1 region2 : Region) : bool :=
  let has_overlap :=
    (leb (lower region1) (upper region2) && geb (upper region1) (lower region2))
    || (leb (lower region2) (upper region1) && geb (upper region2) (lower region1)) in
  let is_adjacent :=
    (eqb (upper region1) (lower region2)
     && (upper_inclusive region1 || lower_inclusive region2))
    || (eqb (upper region2) (lower region1)
        && (upper_inclusive region2 || lower_inclusive region1)) in
  has_overlap || is_adjacent.

(** [RegionTreeNode._merge_regions]; [None] is Python's [None]. *)
Definition _merge_regions (region1 region2 : Region) : option Region :=
  if negb (_are_regions_adjacent_or_overlapping region1 region2) then None
  else
    let lower' := min (lower region1) (lower region2) in
    let upper' := max (upper region1) (upper region2) in
    let lower_inclusive' :=
      (eqb (lower region1) lower' && lower_inclusive region1)
      || (eqb (lower region2) lower' && lower_inclusive region2) in
    let upper_inclusive' :=
      (eqb (upper region1) upper' && upper_inclusive region1)
      || (eqb (upper region2) upper' && upper_inclusive region2) in
    Some (mkRegion lower' upper' lower_inclusive' upper_inclusive').

End RegionMerge.

Import RegionMerge.

(* ------------------------------------------------------------------ *)
(** ** Insertion-ordered dictionaries *)

Module Dict.
Section Dict.

Context {K V : Type}.
Variable keq : K -> K -> bool.

Definition dict : Type := list (K * V).

(** [d[k]] / [d.get(k)] *)
Fixpoint get (d : dict) (k : K) : option V :=
  match d with
  | [] => None
  | (k', v) :: rest => if keq k' k then Some v else get rest k
  end.

(** [k in d] *)
Definition mem (d : dict) (k : K) : bool :=
  match get d k with Some _ => true | None => false end.

(** [d[k] = v]: an existing key keeps its place (and the stored key
    object), a new key goes to the end. *)
Fixpoint set (d : dict) (k : K) (v : V) : dict :=
  match d with
  | [] => [(k, v)]
  | (k', v') :: rest =>
      if keq k' k then (k', v) :: rest else (k', v') :: set rest k v
  end.

(** [del d[k]] *)
Fixpoint del (d : dict) (k : K) : dict :=
  match d with
  | [] => []
  | (k', v') :: rest => if keq k' k then rest else (k', v') :: del rest k
  end.

End Dict.
End Dict.

(** A small error monad: [None] stands for a raised exception
    ([KeyError], [IndexError]). *)
Definition bind {A B : Type} (m : option A) (k : A -> option B) : option B :=
  match m with Some a => k a | None => None end.

Notation "x <- m ;; k" := (bind m (fun x => k))
  (at level 61, m at next level, right associativity).
Notation "' p <- m ;; k" := (bind m (fun x => let p := x in k))
  (at level 61, p pattern, m at next level, right associativity).

(** Rendering of numbers by [str]. The minimiser only builds regions whose
    finite bounds are Python integers ([int(time)]), rendered in decimal;
    a non-integral rational is rendered as a reduced fraction, which keeps
    the rendering injective up to numeric equality. *)
Definition str_num (x : num) : string :=
  match x with
  | Fin q =>
      let r := Qred q in
      match Qden r with
      | xH => NilZero.string_of_int (Z.to_int (Qnum r))
      | d => NilZero.string_of_int (Z.to_int (Qnum r)) ++ "/"
             ++ NilZero.string_of_int (Z.to_int (Zpos d))
      end
  | PInf => "inf"
  | NInf => "-inf"
  | NaN => "nan"
  end%string.

(** [Region.__str__] *)
Definition Region_str (self : Region) : string :=
  (let left := if lower_inclusive self then "[" else "(" in
   let right := if upper_inclusive self then "]" else ")" in
   let upper_str := if neqb (upper self) PInf then str_num (upper self) else "∞" in
   left ++ str_num (lower self) ++ ", " ++ upper_str ++ right)%string.

Definition str_nat (n : nat) : string := NilZero.string_of_uint (Nat.to_uint n).

(* ------------------------------------------------------------------ *)
(** ** Min3RTA.py: the incremental minimiser *)

Module Min3RTA.

(** Keys of a node's transition dictionary: [(symbol, region)], compared
    as Python compares tuples (component-wise [==]). *)
Definition tkey : Type := (string * Region)%type.

Definition tkey_eqb (a b : tkey) : bool :=
  String.eqb (fst a) (fst b) && Region_eqb (snd a) (snd b).

(** [class RegionTreeNode]. A transition target and a child are node
    objects; the embedding stores the identifier of the object, and the
    object itself lives in the [nodes] store of the automaton.  The field
    [registered_equivalent] is never written after construction and is
    left out. *)
Record RegionTreeNode : Type := mkNode {
  id : nat;
  is_accepting : bool;
  is_rejecting : bool;
  transitions : list (tkey * nat);
  children : list nat;
  is_merged : bool
}.

(** [class Min3RTA]. [previous_nodes] is only ever reset to the empty list
    and is left out. *)
Record Min3RTA : Type := mkRTA {
  nodes : list (nat * RegionTreeNode);
  register : list (nat * nat);
  root : option nat;
  next_node_id : nat
}.

Definition set_transitions (n : RegionTreeNode) (t : list (tkey * nat)) :=
  mkNode (id n) (is_accepting n) (is_rejecting n) t (children n) (is_merged n).
Definition set_children (n : RegionTreeNode) (c : list nat) :=
  mkNode (id n) (is_accepting n) (is_rejecting n) (transitions n) c (is_merged n).
Definition set_is_merged (n : RegionTreeNode) (b : bool) :=
  mkNode (id n) (is_accepting n) (is_rejecting n) (transitions n) (children n) b.
Definition set_is_accepting (n : RegionTreeNode) (b : bool) :=
  mkNode (id n) b (is_rejecting n) (transitions n) (children n) (is_merged n).
Definition set_is_rejecting (n : RegionTreeNode) (b : bool) :=
  mkNode (id n) (is_accepting n) b (transitions n) (children n) (is_merged n).

Definition set_nodes (r : Min3RTA) (ns : list (nat * RegionTreeNode)) :=
  mkRTA ns (register r) (root r) (next_node_id r).
Definition set_register (r : Min3RTA) (reg : list (nat * nat)) :=
  mkRTA (nodes r) reg (root r) (next_node_id r).

(** [self.nodes[i]] and the write-back of a mutated node object. *)
Definition get_node (rta : Min3RTA) (i : nat) : option RegionTreeNode :=
  Dict.get Nat.eqb (nodes rta) i.
Definition put_node (rta : Min3RTA) (i : nat) (n : RegionTreeNode) : Min3RTA :=
  set_nodes rta (Dict.set Nat.eqb (nodes rta) i n).

(** [x in l] on a list of node objects (identity comparison). *)
Definition node_in (x : nat) (l : list nat) : bool := existsb (Nat.eqb x) l.

(** *** Methods of [RegionTreeNode] *)

(** The loop of [add_transition]; [Some] is the early [return]. The merge
    result is overwritten by [None] in the source, so the loop always
    continues. *)
Fixpoint add_transition_scan (items : list (tkey * nat)) (self : RegionTreeNode)
         (symbol : string) (region : Region) (target_node : nat)
  : option RegionTreeNode :=
  match items with
  | [] => None
  | ((sym, reg), target) :: rest =>
      if String.eqb sym symbol && Nat.eqb target target_node then
        let merged_region := _merge_regions reg region in
        let merged_region : option Region := None in
        match merged_region with
        | None => add_transition_scan rest self symbol region target_node
        | Some merged =>
            Some (set_transitions self
                    (Dict.set tkey_eqb
                       (Dict.del tkey_eqb (transitions self) (sym, reg))
                       (sym, merged) target_node))
        end
      else add_transition_scan rest self symbol region target_node
  end.

(** [RegionTreeNode.add_transition] *)
Definition add_transition (self : RegionTreeNode) (symbol : string)
           (region : Region) (target_node : nat) : RegionTreeNode :=
  match add_transition_scan (transitions self) self symbol region target_node with
  | Some self' => self'
  | None =>
      let self1 :=
        set_transitions self
          (Dict.set tkey_eqb (transitions self) (symbol, region) target_node) in
      if negb (node_in target_node (children self1))
      then set_children self1 (children self1 ++ [target_node])
      else self1
  end.

(** [has_children], [last_child] *)
Definition has_children (self : RegionTreeNode) : bool :=
  Nat.ltb 0 (List.length (children self)).

Definition last_child (self : RegionTreeNode) : option nat :=
  if negb (has_children self) then None
  else List.last (map Some (children self)) None.

(** [_is_more_specific_region]; the second region may be [None]. *)
Definition _is_more_specific_region (region1 : Region) (region2 : option Region) : bool :=
  match region2 with
  | None => true
  | Some region2 =>
      let range1 := sub (upper region1) (lower region1) in
      let range2 := sub (upper region2) (lower region2) in
      if ltb range1 range2 then true
      else if gtb range1 range2 then false
      else
        if eqb (lower region1) (upper region1)
           && lower_inclusive region1 && upper_inclusive region1
        then
          if negb (eqb (lower region2) (upper region2)
                   && lower_inclusive region2 && upper_inclusive region2)
          then true else false
        else false
  end.

(** [last_child_with_symbol] *)
Definition last_child_with_symbol (self : RegionTreeNode) (symbol : string)
           (time_value : option Q) : option nat :=
  fst (fold_left
         (fun (best : option nat * option Region) (item : tkey * nat) =>
            let '((sym, region), target_node) := item in
            let '(best_match, best_region) := best in
            if String.eqb sym symbol
               && (match time_value with
                   | None => true
                   | Some t => contains region t
                   end)
            then
              if (match best_match with None => true | Some _ => false end)
                 || _is_more_specific_region region best_region
              then (Some target_node, Some region)
              else best
            else best)
         (transitions self) (None, None)).

(** [l[l.index(old)] = new] *)
Fixpoint replace_first (old new : nat) (l : list nat) : list nat :=
  match l with
  | [] => []
  | x :: rest => if Nat.eqb x old then new :: rest else x :: replace_first old new rest
  end.

(** [replace_last_child]: it writes to the new target node and to [self],
    two objects of the store. *)
Definition replace_last_child (rta : Min3RTA) (self_id new_target_node : nat)
  : option Min3RTA :=
  self <- get_node rta self_id ;;
  if negb (has_children self) then Some rta
  else
    new_node <- get_node rta new_target_node ;;
    let rta := put_node rta new_target_node (set_is_merged new_node true) in
    self <- get_node rta self_id ;;
    old_target_node <- List.last (map Some (children self)) None ;;
    let transitions' :=
      fold_left
        (fun (d : list (tkey * nat)) (item : tkey * nat) =>
           let '(key, target_node) := item in
           if Nat.eqb target_node old_target_node
           then Dict.set tkey_eqb d key new_target_node
           else d)
        (transitions self) (transitions self) in
    let self := set_transitions self transitions' in
    let self :=
      if node_in old_target_node (children self)
      then set_children self (replace_first old_target_node new_target_node (children self))
      else self in
    Some (put_node rta self_id self).

(** *** Methods of [Min3RTA] *)

(** [get_real_node_id] *)
Definition get_real_node_id (rta : Min3RTA) (node_id : nat) : nat :=
  match Dict.get Nat.eqb (register rta) node_id with
  | Some r => if negb (Nat.eqb r node_id) then r else node_id
  | None => node_id
  end.

(** [get_real_node], applied to the node object with identifier [node]. *)
Definition get_real_node (rta : Min3RTA) (node : nat) : option RegionTreeNode :=
  get_node rta (get_real_node_id rta node).

(** Set equality of Python [set]s held as lists. *)
Definition subset {A : Type} (eqA : A -> A -> bool) (l1 l2 : list A) : bool :=
  forallb (fun x => existsb (eqA x) l2) l1.
Definition set_eqb {A : Type} (eqA : A -> A -> bool) (l1 l2 : list A) : bool :=
  subset eqA l1 l2 && subset eqA l2 l1.

Definition succ_eqb (a b : nat * string) : bool :=
  Nat.eqb (fst a) (fst b) && String.eqb (snd a) (snd b).

(** The successor set of [is_equivalent_to] for one symbol. *)
Fixpoint successors_of (rta : Min3RTA) (items : list (tkey * nat)) (symbol : string)
  : option (list (nat * string)) :=
  match items with
  | [] => Some []
  | ((sym, region), target_node) :: rest =>
      if String.eqb sym symbol then
        real_node <- get_real_node rta target_node ;;
        others <- successors_of rta rest symbol ;;
        Some ((id real_node, Region_str region) :: others)
      else successors_of rta rest symbol
  end.

Fixpoint equivalent_on_symbols (rta : Min3RTA) (self other_node : RegionTreeNode)
         (symbols : list string) : option bool :=
  match symbols with
  | [] => Some true
  | symbol :: rest =>
      self_successors <- successors_of rta (transitions self) symbol ;;
      other_successors <- successors_of rta (transitions other_node) symbol ;;
      if negb (set_eqb succ_eqb self_successors other_successors) then Some false
      else equivalent_on_symbols rta self other_node rest
  end.

(** [RegionTreeNode.is_equivalent_to] *)
Definition is_equivalent_to (self other_node : RegionTreeNode) (rta : Min3RTA)
  : option bool :=
  if negb (Bool.eqb (is_accepting self) (is_accepting other_node))
     || negb (Bool.eqb (is_rejecting self) (is_rejecting other_node))
  then Some false
  else
    let self_symbols := map (fun it : tkey * nat => fst (fst it)) (transitions self) in
    let other_symbols := map (fun it : tkey * nat => fst (fst it)) (transitions other_node) in
    if negb (set_eqb String.eqb self_symbols other_symbols) then Some false
    else equivalent_on_symbols rta self other_node self_symbols.

(** [create_node] *)
Definition create_node (rta : Min3RTA) (is_accepting is_rejecting : bool)
  : Min3RTA * nat :=
  let node_id := next_node_id rta in
  let nodes' := Dict.set Nat.eqb (nodes rta) node_id
                  (mkNode node_id is_accepting is_rejecting [] [] false) in
  let root' := match root rta with None => Some node_id | Some r => Some r end in
  (mkRTA nodes' (register rta) root' (node_id + 1), node_id).

(** The inner loop of [_merge_node_transitions] over a snapshot of the
    target's transitions: the current transition dictionary of the target
    and the flag [has_transition]. As in [add_transition], the merged
    region is overwritten by [None] before it is tested. *)
Fixpoint merge_scan (rta : Min3RTA) (items : list (tkey * nat))
         (target_transitions : list (tkey * nat))
         (symbol : string) (region : Region) (real_next_id : nat)
  : option (list (tkey * nat) * bool) :=
  match items with
  | [] => Some (target_transitions, false)
  | ((t_sym, t_region), t_next) :: rest =>
      if String.eqb t_sym symbol then
        t_real <- get_real_node rta t_next ;;
        if Nat.eqb (id t_real) real_next_id then
          let merged_region := _merge_regions t_region region in
          let merged_region : option Region := None in
          match merged_region with
          | None => merge_scan rta rest target_transitions symbol region real_next_id
          | Some merged =>
              Some (Dict.set tkey_eqb
                      (Dict.del tkey_eqb target_transitions (t_sym, t_region))
                      (t_sym, merged) t_next, true)
          end
        else merge_scan rta rest target_transitions symbol region real_next_id
      else merge_scan rta rest target_transitions symbol region real_next_id
  end.

(** The outer loop of [_merge_node_transitions] over a snapshot of the
    source's transitions. *)
Fixpoint merge_loop (rta : Min3RTA) (items : list (tkey * nat)) (target_id : nat)
  : option Min3RTA :=
  match items with
  | [] => Some rta
  | ((symbol, region), next_node) :: rest =>
      real_next_node <- get_real_node rta next_node ;;
      target_node <- get_node rta target_id ;;
      '(ttrans, has_transition) <-
         merge_scan rta (transitions target_node) (transitions target_node)
                    symbol region (id real_next_node) ;;
      let target_node := set_transitions target_node ttrans in
      let target_node :=
        if negb has_transition then
          let t1 := set_transitions target_node
                      (Dict.set tkey_eqb (transitions target_node)
                                (symbol, region) (id real_next_node)) in
          if negb (node_in (id real_next_node) (children t1))
          then set_children t1 (children t1 ++ [id real_next_node])
          else t1
        else target_node in
      merge_loop (put_node rta target_id target_node) rest target_id
  end.

(** [_merge_node_transitions]. The Python function returns [False] on a
    label conflict and falls off its end otherwise, which returns [None]:
    the result is [Some false] or [None]. *)
Definition _merge_node_transitions (rta : Min3RTA) (source_id target_id : nat)
  : option (Min3RTA * option bool) :=
  source_node <- get_node rta source_id ;;
  target_node <- get_node rta target_id ;;
  if negb (Bool.eqb (is_accepting source_node) (is_accepting target_node))
     || negb (Bool.eqb (is_rejecting source_node) (is_rejecting target_node))
  then Some (rta, Some false)
  else
    rta' <- merge_loop rta (transitions source_node) target_id ;;
    Some (rta', None).

(** Truth value of a returned [bool] or [None]. *)
Definition truthy (r : option bool) : bool :=
  match r with Some b => b | None => false end.

(** The search of the register in [replace_or_register]. *)
Fixpoint find_registered (rta : Min3RTA) (child_node : RegionTreeNode)
         (keys : list nat) : option (option nat) :=
  match keys with
  | [] => Some None
  | reg_id :: rest =>
      other <- get_node rta reg_id ;;
      e <- is_equivalent_to child_node other rta ;;
      if e then Some (Some reg_id) else find_registered rta child_node rest
  end.

(** What [replace_or_register] does once the register search has found
    [registered_id] for the last child [child_id] of [state_id]. *)
Definition register_hit (rta : Min3RTA) (state_id child_id registered_id : nat)
  : option Min3RTA :=
  rta <- replace_last_child rta state_id registered_id ;;
  let rta := set_register rta (Dict.set Nat.eqb (register rta) child_id registered_id) in
  '(rta, merge_success) <- _merge_node_transitions rta child_id registered_id ;;
  if negb (truthy merge_success) then
    let rta := set_register rta (Dict.del Nat.eqb (register rta) child_id) in
    replace_last_child rta state_id child_id
  else Some rta.

Definition MAX_DEPTH : nat := 1000.

(** [replace_or_register]. The recursion is on [fuel = MAX_DEPTH + 1 - depth]:
    no fuel left is the guard [depth > MAX_DEPTH]. The set [visited] is
    shared by all the calls of one traversal and is threaded through. *)
Fixpoint replace_or_register_from (fuel : nat) (rta : Min3RTA) (state_id : nat)
         (visited : list nat) : option (Min3RTA * list nat) :=
  match fuel with
  | O => Some (rta, visited)
  | S fuel' =>
      if node_in state_id visited then Some (rta, visited)
      else
        let visited := state_id :: visited in
        node <- get_node rta state_id ;;
        match last_child node with
        | None => Some (rta, filter (fun v => negb (Nat.eqb v state_id)) visited)
        | Some child_id =>
            child_node <- get_node rta child_id ;;
            '(rta, visited) <-
               (if has_children child_node
                then replace_or_register_from fuel' rta (id child_node) visited
                else Some (rta, visited)) ;;
            child_node <- get_node rta child_id ;;
            registered_id <- find_registered rta child_node (map fst (register rta)) ;;
            rta <- match registered_id with
                   | Some registered_id =>
                       register_hit rta state_id (id child_node) registered_id
                   | None =>
                       Some (set_register rta
                               (Dict.set Nat.eqb (register rta)
                                         (id child_node) (id child_node)))
                   end ;;
            Some (rta, filter (fun v => negb (Nat.eqb v state_id)) visited)
        end
  end.

Definition replace_or_register (rta : Min3RTA) (state_id : nat) : option Min3RTA :=
  '(rta, _) <- replace_or_register_from (MAX_DEPTH + 1) rta state_id [] ;;
  Some rta.

(** The region that [add_suffix] gives to a time value. The tolerance
    [0.001] is taken as the rational [1/1000]. *)
Definition suffix_region (time max_time : Q) : Region :=
  let is_integer := Qeq_bool time (inject_Z (int time)) in
  let is_max_time := Qltb (Qabs (time - max_time)) (1 # 1000) in
  if is_integer then
    if is_max_time
    then mkRegion (of_Z (int time)) PInf true false
    else mkRegion (of_Z (int time)) (of_Z (int time)) true true
  else if is_max_time
  then mkRegion (of_Z (int time)) PInf false false
  else mkRegion (of_Z (int time)) (of_Z (int time + 1)) false false.

(** The loop of [add_suffix]: one fresh node and one transition for each
    remaining event. *)
Fixpoint add_suffix_loop (rta : Min3RTA) (current_id : nat) (suffix : trace)
         (max_time : Q) : option (Min3RTA * nat) :=
  match suffix with
  | [] => Some (rta, current_id)
  | (symbol, time) :: rest =>
      let region := suffix_region time max_time in
      let '(rta, new_id) := create_node rta false false in
      current <- get_node rta current_id ;;
      let rta := put_node rta current_id (add_transition current symbol region new_id) in
      add_suffix_loop rta new_id rest max_time
  end.

(** [add_suffix] *)
Definition add_suffix (rta : Min3RTA) (current_id : nat) (sample : trace)
           (from_index : nat) (is_positive : bool) (max_time : Q)
  : option Min3RTA :=
  '(rta, current_id) <- add_suffix_loop rta current_id (skipn from_index sample) max_time ;;
  current <- get_node rta current_id ;;
  Some (put_node rta current_id
          (if is_positive then set_is_accepting current true
           else set_is_rejecting current true)).

(** The common-prefix walk of [add]: the node reached and the number of
    events consumed. *)
Fixpoint common_prefix (rta : Min3RTA) (current_id : nat) (rest : trace) (pos : nat)
  : option (nat * nat) :=
  match rest with
  | [] => Some (current_id, pos)
  | (symbol, time) :: rest' =>
      current <- get_node rta current_id ;;
      match last_child_with_symbol current symbol (Some time) with
      | None => Some (current_id, pos)
      | Some next_node => common_prefix rta next_node rest' (pos + 1)
      end
  end.

(** [add] *)
Definition add (rta : Min3RTA) (sample : trace) (is_positive : bool) (max_time : Q)
  : option Min3RTA :=
  let rta := match root rta with
             | None => fst (create_node rta false false)
             | Some _ => rta
             end in
  root_id <- root rta ;;
  '(current_id, pos) <- common_prefix rta root_id sample 0 ;;
  current <- get_node rta current_id ;;
  rta <- (if has_children current then replace_or_register rta current_id
          else Some rta) ;;
  add_suffix rta current_id sample pos is_positive max_time.






Definition empty : Min3RTA := mkRTA [] [] None 0.

End Min3RTA.

(* ------------------------------------------------------------------ *)
(** ** Min3RTA.py: accept/reject conflict resolution of [convert_to_3DRTA] *)

Module Convert.

Import Min3RTA.

(** The walk of [_sample_reaches_node]: the first transition, in the order
    of the dictionary, whose symbol matches and whose region contains the
    time. [None] is the result [False] (no transition, or an exception
    caught by the [except] clause). *)
Fixpoint reach (rta : Min3RTA) (current_node_id : nat) (sample : trace) : option nat :=
  match sample with
  | [] => Some current_node_id
  | (symbol, time_val) :: rest =>
      current_node <- get_node rta current_node_id ;;
      match find (fun it : tkey * nat =>
                    String.eqb (fst (fst it)) symbol
                    && contains (snd (fst it)) time_val)
                 (transitions current_node) with
      | None => None
      | Some (_, target_node) => reach rta target_node rest
      end
  end.

(** [_sample_reaches_node] *)
Definition _sample_reaches_node (rta : Min3RTA) (sample : trace) (target_node_id : nat)
  : bool :=
  match root rta with
  | None => false
  | Some r =>
      match reach rta r sample with
      | Some n => Nat.eqb n target_node_id
      | None => false
      end
  end.

(** The second timestamps of the samples of length two. *)
Definition second_times (samples : list trace) : list Q :=
  flat_map (fun sample : trace =>
              match sample with
              | [_; (_, t)] => [t]
              | _ => []
              end) samples.

Definition sum (l : list Q) : Q := fold_left Qplus l 0.

Definition average (l : list Q) : Q := sum l / inject_Z (Z.of_nat (List.length l)).

Definition is_empty {A : Type} (l : list A) : bool :=
  match l with [] => true | _ => false end.

(** [_resolve_conflict_by_time_patterns]; the result is one of the strings
    ['accepting'] and ['rejecting']. *)
Definition _resolve_conflict_by_time_patterns
           (positive_samples negative_samples : list trace) : string :=
  (if is_empty positive_samples && is_empty negative_samples then "rejecting"
   else if is_empty positive_samples then "rejecting"
   else if is_empty negative_samples then "accepting"
   else
     let pos_second_times := second_times positive_samples in
     let neg_second_times := second_times negative_samples in
     if is_empty pos_second_times || is_empty neg_second_times then
       if Nat.leb (List.length negative_samples) (List.length positive_samples)
       then "accepting" else "rejecting"
     else
       let pos_avg := average pos_second_times in
       let neg_avg := average neg_second_times in
       if Qltb (neg_avg * (3 # 2)) pos_avg then "accepting" else "rejecting")%string.

(** Python [set]s of node identifiers. *)
Definition set_add (x : nat) (s : list nat) : list nat :=
  if node_in x s then s else s ++ [x].
Definition discard (x : nat) (s : list nat) : list nat :=
  filter (fun y => negb (Nat.eqb y x)) s.

(** The accepting and rejecting sets that [convert_to_3DRTA] collects
    before it resolves conflicts. *)
Definition collect_labels (rta : Min3RTA) : list nat * list nat :=
  fold_left
    (fun (acc : list nat * list nat) (entry : nat * RegionTreeNode) =>
       let '(node_id, node) := entry in
       let real_id := get_real_node_id rta node_id in
       let accepting := if is_accepting node then set_add real_id (fst acc) else fst acc in
       let rejecting := if is_rejecting node then set_add real_id (snd acc) else snd acc in
       (accepting, rejecting))
    (nodes rta) ([], []).

(** The resolution computed for one conflict node. *)
Definition resolution_of (rta : Min3RTA) (positive_samples negative_samples : list trace)
           (conflict_node : nat) : string :=
  let positive_reaching :=
    filter (fun s => _sample_reaches_node rta s conflict_node) positive_samples in
  let negative_reaching :=
    filter (fun s => _sample_reaches_node rta s conflict_node) negative_samples in
  _resolve_conflict_by_time_patterns positive_reaching negative_reaching.

(** One conflict-resolution block of [convert_to_3DRTA]. *)
Definition resolve_conflicts (rta : Min3RTA) (positive_samples negative_samples : list trace)
           (labels : list nat * list nat) : list nat * list nat :=
  let conflicts := filter (fun n => node_in n (snd labels)) (fst labels) in
  fold_left
    (fun (acc : list nat * list nat) (conflict_node : nat) =>
       let resolution := resolution_of rta positive_samples negative_samples conflict_node in
       if String.eqb resolution "accepting"
       then (fst acc, discard conflict_node (snd acc))
       else (discard conflict_node (fst acc), snd acc))
    conflicts labels.

(** The accepting and rejecting sets of the structure returned by
    [convert_to_3DRTA]; the source runs the resolution block twice. *)
Definition convert_to_3DRTA_labels (rta : Min3RTA)
           (positive_samples negative_samples : list trace) : list nat * list nat :=
  resolve_conflicts rta positive_samples negative_samples
    (resolve_conflicts rta positive_samples negative_samples (collect_labels rta)).

End Convert.

(* ------------------------------------------------------------------ *)
(** ** DRTA.py: the automaton and its acceptance run *)

Module DRTA.

(** [class TimeRegion] *)
Record TimeRegion : Type := mkTimeRegion {
  lower : num;
  upper : num;
  lower_inclusive : bool;
  upper_inclusive : bool
}.

(** [TimeRegion.contains] *)
Definition contains (self : TimeRegion) (value : Q) : bool :=
  let lower_check :=
    if lower_inclusive self then geb (Fin value) (lower self)
    else gtb (Fin value) (lower self) in
  let upper_check :=
    if upper_inclusive self then leb (Fin value) (upper self)
    else ltb (Fin value) (upper self) in
  lower_check && upper_check.

(** The attribute dictionary of an edge; an attribute may be missing,
    and [data.get] then gives [None]. *)
Record edge_data : Type := mkEdge {
  symbol : option string;
  symbol_id : option nat;
  region : option string;
  region_obj : option TimeRegion
}.

(** [class DRTA]. The multigraph is its adjacency structure: for a state,
    its successors in insertion order, and for a successor the parallel
    edges by key. *)
Record DRTA : Type := mkDRTA {
  graph : list (nat * list (nat * list (nat * edge_data)));
  root : option nat;
  accepting_states : list nat;
  rejecting_states : list nat;
  alphabet : list (string * nat)
}.

(** [x in s] with [x] possibly [None]. *)
Definition in_states (x : option nat) (s : list nat) : bool :=
  match x with
  | None => false
  | Some n => existsb (Nat.eqb n) s
  end.

(** An edge matches when its symbol is the event's and its region object
    is present and contains the time. *)
Definition edge_matches (symbol' : string) (time : Q) (data : edge_data) : bool :=
  (match symbol data with
   | Some s => String.eqb s symbol'
   | None => false
   end)
  && (match region_obj data with
      | Some r => contains r time
      | None => false
      end).

(** One step of [accepts]: the first successor with a matching edge.
    The outer [None] is the exception of [successors] on an unknown state,
    the inner [None] is no matching transition. *)
Definition step (drta : DRTA) (current_state : option nat) (symbol' : string) (time : Q)
  : option (option nat) :=
  s <- current_state ;;
  succs <- Dict.get Nat.eqb (graph drta) s ;;
  Some (match find (fun entry : nat * list (nat * edge_data) =>
                      existsb (fun e : nat * edge_data => edge_matches symbol' time (snd e))
                              (snd entry))
                   succs with
        | Some (target, _) => Some target
        | None => None
        end).

Fixpoint run (drta : DRTA) (current_state : option nat) (word : trace) : option bool :=
  match word with
  | [] => Some (in_states current_state (accepting_states drta))
  | (symbol', time) :: rest =>
      next <- step drta current_state symbol' time ;;
      match next with
      | None => Some false
      | Some target => run drta (Some target) rest
      end
  end.

(** [accepts] *)
Definition accepts (drta : DRTA) (word : trace) : option bool :=
  match word with
  | [] => Some (in_states (root drta) (accepting_states drta))
  | _ => run drta (root drta) word
  end.

End DRTA.

(* ------------------------------------------------------------------ *)
(** ** Encoding.py: the SMT encoder *)

Module Encoding.

(** The Boolean terms that the encoder builds with [Bool], [Not], [And],
    [Or] and [Implies]. *)
#[warnings="-register-all"] Inductive formula : Type :=
| FVar (name : string)
| FNot (f : formula)
| FAnd (f g : formula)
| FOr (fs : list formula)
| FImplies (f g : formula).

(** Truth of a term in a model, a valuation of the variable names. *)
Fixpoint eval (v : string -> bool) (f : formula) : bool :=
  match f with
  | FVar name => v name
  | FNot g => negb (eval v g)
  | FAnd g h => eval v g && eval v h
  | FOr gs => (fix eval_or (l : list formula) : bool :=
                 match l with
                 | [] => false
                 | g :: rest => eval v g || eval_or rest
                 end) gs
  | FImplies g h => implb (eval v g) (eval v h)
  end.

(** [class Encoding]: the fields that the constraint generators read and
    write. [solver] is the list of assertions added to the solver;
    [clauses] keeps, for each constraint, its kind and description together
    with the constraint (the source stores them rendered in one string). *)
Record Encoding : Type := mkEncoding {
  positive_samples : option (list trace);
  n_colors : nat;
  variables : list (string * formula);
  solver : list formula;
  hard_constraints : list (formula * string);
  soft_constraints : list (formula * string * nat);
  clauses : list (string * string * formula)
}.

(** A model of the solver satisfies every assertion. *)
Definition is_model (v : string -> bool) (assertions : list formula) : Prop :=
  forall f, In f assertions -> eval v f = true.

(** [color_accepting]: the variable [accepting_<color>], created on first
    use. *)
Definition color_accepting (enc : Encoding) (color : nat) : Encoding * formula :=
  let var_name := ("accepting_" ++ str_nat color)%string in
  match Dict.get String.eqb (variables enc) var_name with
  | Some var => (enc, var)
  | None =>
      (mkEncoding (positive_samples enc) (n_colors enc)
                  (Dict.set String.eqb (variables enc) var_name (FVar var_name))
                  (solver enc) (hard_constraints enc) (soft_constraints enc)
                  (clauses enc),
       FVar var_name)
  end.

(** [add_hard_constraint] *)
Definition add_hard_constraint (enc : Encoding) (constraint : formula)
           (description : string) : Encoding :=
  mkEncoding (positive_samples enc) (n_colors enc) (variables enc)
             (solver enc ++ [constraint])
             (hard_constraints enc ++ [(constraint, description)])
             (soft_constraints enc)
             (clauses enc ++ [("Hard constraint"%string, description, constraint)]).

(** [generate_color_zero_accepting_constraint] *)
Definition generate_color_zero_accepting_constraint (enc : Encoding) : Encoding :=
  match positive_samples enc with
  | Some samples =>
      if Nat.ltb 0 (List.length samples) then
        let '(enc, color_0_accepting_var) := color_accepting enc 0 in
        let constraint := color_0_accepting_var in
        add_hard_constraint enc constraint
          "Color 0 must be accepting state when positive samples exist"
      else enc
  | None => enc
  end.

(** The variable table only ever maps a name to the Boolean constant of
    that name. *)
Definition variables_wf (enc : Encoding) : Prop :=
  forall name var, In (name, var) (variables enc) -> var = FVar name.

End Encoding.

(* ------------------------------------------------------------------ *)
(** ** test_encoding.py: the verifier *)

Module Verifier.

(** A region of the optimiser and of the verifier is the tuple
    [(lower, upper, lower_closed, upper_closed)]. *)
Definition region_tuple : Type := (num * num * bool * bool)%type.

(** The optimised transition relation:
    [{(color_from, symbol): {color_to: [regions]}}]. *)
Definition targets : Type := list (nat * list region_tuple).
Definition optimized : Type := list ((nat * string) * targets).

(** [is_timestamp_in_region] *)
Definition is_timestamp_in_region (timestamp : Q) (r : region_tuple) : bool :=
  let '(lower, upper, lower_closed, upper_closed) := r in
  if (if lower_closed then ltb (Fin timestamp) lower else leb (Fin timestamp) lower)
  then false
  else if (if upper_closed then gtb (Fin timestamp) upper else geb (Fin timestamp) upper)
  then false
  else true.

(** Why a run stopped, the ['reason'] entry of the result. *)
Inductive reason : Type :=
| empty_sample
| empty_sample_in_accepting_state
| unknown_symbol (symbol : string) (event_number : nat)
| no_transition (state : nat) (symbol : string) (timestamp : Q)
| multiple_possible_transitions (state : nat) (symbol : string) (timestamp : Q)
                                (possible : list nat)
| reached_accepting_state
| reached_rejecting_state.

(** The result dictionary of [simulate_drta_execution]. *)
Record result : Type := mkResult {
  accepted : bool;
  path : list nat;
  why : reason
}.

Definition color_in (c : nat) (colors : list nat) : bool := existsb (Nat.eqb c) colors.

(** The targets enabled from [current_state] on [symbol_id] at [timestamp]:
    one entry for every region that contains the timestamp. *)
Definition possible_transitions (optimized_transitions : optimized)
           (current_state : nat) (symbol_id : string) (timestamp : Q) : list nat :=
  flat_map
    (fun entry : (nat * string) * targets =>
       let '((state_from, sym), target_regions) := entry in
       if Nat.eqb state_from current_state && String.eqb sym symbol_id then
         flat_map
           (fun tr : nat * list region_tuple =>
              let '(target_state, regions) := tr in
              flat_map (fun r => if is_timestamp_in_region timestamp r
                                 then [target_state] else [])
                       regions)
           target_regions
       else [])
    optimized_transitions.

(** The reverse mapping [symbol_to_id] built from the alphabet. *)
Definition symbol_to_id (alphabet : list (string * nat)) : list (string * string) :=
  fold_left (fun d (e : string * nat) => Dict.set String.eqb d (fst e) (str_nat (snd e)))
            alphabet [].

(** The event loop of [simulate_drta_execution]. *)
Fixpoint simulate_loop (optimized_transitions : optimized) (accepting_colors : list nat)
         (ids : list (string * string)) (events : trace) (event_idx : nat)
         (current_state : nat) (path' : list nat) : result :=
  match events with
  | [] =>
      let is_accepted := color_in current_state accepting_colors in
      mkResult is_accepted path'
               (if is_accepted then reached_accepting_state else reached_rejecting_state)
  | (symbol, timestamp) :: rest =>
      match Dict.get String.eqb ids symbol with
      | None => mkResult false path' (unknown_symbol symbol (event_idx + 1))
      | Some symbol_id =>
          let possible :=
            possible_transitions optimized_transitions current_state symbol_id timestamp in
          match possible with
          | [] => mkResult false path' (no_transition current_state symbol timestamp)
          | target :: others =>
              if Nat.ltb 1 (List.length possible) then
                mkResult false path'
                  (multiple_possible_transitions current_state symbol timestamp possible)
              else
                simulate_loop optimized_transitions accepting_colors ids rest
                              (event_idx + 1) target (path' ++ [target])
          end
      end
  end.

(** [simulate_drta_execution] *)
Definition simulate_drta_execution (sample : trace) (optimized_transitions : optimized)
           (accepting_colors : list nat) (alphabet : list (string * nat)) : result :=
  match sample with
  | [] =>
      mkResult (color_in 0 accepting_colors) [0%nat]
               (if negb (color_in 0 accepting_colors) then empty_sample
                else empty_sample_in_accepting_state)
  | _ =>
      simulate_loop optimized_transitions accepting_colors (symbol_to_id alphabet)
                    sample 0 0 [0%nat]
  end.

End Verifier.

(* ------------------------------------------------------------------ *)
(** ** test_encoding.py: the region-partition optimiser *)

Module Optimizer.

Import Verifier.

(** An entry of [parsed_transitions]. The embedding starts after the first
    loop of [optimize_transitions_new], which splits the variable names of
    the model and parses the region text with [float]. *)
Record parsed_transition : Type := mkParsed {
  symbol : string;
  region : region_tuple;
  region_str : string;
  color_from : nat;
  color_to : nat;
  orig_trans : string
}.

Definition is_empty {A : Type} (l : list A) : bool :=
  match l with [] => true | _ => false end.

(** A stable sort by a strict order on keys ([sorted] and [list.sort]). *)
Fixpoint insert_by {A : Type} (lt : A -> A -> bool) (x : A) (l : list A) : list A :=
  match l with
  | [] => [x]
  | y :: rest => if lt y x then y :: insert_by lt x rest else x :: l
  end.
Definition sort_by {A : Type} (lt : A -> A -> bool) (l : list A) : list A :=
  fold_right (insert_by lt) [] l.

(** The sort key [(r[0], 0 if r[2] else 1)]. *)
Definition region_key_ltb (a b : region_tuple) : bool :=
  let '(lower_a, _, closed_a, _) := a in
  let '(lower_b, _, closed_b, _) := b in
  if eqb lower_a lower_b
  then Nat.ltb (if closed_a then 0 else 1) (if closed_b then 0 else 1)
  else ltb lower_a lower_b.

Definition sort_regions (l : list region_tuple) : list region_tuple :=
  sort_by region_key_ltb l.

(** [lower == upper and lower_closed and upper_closed] *)
Definition is_exact_point (r : region_tuple) : bool :=
  let '(lower, upper, lower_closed, upper_closed) := r in
  eqb lower upper && lower_closed && upper_closed.

(** The membership test that the optimiser writes out for a point and an
    interval. *)
Definition point_in (point_value : num) (r : region_tuple) : bool :=
  let '(lower, upper, lower_closed, upper_closed) := r in
  (ltb lower point_value && ltb point_value upper)
  || (eqb lower point_value && lower_closed)
  || (eqb upper point_value && upper_closed).

(** The non-emptiness test [lo < hi or (lo == hi and lo_closed and hi_closed)]. *)
Definition nonempty_region (r : region_tuple) : bool :=
  let '(lower, upper, lower_closed, upper_closed) := r in
  ltb lower upper || (eqb lower upper && lower_closed && upper_closed).

(** [split_region_around_points] *)
Definition split_region_around_points (r : region_tuple) (conflict_points : list num)
  : list region_tuple :=
  let '(lower, upper, lower_closed, upper_closed) := r in
  if is_empty conflict_points then [r]
  else
    let '(internal_points, lower_closed, upper_closed) :=
      fold_left
        (fun (st : list num * bool * bool) (point : num) =>
           let '(internal_points, lower_closed, upper_closed) := st in
           if ltb lower point && ltb point upper
           then (internal_points ++ [point], lower_closed, upper_closed)
           else if eqb point lower && lower_closed
           then (internal_points, false, upper_closed)
           else if eqb point upper && upper_closed
           then (internal_points, lower_closed, false)
           else st)
        conflict_points ([], lower_closed, upper_closed) in
    if is_empty internal_points then
      if nonempty_region (lower, upper, lower_closed, upper_closed)
      then [(lower, upper, lower_closed, upper_closed)]
      else []
    else
      let internal_points := sort_by ltb internal_points in
      let '(result, current_lower, current_lower_closed) :=
        fold_left
          (fun (st : list region_tuple * num * bool) (point : num) =>
             let '(result, current_lower, current_lower_closed) := st in
             let result :=
               if ltb current_lower point
                  || (eqb current_lower point && current_lower_closed)
               then result ++ [(current_lower, point, current_lower_closed, false)]
               else result in
             (result, point, false))
          internal_points ([], lower, lower_closed) in
      let result :=
        if ltb current_lower upper
           || (eqb current_lower upper && current_lower_closed && upper_closed)
        then result ++ [(current_lower, upper, current_lower_closed, upper_closed)]
        else result in
      filter nonempty_region result.

(** [abs] of a number. *)
Definition abs (x : num) : num :=
  match x with
  | Fin q => Fin (Qabs q)
  | PInf | NInf => PInf
  | NaN => NaN
  end.

(** The decision of [merge_adjacent_regions_protected] for two neighbours:
    first the protection check over the points of other colours, then the
    regular check. *)
Definition can_merge (r1 r2 : region_tuple) (protected_points : list (num * nat))
           (target_color : nat) : bool :=
  let '(lower1, upper1, lower1_closed, upper1_closed) := r1 in
  let '(lower2, upper2, lower2_closed, upper2_closed) := r2 in
  let blocked :=
    existsb
      (fun entry : num * nat =>
         let '(point_value, point_color) := entry in
         if negb (Nat.eqb point_color target_color) then
           let merged_lower := min lower1 lower2 in
           let merged_upper := max upper1 upper2 in
           let merged_lower_closed :=
             if eqb merged_lower lower1 then lower1_closed else lower2_closed in
           let merged_upper_closed :=
             if eqb merged_upper upper1 then upper1_closed else upper2_closed in
           let point_in_merged :=
             point_in point_value
                      (merged_lower, merged_upper, merged_lower_closed, merged_upper_closed) in
           point_in_merged && negb (point_in point_value r1) && negb (point_in point_value r2)
         else false)
      protected_points in
  if negb blocked then
    if ltb lower2 upper1 then true
    else if eqb lower2 upper1 && (upper1_closed || lower2_closed) then true
    else if ltb (abs (sub lower2 upper1)) (Fin (1 # 10000000000)) then true
    else false
  else false.

(** The region that replaces two merged neighbours. *)
Definition merged_region (r1 r2 : region_tuple) : region_tuple :=
  let '(lower1, upper1, lower1_closed, upper1_closed) := r1 in
  let '(lower2, upper2, lower2_closed, upper2_closed) := r2 in
  let new_lower := min lower1 lower2 in
  let new_upper := max upper1 upper2 in
  let new_lower_closed := if eqb new_lower lower1 then lower1_closed else lower2_closed in
  let new_upper_closed := if eqb new_upper upper1 then upper1_closed else upper2_closed in
  let new_lower_closed :=
    if eqb lower1 lower2 then lower1_closed || lower2_closed else new_lower_closed in
  let new_upper_closed :=
    if eqb upper1 upper2 then upper1_closed || upper2_closed else new_upper_closed in
  (new_lower, new_upper, new_lower_closed, new_upper_closed).

(** The [while] loop of [merge_adjacent_regions_protected] with [r1] the
    region at index [i] and [rest] the regions after it: a merge replaces
    the two regions and stays at [i], otherwise [i] advances. *)
Fixpoint merge_from (r1 : region_tuple) (rest : list region_tuple)
         (protected_points : list (num * nat)) (target_color : nat) : list region_tuple :=
  match rest with
  | [] => [r1]
  | r2 :: rest' =>
      if can_merge r1 r2 protected_points target_color
      then merge_from (merged_region r1 r2) rest' protected_points target_color
      else r1 :: merge_from r2 rest' protected_points target_color
  end.

(** [merge_adjacent_regions_protected]: the list after the in-place merge. *)
Definition merge_adjacent_regions_protected (regions : list region_tuple)
           (protected_points : list (num * nat)) (target_color : nat) : list region_tuple :=
  match regions with
  | [] => []
  | r1 :: rest => merge_from r1 rest protected_points target_color
  end.

(** [optimize_regions_with_solver] *)
Definition optimize_regions_with_solver (by_target : targets) : targets :=
  let point_intervals : list (num * list nat) :=
    fold_left
      (fun d (entry : nat * list region_tuple) =>
         let '(color_to, regions) := entry in
         fold_left
           (fun d (r : region_tuple) =>
              let '(lower, upper, lower_closed, upper_closed) := r in
              if is_exact_point r then
                match Dict.get eqb d lower with
                | None => Dict.set eqb d lower [color_to]
                | Some colors => Dict.set eqb d lower (colors ++ [color_to])
                end
              else d)
           regions d)
      by_target [] in
  let protected_points : list (num * nat) :=
    fold_left
      (fun d (entry : num * list nat) =>
         let '(point_value, target_colors) := entry in
         if Nat.ltb 1 (List.length target_colors)
         then Dict.set eqb d point_value (fold_right Nat.min (hd 0%nat target_colors) target_colors)
         else Dict.set eqb d point_value (hd 0%nat target_colors))
      point_intervals [] in
  let optimized : targets :=
    fold_left
      (fun d (entry : nat * list region_tuple) =>
         let '(color_to, regions) := entry in
         let processed_regions :=
           fold_left
             (fun processed (r : region_tuple) =>
                let '(lower, upper, lower_closed, upper_closed) := r in
                if is_exact_point r then
                  match Dict.get eqb protected_points lower with
                  | Some c => if Nat.eqb c color_to then processed ++ [r] else processed
                  | None => processed
                  end
                else
                  let conflicts :=
                    flat_map
                      (fun pe : num * nat =>
                         let '(point_value, point_color) := pe in
                         if negb (Nat.eqb point_color color_to) && point_in point_value r
                         then [point_value] else [])
                      protected_points in
                  if is_empty conflicts then processed ++ [r]
                  else processed ++ split_region_around_points r conflicts)
             regions [] in
         Dict.set Nat.eqb d color_to processed_regions)
      by_target [] in
  map (fun entry : nat * list region_tuple =>
         let '(color_to, regions) := entry in
         if Nat.ltb 1 (List.length regions)
         then (color_to,
               merge_adjacent_regions_protected (sort_regions regions) protected_points color_to)
         else entry)
      optimized.

(** [find_gaps] *)
Definition find_gaps (regions : list region_tuple) : list region_tuple :=
  match regions with
  | [] => [(of_Z 0, PInf, true, false)]
  | first :: _ =>
      let '(first_lower, _, first_lower_closed, _) := first in
      let gaps :=
        if gtb first_lower (of_Z 0)
        then [(of_Z 0, first_lower, true, negb first_lower_closed)]
        else [] in
      let gaps :=
        (fix between (l : list region_tuple) (gaps : list region_tuple) : list region_tuple :=
           match l with
           | current :: ((next :: _) as tail) =>
               let '(_, current_upper, _, current_upper_closed) := current in
               let '(next_lower, _, next_lower_closed, _) := next in
               let gaps :=
                 if ltb current_upper next_lower
                 then gaps ++ [(current_upper, next_lower,
                                negb current_upper_closed, negb next_lower_closed)]
                 else if eqb current_upper next_lower
                         && negb (current_upper_closed && next_lower_closed)
                 then
                   if negb current_upper_closed && negb next_lower_closed
                   then gaps ++ [(current_upper, current_upper, true, true)]
                   else gaps
                 else gaps in
               between tail gaps
           | _ => gaps
           end) regions gaps in
      let '(_, last_upper, _, last_upper_closed) := List.last regions first in
      if neqb last_upper PInf
      then gaps ++ [(last_upper, PInf, negb last_upper_closed, false)]
      else gaps
  end.

(** The adjacency score of one region for a gap: 2 for a match at the gap's
    lower boundary, 1 for a match at its upper boundary. *)
Definition match_score (gap r : region_tuple) : nat :=
  let '(gap_lower, gap_upper, gap_lower_closed, gap_upper_closed) := gap in
  let '(region_lower, region_upper, region_lower_closed, region_upper_closed) := r in
  let lower_match := eqb region_upper gap_lower && (region_upper_closed || gap_lower_closed) in
  let upper_match := eqb region_lower gap_upper && (region_lower_closed || gap_upper_closed) in
  ((if lower_match then 2 else 0) + (if upper_match then 1 else 0))%nat.

(** [color_matches]: the highest positive score of each colour. *)
Definition color_matches (optimized_regions : targets) (gap : region_tuple)
  : list (nat * nat) :=
  fold_left
    (fun d (entry : nat * list region_tuple) =>
       let '(color, regions) := entry in
       fold_left
         (fun d (r : region_tuple) =>
            let score := match_score gap r in
            if Nat.ltb 0 score then
              match Dict.get Nat.eqb d color with
              | None => Dict.set Nat.eqb d color score
              | Some old => if Nat.ltb old score then Dict.set Nat.eqb d color score else d
              end
            else d)
         regions d)
    optimized_regions [].

(** [len(optimized_regions[color])] *)
Definition region_count (optimized_regions : targets) (color : nat) : nat :=
  match Dict.get Nat.eqb optimized_regions color with
  | Some regions => List.length regions
  | None => 0
  end.

(** The choice of the best matching colour; the score starts at [-1]. *)
Definition best_by_score (optimized_regions : targets) (matches : list (nat * nat))
  : option nat :=
  fst (fold_left
         (fun (st : option nat * Z) (entry : nat * nat) =>
            let '(best_color, best_score) := st in
            let '(color, score) := entry in
            if Z.ltb best_score (Z.of_nat score) then (Some color, Z.of_nat score)
            else if Z.eqb (Z.of_nat score) best_score
                    && (match best_color with
                        | Some b => Nat.ltb (region_count optimized_regions color)
                                            (region_count optimized_regions b)
                        | None => false
                        end)
            then (Some color, best_score)
            else st)
         matches (None, (-1)%Z)).

(** The fallback on the distance between the gap and the regions. *)
Definition best_by_distance (optimized_regions : targets) (gap : region_tuple)
  : option nat :=
  let '(gap_lower, gap_upper, _, _) := gap in
  fst (fold_left
         (fun (st : option nat * num) (entry : nat * list region_tuple) =>
            let '(color, regions) := entry in
            fold_left
              (fun (st : option nat * num) (r : region_tuple) =>
                 let '(best_color, min_distance) := st in
                 let '(region_lower, region_upper, _, _) := r in
                 let distance :=
                   if leb gap_upper region_lower then sub region_lower gap_upper
                   else if geb gap_lower region_upper then sub gap_lower region_upper
                   else of_Z 0 in
                 if ltb distance min_distance then (Some color, distance) else st)
              regions st)
         optimized_regions (None, PInf)).

(** The protected points that lie in a gap. *)
Definition gap_conflicts (gap : region_tuple) (protected_points : list (num * nat))
  : list num :=
  flat_map (fun pe : num * nat => if point_in (fst pe) gap then [fst pe] else [])
           protected_points.

(** The assignment of a gap without conflicts to a colour: the updated
    region dictionary. *)
Definition assign_gap (optimized_regions : targets) (target_colors : list nat)
           (gap : region_tuple) (protected_points : list (num * nat)) : targets :=
  let '(gap_lower, gap_upper, gap_lower_closed, gap_upper_closed) := gap in
  let gap_lower_closed :=
    if eqb gap_lower (of_Z 0) && negb gap_lower_closed then true else gap_lower_closed in
  let gap := (gap_lower, gap_upper, gap_lower_closed, gap_upper_closed) in
  let best_color :=
    match best_by_score optimized_regions (color_matches optimized_regions gap) with
    | Some c => c
    | None =>
        match best_by_distance optimized_regions gap with
        | Some c => c
        | None => hd 0%nat target_colors
        end
    end in
  let regions :=
    match Dict.get Nat.eqb optimized_regions best_color with
    | Some regions => regions
    | None => []
    end in
  let regions := sort_regions (regions ++ [gap]) in
  Dict.set Nat.eqb optimized_regions best_color
           (merge_adjacent_regions_protected regions protected_points best_color).

(** [fill_gaps_in_regions_protected]: the region dictionary after the
    in-place filling. The function calls itself on the pieces of a gap that
    holds protected points; [fuel] bounds the depth of these calls and
    [None] is the depth exceeded. *)
Fixpoint fill_gaps_in_regions_protected (fuel : nat) (optimized_regions : targets)
         (gaps : list region_tuple) (protected_points : list (num * nat))
  : option targets :=
  match fuel with
  | O => None
  | S fuel' =>
      if is_empty gaps then Some optimized_regions
      else if is_empty optimized_regions then Some optimized_regions
      else
        let target_colors :=
          sort_by (fun a b => Nat.ltb (region_count optimized_regions a)
                                      (region_count optimized_regions b))
                  (map fst optimized_regions) in
        (fix each_gap (gaps : list region_tuple) (optimized_regions : targets)
           : option targets :=
           match gaps with
           | [] => Some optimized_regions
           | gap :: rest =>
               let '(gap_lower, gap_upper, gap_lower_closed, gap_upper_closed) := gap in
               if eqb gap_lower gap_upper && negb (gap_lower_closed && gap_upper_closed)
               then each_gap rest optimized_regions
               else
                 let conflicts := gap_conflicts gap protected_points in
                 if negb (is_empty conflicts) then
                   let sub_gaps := split_region_around_points gap conflicts in
                   optimized_regions <-
                     fill_gaps_in_regions_protected fuel' optimized_regions sub_gaps
                                                    protected_points ;;
                   each_gap rest optimized_regions
                 else
                   each_gap rest
                            (assign_gap optimized_regions target_colors gap protected_points)
           end) gaps optimized_regions
  end.

Definition recursion_limit : nat := 1000.

Definition group_key_eqb (a b : nat * string) : bool :=
  Nat.eqb (fst a) (fst b) && String.eqb (snd a) (snd b).

(** [transitions_by_source]: the entries grouped by [(color_from, symbol)]. *)
Definition group_by_source (parsed_transitions : list parsed_transition)
  : list ((nat * string) * list parsed_transition) :=
  fold_left
    (fun d (trans : parsed_transition) =>
       let key := (color_from trans, symbol trans) in
       match Dict.get group_key_eqb d key with
       | None => Dict.set group_key_eqb d key [trans]
       | Some group => Dict.set group_key_eqb d key (group ++ [trans])
       end)
    parsed_transitions [].

(** [by_target]: the entries of a group by target colour. *)
Definition group_by_target (trans_group : list parsed_transition)
  : list (nat * list parsed_transition) :=
  fold_left
    (fun d (trans : parsed_transition) =>
       match Dict.get Nat.eqb d (color_to trans) with
       | None => Dict.set Nat.eqb d (color_to trans) [trans]
       | Some group => Dict.set Nat.eqb d (color_to trans) (group ++ [trans])
       end)
    trans_group [].

(** The exact points of the group [(color_from, symbol)] with the colour of
    the last entry that names them; [only_zero] restricts the collection to
    the point 0, as the single-target branch does. *)
Definition group_protected_points (parsed_transitions : list parsed_transition)
           (color_from' : nat) (symbol' : string) (only_zero : bool) : list (num * nat) :=
  fold_left
    (fun d (trans : parsed_transition) =>
       if group_key_eqb (color_from trans, symbol trans) (color_from', symbol') then
         let '(lower, upper, lower_closed, upper_closed) := region trans in
         if is_exact_point (region trans)
            && (if only_zero then eqb lower (of_Z 0) else true)
         then Dict.set eqb d (if only_zero then of_Z 0 else lower) (color_to trans)
         else d
       else d)
    parsed_transitions [].

(** The body of the main loop of [optimize_transitions_new] for one group. *)
Definition optimize_group (parsed_transitions : list parsed_transition)
           (color_from' : nat) (symbol' : string) (trans_group : list parsed_transition)
  : option targets :=
  let by_target := group_by_target trans_group in
  let optimized_regions : targets :=
    match by_target with
    | [(color_to', _)] =>
        let protected_points :=
          group_protected_points parsed_transitions color_from' symbol' true in
        let zero_closed :=
          match Dict.get eqb protected_points (of_Z 0) with
          | None => true
          | Some c => Nat.eqb c color_to'
          end in
        [(color_to', [(of_Z 0, PInf, zero_closed, false)])]
    | _ =>
        let by_target :=
          map (fun entry : nat * list parsed_transition =>
                 (fst entry, sort_regions (map region (snd entry))))
              by_target in
        optimize_regions_with_solver by_target
    end in
  let all_regions := sort_regions (flat_map snd optimized_regions) in
  let gaps := find_gaps all_regions in
  let valid_gaps :=
    filter (fun gap : region_tuple =>
              let '(lo, hi, lo_closed, hi_closed) := gap in
              negb (eqb lo hi && (negb lo_closed || negb hi_closed)))
           gaps in
  let protected_points :=
    group_protected_points parsed_transitions color_from' symbol' false in
  if negb (is_empty valid_gaps)
  then fill_gaps_in_regions_protected recursion_limit optimized_regions valid_gaps
                                      protected_points
  else Some optimized_regions.

(** [optimize_transitions_new], from [parsed_transitions] on. *)
Definition optimize_transitions_new (parsed_transitions : list parsed_transition)
  : option optimized :=
  fold_left
    (fun (acc : option optimized) (entry : (nat * string) * list parsed_transition) =>
       all_optimized_transitions <- acc ;;
       let '((color_from', symbol'), trans_group) := entry in
       optimized_regions <-
         optimize_group parsed_transitions color_from' symbol' trans_group ;;
       Some (Dict.set group_key_eqb all_optimized_transitions
                      (color_from', symbol') optimized_regions))
    (group_by_source parsed_transitions) (Some []).

End Optimizer.

(* ------------------------------------------------------------------ *)
(** ** Notions used in the statements *)

Module Statements.

Import Min3RTA.


(** The regions [[i, i]] and [(i, i+1)] of the region alphabet. *)
Definition point_region (i : nat) : Region := mkRegion (of_nat i) (of_nat i) true true.
Definition open_region (i : nat) : Region := mkRegion (of_nat i) (of_nat (i + 1)) false false.

(** All the timestamps of a sample set. *)
Definition timestamps (S : list trace) : list Q := map snd (List.concat S).

(** A number that is not NaN equals itself. *)
Definition not_nan (x : num) : bool :=
  match x with NaN => false | _ => true end.

Definition region_not_nan (r : Region) : bool :=
  not_nan (TAPTA.lower r) && not_nan (TAPTA.upper r).






End Statements.

(** The part of a verifier run that succeeds: the state and path reached
    after the events of [events] when every event has a known symbol and
    exactly one enabled transition. *)
Fixpoint run_prefix (optimized_transitions : Verifier.optimized)
         (ids : list (string * string)) (events : trace)
         (current_state : nat) (path' : list nat) : option (nat * list nat) :=
  match events with
  | [] => Some (current_state, path')
  | (symbol, timestamp) :: rest =>
      symbol_id <- Dict.get String.eqb ids symbol ;;
      match Verifier.possible_transitions optimized_transitions current_state
                                          symbol_id timestamp with
      | [target] =>
          run_prefix optimized_transitions ids rest target (path' ++ [target])
      | _ => None
      end
  end.

(* ------------------------------------------------------------------ *)
(** ** Concrete inputs *)

Module Inputs.

Import Min3RTA Verifier Optimizer.

Local Open Scope string_scope.

(** Two positive samples [[('a', 1)]] and [[('b', 1)]] inserted with global
    maximum 2: the root has the two accepting leaves 1 and 2, and leaf 1 is
    registered. *)
Definition two_leaves : option Min3RTA.Min3RTA :=
  rta <- add Min3RTA.empty [("a", 1)] true 2 ;;
  add rta [("b", 1)] true 2.

(** A canonical node 1 and an absorbed node 2 with the same labels, both
    with an [a]-transition to node 3: on [[1, 1]] from node 1 and on
    [(1, 2)] from node 2. *)
Definition point_1 : Region := mkRegion (of_Z 1) (of_Z 1) true true.
Definition open_1_2 : Region := mkRegion (of_Z 1) (of_Z 2) false false.




(** Transitions of a model for the samples [positive = [[('a', 0.5)]]],
    [negative = [[('a', 1)]]] with two colours (symbol [a] has identifier 0):
    from colour 0, [(0, 1)] to colour 0 and [[1, ∞)] to colour 1; from colour
    1, both regions to colour 0. *)
Definition open_at_zero : list parsed_transition :=
  [ mkParsed "0" (of_Z 0, of_Z 1, false, false) "(0, 1)" 0 0 "trans_0_(0, 1)_0_0";
    mkParsed "0" (of_Z 1, PInf, true, false) "[1, ∞)" 0 1 "trans_0_[1, ∞)_0_1";
    mkParsed "0" (of_Z 0, of_Z 1, false, false) "(0, 1)" 1 0 "trans_0_(0, 1)_1_0";
    mkParsed "0" (of_Z 1, PInf, true, false) "[1, ∞)" 1 0 "trans_0_[1, ∞)_1_0" ].

(** An optimised relation that is not deterministic: from colour 0 on
    symbol 0, both colour 1 and colour 2 are reached on [0, ∞). *)
Definition two_enabled : optimized :=
  [((0%nat, "0"), [(1%nat, [(of_Z 0, PInf, true, false)]);
                   (2%nat, [(of_Z 0, PInf, true, false)])])].

End Inputs.
(* ------------------------------------------------------------------ *)
(** ** tAPTA.py: the prefix tree of [BuildTimedAPTA] *)

Module TAPTABuild.

(** The last region [(kappa, inf)] of the alphabet. *)
Definition unbounded_region (kappa : Z) : Region := mkRegion (of_Z kappa) PInf false false.

(** The search of [BuildTimedAPTA] for the region of a time value: the
    first region of the list that contains it, [None] when there is none. *)
Definition find_region (Regions : list Region) (tau : Q) : option Region :=
  find (fun region => contains region tau) Regions.

(** Keys of a state's transition dictionary: [(symbol, region)], where the
    region is [None] when no region contains the time. *)
Definition akey : Type := (string * option Region)%type.

Definition region_opt_eqb (a b : option Region) : bool :=
  match a, b with
  | None, None => true
  | Some x, Some y => Region_eqb x y
  | _, _ => false
  end.

Definition akey_eqb (a b : akey) : bool :=
  String.eqb (fst a) (fst b) && region_opt_eqb (snd a) (snd b).

(** [class State]; a target state is held by its identifier. *)
Record State : Type := mkState {
  id : nat;
  is_accepting : bool;
  is_rejecting : bool;
  transitions : list (akey * nat)
}.

(** [class TAPTA] *)
Record TAPTA : Type := mkTAPTA {
  states : list (nat * State);
  initial_state : nat
}.

(** [State.add_transition] *)
Definition add_transition (self : State) (symbol : string) (region : option Region)
           (target_state : nat) : State :=
  mkState (id self) (is_accepting self) (is_rejecting self)
          (Dict.set akey_eqb (transitions self) (symbol, region) target_state).

(** [State.get_transition] *)
Definition get_transition (self : State) (symbol : string) (region : option Region)
  : option nat :=
  match find (fun item : akey * nat =>
                String.eqb (fst (fst item)) symbol
                && region_opt_eqb (snd (fst item)) region)
             (transitions self) with
  | Some (_, target) => Some target
  | None => None
  end.

(** [State.mark_as_accepting], [State.mark_as_rejecting] *)
Definition mark_as_accepting (self : State) : State :=
  mkState (id self) true false (transitions self).
Definition mark_as_rejecting (self : State) : State :=
  mkState (id self) false true (transitions self).

(** [TAPTA.create_state] *)
Definition create_state (T : list (nat * State)) : list (nat * State) * nat :=
  let state_id := List.length T in
  (Dict.set Nat.eqb T state_id (mkState state_id false false []), state_id).

(** [TAPTA.__init__] *)
Definition new_TAPTA : TAPTA :=
  let '(states, q0) := create_state [] in
  mkTAPTA states q0.

(** [TAPTA.delta] *)
Definition delta (T : TAPTA) (state : nat) (symbol_region_pair : akey) : option nat :=
  q <- Dict.get Nat.eqb (states T) state ;;
  get_transition q (fst symbol_region_pair) (snd symbol_region_pair).

(** One event of the walk of [BuildTimedAPTA]: the automaton and the state
    moved to. *)
Definition step (Regions : list Region) (T : TAPTA) (q : nat) (e : event)
  : option (TAPTA * nat) :=
  let '(sigma, tau) := e in
  let I := find_region Regions tau in
  source <- Dict.get Nat.eqb (states T) q ;;
  let T :=
    match get_transition source sigma I with
    | None =>
        let '(states', q_new) := create_state (states T) in
        mkTAPTA (Dict.set Nat.eqb states' q (add_transition source sigma I q_new))
                (initial_state T)
    | Some _ => T
    end in
  q' <- delta T q (sigma, I) ;;
  Some (T, q').

Fixpoint walk (Regions : list Region) (T : TAPTA) (q : nat) (omega : trace)
  : option (TAPTA * nat) :=
  match omega with
  | [] => Some (T, q)
  | e :: rest =>
      '(T, q) <- step Regions T q e ;;
      walk Regions T q rest
  end.

(** [omega in S_positive]: list membership with [==] on traces. *)
Definition trace_eqb (a b : trace) : bool :=
  Nat.eqb (List.length a) (List.length b)
  && forallb (fun p : event * event =>
                String.eqb (fst (fst p)) (fst (snd p))
                && Qeq_bool (snd (fst p)) (snd (snd p)))
             (combine a b).

Definition trace_in (omega : trace) (S : list trace) : bool :=
  existsb (trace_eqb omega) S.

(** The processing of one trace: the walk and the marking of its last
    state. *)
Definition insert_trace (Regions : list Region) (S_positive : list trace)
           (T : TAPTA) (omega : trace) : option TAPTA :=
  '(T, q) <- walk Regions T (initial_state T) omega ;;
  final <- Dict.get Nat.eqb (states T) q ;;
  let final := if trace_in omega S_positive then mark_as_accepting final
               else mark_as_rejecting final in
  Some (mkTAPTA (Dict.set Nat.eqb (states T) q final) (initial_state T)).

Fixpoint insert_all (Regions : list Region) (S_positive : list trace)
         (T : TAPTA) (S : list trace) : option TAPTA :=
  match S with
  | [] => Some T
  | omega :: rest =>
      T <- insert_trace Regions S_positive T omega ;;
      insert_all Regions S_positive T rest
  end.

(** [BuildTimedAPTA] *)
Definition BuildTimedAPTA (S_positive S_negative : list trace) : option TAPTA :=
  let S := S_positive ++ S_negative in
  let kappa := BuildTimedAPTA_kappa S_positive S_negative in
  let Regions := BuildTimedAPTA_Regions kappa in
  insert_all Regions S_positive new_TAPTA S.

(** The replay of a trace in a built automaton: the state that [delta]
    leads to from [q], without adding anything. *)
Fixpoint replay (Regions : list Region) (T : TAPTA) (q : nat) (omega : trace)
  : option nat :=
  match omega with
  | [] => Some q
  | (sigma, tau) :: rest =>
      q' <- delta T q (sigma, find_region Regions tau) ;;
      replay Regions T q' rest
  end.

End TAPTABuild.

(** Invariants of the tree under construction. *)
Module TAPTATree.

Import TAPTABuild.

(** The state of identifier [q] carries exactly one of the two labels. *)
Definition labelled (T : TAPTA) (q : nat) : Prop :=
  exists s, Dict.get Nat.eqb (states T) q = Some s
            /\ xorb (is_accepting s) (is_rejecting s) = true.

(** The store holds the identifiers [0, ..., n-1] in the order of their
    creation, every transition leads to a stored state, and no state is both
    accepting and rejecting. *)
Definition closed (T : TAPTA) : Prop :=
  map fst (states T) = seq 0 (List.length (states T))
  /\ (initial_state T < List.length (states T))%nat
  /\ (forall q s key t,
        Dict.get Nat.eqb (states T) q = Some s -> In (key, t) (transitions s) ->
        (t < List.length (states T))%nat)
  /\ (forall q s,
        Dict.get Nat.eqb (states T) q = Some s ->
        is_accepting s && is_rejecting s = false).

(** [T'] has the states, the transitions and the labelled states of [T],
    and possibly more. *)
Definition extends (T T' : TAPTA) : Prop :=
  initial_state T' = initial_state T
  /\ (List.length (states T) <= List.length (states T'))%nat
  /\ (forall q key t, delta T q key = Some t -> delta T' q key = Some t)
  /\ (forall q, labelled T q -> labelled T' q).

(** Every state of [T'] has the labels it has in [T], or no label. *)
Definition keeps_labels (T T' : TAPTA) : Prop :=
  forall q s',
    Dict.get Nat.eqb (states T') q = Some s' ->
    (exists s, Dict.get Nat.eqb (states T) q = Some s
               /\ is_accepting s = is_accepting s' /\ is_rejecting s = is_rejecting s')
    \/ (is_accepting s' = false /\ is_rejecting s' = false).

(** Every label of [T] comes from one of the traces [done]: an accepting
    state is the end of a trace that is among the positive samples, a
    rejecting state the end of a trace that is not. *)
Definition labels_from (Regions : list Region) (S_positive done : list trace)
           (T : TAPTA) : Prop :=
  forall q s,
    Dict.get Nat.eqb (states T) q = Some s ->
    (is_accepting s = true ->
     exists omega, In omega done /\ trace_in omega S_positive = true
                   /\ replay Regions T (initial_state T) omega = Some q)
    /\ (is_rejecting s = true ->
        exists omega, In omega done /\ trace_in omega S_positive = false
                      /\ replay Regions T (initial_state T) omega = Some q).

(** The number of events of a sample list. *)
Definition events (S : list trace) : nat := List.length (List.concat S).

End TAPTATree.

(** The value [t] is an end point that both regions exclude: the upper
    bound of the first and the lower bound of the second. *)
Definition excluded_common_bound (region1 region2 : Region) (t : Q) : bool :=
  eqb (upper region1) (Fin t) && eqb (lower region2) (Fin t)
  && negb (upper_inclusive region1) && negb (lower_inclusive region2).

(* ------------------------------------------------------------------ *)
(** ** DRTA.py: overlap of time regions *)

Module DRTARegions.

Import DRTA.

(** [TimeRegion.overlaps] *)
Definition overlaps (self other : TimeRegion) : bool :=
  let has_overlap :=
    (leb (lower self) (upper other) && geb (upper self) (lower other))
    || (leb (lower other) (upper self) && geb (upper other) (lower self)) in
  if negb has_overlap then
    let is_adjacent :=
      (eqb (upper self) (lower other)
       && (upper_inclusive self || lower_inclusive other))
      || (eqb (upper other) (lower self)
          && (upper_inclusive other || lower_inclusive self)) in
    is_adjacent
  else has_overlap.

End DRTARegions.

Module DRTAGraph.

Import DRTA.

(** [state in drta.graph], with [state] possibly [None]. *)
Definition in_graph (drta : DRTA) (state : option nat) : bool :=
  match state with
  | None => false
  | Some s => Dict.mem Nat.eqb (graph drta) s
  end.

(** Every successor of a state of the graph is a state of the graph, as in
    a graph built with [add_node] and [add_edge]. *)
Definition graph_closed (drta : DRTA) : Prop :=
  forall s succs target edges,
    Dict.get Nat.eqb (graph drta) s = Some succs ->
    In (target, edges) succs ->
    in_graph drta (Some target) = true.

End DRTAGraph.

(* ------------------------------------------------------------------ *)
(** ** Python strings *)

Module PyString.

(** [s.replace(" ", "")] *)
Fixpoint remove_spaces (s : string) : string :=
  match s with
  | EmptyString => EmptyString
  | String c rest =>
      if Ascii.eqb c " " then remove_spaces rest else String c (remove_spaces rest)
  end.

(** [s.startswith(c)] and [s.endswith(c)] for a one-character [c]. *)
Definition startswith (s : string) (c : ascii) : bool :=
  match s with
  | EmptyString => false
  | String c' _ => Ascii.eqb c' c
  end.

Fixpoint endswith (s : string) (c : ascii) : bool :=
  match s with
  | EmptyString => false
  | String c' EmptyString => Ascii.eqb c' c
  | String _ rest => endswith rest c
  end.

(** Strings are held in UTF-8; a character of a Python string may take
    several bytes, the bytes after the first being continuation bytes. *)
Definition is_continuation (c : ascii) : bool :=
  let n := nat_of_ascii c in Nat.leb 128 n && Nat.ltb n 192.

Fixpoint drop_continuation (s : string) : string :=
  match s with
  | String c rest => if is_continuation c then drop_continuation rest else s
  | EmptyString => EmptyString
  end.

Fixpoint reverse (s acc : string) : string :=
  match s with
  | EmptyString => acc
  | String c rest => reverse rest (String c acc)
  end.

(** [s[1:]] and [s[:-1]] *)
Definition drop_first (s : string) : string :=
  match s with
  | EmptyString => EmptyString
  | String _ rest => drop_continuation rest
  end.

Definition drop_last (s : string) : string :=
  match drop_continuation (reverse s EmptyString) with
  | EmptyString => EmptyString
  | String _ rest => reverse rest EmptyString
  end.

(** [s[1:-1]] *)
Definition strip_ends (s : string) : string := drop_last (drop_first s).

(** [s.split(c)] for a one-character separator. *)
Fixpoint split (s : string) (sep : ascii) : list string :=
  match s with
  | EmptyString => [EmptyString]
  | String c rest =>
      if Ascii.eqb c sep then EmptyString :: split rest sep
      else match split rest sep with
           | [] => [String c EmptyString]
           | part :: parts => String c part :: parts
           end
  end.

End PyString.

(* ------------------------------------------------------------------ *)
(** ** Encoding.py: the region-intersection test *)

Module EncodingRegions.

Import Verifier.

Section MayIntersect.

(** The builtin [float] on a string; [None] is a [ValueError]. *)
Variable float : string -> option num.

(** The nested [parse_region] of [_regions_may_intersect]. *)
Definition parse_region (region_str : string) : option region_tuple :=
  let region_str := PyString.remove_spaces region_str in
  let lower_closed := PyString.startswith region_str "[" in
  let upper_closed := PyString.endswith region_str "]" in
  let inner_str := PyString.strip_ends region_str in
  match PyString.split inner_str "," with
  | [part0; part1] =>
      lower <- (if negb (String.eqb part0 "∞") && negb (String.eqb part0 "inf")
                then float part0 else Some NInf) ;;
      upper <- (if negb (String.eqb part1 "∞") && negb (String.eqb part1 "inf")
                then float part1 else Some PInf) ;;
      Some (lower, upper, lower_closed, upper_closed)
  | _ => None
  end.

(** [Encoding._regions_may_intersect] *)
Definition _regions_may_intersect (region1_str region2_str : string) : bool :=
  if String.eqb region1_str region2_str then true
  else
    match parse_region region1_str, parse_region region2_str with
    | Some (lower1, upper1, lower1_closed, upper1_closed),
      Some (lower2, upper2, lower2_closed, upper2_closed) =>
        if ltb upper1 lower2
           || (eqb upper1 lower2 && (negb upper1_closed || negb lower2_closed))
        then false
        else if gtb lower1 upper2
                || (eqb lower1 upper2 && (negb lower1_closed || negb upper2_closed))
        then false
        else true
    | _, _ => true
    end.

End MayIntersect.

(** The builtin [float] on a text of decimal digits, where it is the number
    the digits denote; every other text is left out ([None]). *)
Fixpoint digits_value (s : string) (acc : Z) : option Z :=
  match s with
  | EmptyString => Some acc
  | String c rest =>
      let n := nat_of_ascii c in
      if Nat.leb 48 n && Nat.leb n 57
      then digits_value rest (10 * acc + Z.of_nat (n - 48))
      else None
  end.

Definition float_of_digits (s : string) : option num :=
  match s with
  | EmptyString => None
  | _ => option_map of_Z (digits_value s 0)
  end.

End EncodingRegions.

(* ------------------------------------------------------------------ *)
(** ** test_encoding.py: the verification statistics *)

Module VerifierStats.

Import Verifier.

(** The dictionary returned by [verify_drta_correctness]. *)
Record stats : Type := mkStats {
  positive_correct : nat;
  positive_total : nat;
  negative_correct : nat;
  negative_total : nat;
  total_correct : nat;
  total_samples : nat;
  accuracy : Q
}.

(** [verify_drta_correctness] *)
Definition verify_drta_correctness (optimized_transitions : optimized)
           (accepting_colors : list nat) (positive_samples negative_samples : list trace)
           (alphabet : list (string * nat)) : stats :=
  let positive_total := List.length positive_samples in
  let negative_total := List.length negative_samples in
  let positive_correct :=
    fold_left
      (fun (positive_correct : nat) (sample : trace) =>
         let result :=
           simulate_drta_execution sample optimized_transitions accepting_colors alphabet in
         if accepted result then (positive_correct + 1)%nat else positive_correct)
      positive_samples 0%nat in
  let negative_correct :=
    fold_left
      (fun (negative_correct : nat) (sample : trace) =>
         let result :=
           simulate_drta_execution sample optimized_transitions accepting_colors alphabet in
         if negb (accepted result) then (negative_correct + 1)%nat else negative_correct)
      negative_samples 0%nat in
  let total_correct := (positive_correct + negative_correct)%nat in
  let total_samples := (positive_total + negative_total)%nat in
  mkStats positive_correct positive_total negative_correct negative_total
          total_correct total_samples
          (if Nat.ltb 0 total_samples
           then inject_Z (Z.of_nat total_correct) / inject_Z (Z.of_nat total_samples)
           else 0).

End VerifierStats.

(* ------------------------------------------------------------------ *)
(** ** Notions used to state the properties of the optimiser *)

Module OptimizerFacts.

Import Verifier Optimizer.

(** A list of numbers in ascending order. *)
Fixpoint ascending (l : list num) : Prop :=
  match l with
  | [] => True
  | x :: rest => (forall y, In y rest -> leb x y = true) /\ ascending rest
  end.

(** Both bounds of a region are numbers. *)
Definition bounds_not_nan (r : region_tuple) : bool :=
  let '(lower, upper, _, _) := r in
  Statements.not_nan lower && Statements.not_nan upper.

(** The loop of [find_gaps] over the pairs of neighbours. *)
Definition between_gaps : list region_tuple -> list region_tuple -> list region_tuple :=
  fix between (l : list region_tuple) (gaps : list region_tuple) : list region_tuple :=
    match l with
    | current :: ((next :: _) as tail) =>
        let '(_, current_upper, _, current_upper_closed) := current in
        let '(next_lower, _, next_lower_closed, _) := next in
        let gaps :=
          if ltb current_upper next_lower
          then gaps ++ [(current_upper, next_lower,
                         negb current_upper_closed, negb next_lower_closed)]
          else if eqb current_upper next_lower
                  && negb (current_upper_closed && next_lower_closed)
          then
            if negb current_upper_closed && negb next_lower_closed
            then gaps ++ [(current_upper, current_upper, true, true)]
            else gaps
          else gaps in
        between tail gaps
    | _ => gaps
    end.

(** The two ways in which a region excludes a time value: the value is
    below its lower end, or above its upper end. *)
Definition left_of (t : Q) (r : region_tuple) : bool :=
  let '(lower, _, lower_closed, _) := r in
  if lower_closed then ltb (Fin t) lower else leb (Fin t) lower.
Definition right_of (t : Q) (r : region_tuple) : bool :=
  let '(_, upper, _, upper_closed) := r in
  if upper_closed then gtb (Fin t) upper else geb (Fin t) upper.

(** The first region starts at 0 with an open bound. *)
Definition starts_open_at_zero (regions : list region_tuple) : bool :=
  match regions with
  | (first_lower, _, first_lower_closed, _) :: _ =>
      eqb first_lower (of_Z 0) && negb first_lower_closed
  | [] => false
  end.

(** The protected points that [optimize_regions_with_solver] computes from
    the exact points of [by_target]: a point claimed by several colours is
    protected for the smallest of them. *)
Definition solver_protected_points (by_target : targets) : list (num * nat) :=
  let point_intervals : list (num * list nat) :=
    fold_left
      (fun d (entry : nat * list region_tuple) =>
         let '(color_to, regions) := entry in
         fold_left
           (fun d (r : region_tuple) =>
              let '(lower, upper, lower_closed, upper_closed) := r in
              if is_exact_point r then
                match Dict.get eqb d lower with
                | None => Dict.set eqb d lower [color_to]
                | Some colors => Dict.set eqb d lower (colors ++ [color_to])
                end
              else d)
           regions d)
      by_target [] in
  fold_left
    (fun d (entry : num * list nat) =>
       let '(point_value, target_colors) := entry in
       if Nat.ltb 1 (List.length target_colors)
       then Dict.set eqb d point_value (fold_right Nat.min (hd 0%nat target_colors) target_colors)
       else Dict.set eqb d point_value (hd 0%nat target_colors))
    point_intervals [].

(** The regions of one target colour after the exact points of other
    colours have been cut out, before neighbours are merged. *)
Definition solver_processed_regions (protected_points : list (num * nat))
           (color_to : nat) (regions : list region_tuple) : list region_tuple :=
  fold_left
    (fun processed (r : region_tuple) =>
       let '(lower, upper, lower_closed, upper_closed) := r in
       if is_exact_point r then
         match Dict.get eqb protected_points lower with
         | Some c => if Nat.eqb c color_to then processed ++ [r] else processed
         | None => processed
         end
       else
         let conflicts :=
           flat_map
             (fun pe : num * nat =>
                let '(point_value, point_color) := pe in
                if negb (Nat.eqb point_color color_to) && point_in point_value r
                then [point_value] else [])
             protected_points in
         if is_empty conflicts then processed ++ [r]
         else processed ++ split_region_around_points r conflicts)
    regions [].

(** The keys of a dictionary of points are pairwise different numbers. *)
Fixpoint points_distinct (d : list (num * nat)) : Prop :=
  match d with
  | [] => True
  | (k, _) :: rest => (forall k' v', In (k', v') rest -> eqb k k' = false) /\ points_distinct rest
  end.

(** A time value lies in one of the regions of a list. *)
Definition covered (t : Q) (regions : list region_tuple) : Prop :=
  exists r, In r regions /\ is_timestamp_in_region t r = true.

End OptimizerFacts.

(* ------------------------------------------------------------------ *)
(** ** Encoding.py: colour constraints *)

Module EncodingClauses.

Import Encoding.

Local Open Scope string_scope.

(** The name of the variable of [color_node]. *)
Definition color_node_name (node color : nat) : string :=
  "node_" ++ str_nat node ++ "_color_" ++ str_nat color.

(** [color_node]: the variable [node_<node>_color_<color>], created on
    first use. *)
Definition color_node (enc : Encoding) (node color : nat) : Encoding * formula :=
  let var_name := color_node_name node color in
  match Dict.get String.eqb (variables enc) var_name with
  | Some var => (enc, var)
  | None =>
      (mkEncoding (positive_samples enc) (n_colors enc)
                  (Dict.set String.eqb (variables enc) var_name (FVar var_name))
                  (solver enc) (hard_constraints enc) (soft_constraints enc)
                  (clauses enc),
       FVar var_name)
  end.

(** The first part of the loop body of [generate_onehot_color_clauses]:
    node 0 uses colour 0, any other node has at least one colour. *)
Definition at_least_one_color (enc : Encoding) (n : nat) : Encoding :=
  if Nat.eqb n 0 then
    let '(enc, constraint) := color_node enc 0 0 in
    add_hard_constraint enc constraint "Node 0 must use color 0"
  else
    let '(enc, node_color_vars) :=
      fold_left
        (fun (st : Encoding * list formula) (c : nat) =>
           let '(enc, node_color_vars) := st in
           let '(enc, var) := color_node enc n c in
           (enc, (node_color_vars ++ [var])%list))
        (seq 0 (n_colors enc)) (enc, []) in
    let constraint := FOr node_color_vars in
    add_hard_constraint enc constraint ("Node " ++ str_nat n ++ " has at least one color").

(** The second part: two colours of a node exclude each other. *)
Definition at_most_one_color (enc : Encoding) (n : nat) : Encoding :=
  fold_left
    (fun (enc : Encoding) (i : nat) =>
       fold_left
         (fun (enc : Encoding) (j : nat) =>
            let '(enc, var_i) := color_node enc n i in
            let '(enc, var_j) := color_node enc n j in
            let constraint := FNot (FAnd var_i var_j) in
            add_hard_constraint enc constraint
              ("Colors " ++ str_nat i ++ " and " ++ str_nat j ++ " of node "
               ++ str_nat n ++ " are mutually exclusive"))
         (seq (i + 1) (n_colors enc - (i + 1))) enc)
    (seq 0 (n_colors enc)) enc.

(** [generate_onehot_color_clauses]. The encoder reads [self.node_list] and
    [self.min3drta.registered_nodes], given here as [node_list] and
    [registered_nodes]. *)
Definition generate_onehot_color_clauses (node_list registered_nodes : list nat)
           (enc : Encoding) : Encoding :=
  fold_left
    (fun (enc : Encoding) (n : nat) =>
       let enc := at_least_one_color enc n in
       if negb (existsb (Nat.eqb n) registered_nodes)
       then at_most_one_color enc n
       else enc)
    node_list enc.

(** The two loops of [generate_accept_reject_clauses] over the colours of
    one node. *)
Definition accepting_node_clauses (enc : Encoding) (n : nat) : Encoding :=
  fold_left
    (fun (enc : Encoding) (c : nat) =>
       let '(enc, color_var) := color_node enc n c in
       let '(enc, accept_var) := color_accepting enc c in
       let constraint := FImplies color_var accept_var in
       add_hard_constraint enc constraint
         ("Color " ++ str_nat c ++ " of accepting node " ++ str_nat n
          ++ " must be an accepting color"))
    (seq 0 (n_colors enc)) enc.

Definition rejecting_node_clauses (enc : Encoding) (n : nat) : Encoding :=
  fold_left
    (fun (enc : Encoding) (c : nat) =>
       let '(enc, color_var) := color_node enc n c in
       let '(enc, accept_var) := color_accepting enc c in
       let constraint := FImplies color_var (FNot accept_var) in
       add_hard_constraint enc constraint
         ("Color " ++ str_nat c ++ " of rejecting node " ++ str_nat n
          ++ " cannot be an accepting color"))
    (seq 0 (n_colors enc)) enc.

(** [generate_accept_reject_clauses]. The encoder reads
    [self.min3drta.accepting] and [self.min3drta.rejecting], given here as
    [accepting] and [rejecting]. *)
Definition generate_accept_reject_clauses (accepting rejecting : list nat)
           (enc : Encoding) : Encoding :=
  let enc := fold_left accepting_node_clauses accepting enc in
  fold_left rejecting_node_clauses rejecting enc.

(** [enc'] keeps the number of colours and every assertion of [enc], and
    its variable table is well formed when that of [enc] is. *)
Definition grows (enc enc' : Encoding) : Prop :=
  n_colors enc' = n_colors enc
  /\ (forall f, In f (solver enc) -> In f (solver enc'))
  /\ (variables_wf enc -> variables_wf enc').

(** A model gives node [n] colour [c]. *)
Definition has_color (v : string -> bool) (n c : nat) : bool :=
  v (color_node_name n c).

End EncodingClauses.

(* ------------------------------------------------------------------ *)
(** ** test_encoding.py: the intersection of two regions *)

Module RegionOverlap.

Import Verifier.

(** [get_region_overlap] *)
Definition get_region_overlap (r1 r2 : region_tuple) : option region_tuple :=
  let '(lower1, upper1, lower1_closed, upper1_closed) := r1 in
  let '(lower2, upper2, lower2_closed, upper2_closed) := r2 in
  let lower := max lower1 lower2 in
  let upper := min upper1 upper2 in
  let lower_closed :=
    (if eqb lower lower1 then lower1_closed else false)
    && (if eqb lower lower2 then lower2_closed else false) in
  let upper_closed :=
    (if eqb upper upper1 then upper1_closed else false)
    && (if eqb upper upper2 then upper2_closed else false) in
  if ltb lower upper || (eqb lower upper && lower_closed && upper_closed)
  then Some (lower, upper, lower_closed, upper_closed)
  else None.

(** A time value strictly between the bounds of a region. *)
Definition strictly_inside (t : Q) (r : region_tuple) : bool :=
  let '(lower, upper, _, _) := r in
  ltb lower (Fin t) && ltb (Fin t) upper.

End RegionOverlap.

(* ------------------------------------------------------------------ *)
(** ** Encoding.py: the determinism constraints *)

Module EncodingDeterminism.

Import Encoding.

Local Open Scope string_scope.

(** [str] of a Python integer. *)
Definition str_Z (z : Z) : string :=
  if Z.ltb z 0 then "-" ++ str_nat (Z.abs_nat z) else str_nat (Z.abs_nat z).

(** [parts[2:-2]], [parts[-2]] and [parts[-1]] of a list with at least
    five parts. *)
Definition middle_parts (parts : list string) : list string :=
  firstn (List.length parts - 4) (skipn 2 parts).
Definition part_from_end (parts : list string) (k : nat) : string :=
  nth (List.length parts - k) parts "".

(** An entry [(region_str, color2, var)] of a group. *)
Definition transition_entry : Type := (string * Z * formula)%type.

Definition source_key_eqb (a b : Z * string) : bool :=
  Z.eqb (fst a) (fst b) && String.eqb (snd a) (snd b).

Section Deterministic.

(** The builtins [float] and [int] on a string; [None] is a [ValueError]. *)
Variable float : string -> option num.
Variable int : string -> option Z.

(** What the first loop reads off a variable name: the outer [None] is the
    [ValueError] of [int], the inner [None] a name that is skipped. *)
Definition parse_transition_name (var_name : string)
  : option (option (Z * string * string * Z)) :=
  if String.prefix "trans_" var_name then
    let parts := PyString.split var_name "_" in
    if Nat.leb 5 (List.length parts) then
      let symbol := nth 1 parts "" in
      let region_str := String.concat "_" (middle_parts parts) in
      color1 <- int (part_from_end parts 2) ;;
      color2 <- int (part_from_end parts 1) ;;
      Some (Some (color1, symbol, region_str, color2))
    else Some None
  else Some None.

(** The first loop of [_add_deterministic_constraints]:
    [transitions_by_source]. *)
Definition collect_transitions (variables : list (string * formula))
  : option (list ((Z * string) * list transition_entry)) :=
  fold_left
    (fun acc (item : string * formula) =>
       transitions_by_source <- acc ;;
       let '(var_name, var) := item in
       parsed <- parse_transition_name var_name ;;
       match parsed with
       | Some (color1, symbol, region_str, color2) =>
           let key := (color1, symbol) in
           let transitions_by_source :=
             match Dict.get source_key_eqb transitions_by_source key with
             | None => Dict.set source_key_eqb transitions_by_source key []
             | Some _ => transitions_by_source
             end in
           let group :=
             match Dict.get source_key_eqb transitions_by_source key with
             | Some group => group
             | None => []
             end in
           Some (Dict.set source_key_eqb transitions_by_source key
                          (group ++ [(region_str, color2, var)])%list)
       | None => Some transitions_by_source
       end)
    variables (Some []).

(** The test and the constraint for one pair [i < j] of a group. *)
Definition exclude_pair (color1 : Z) (symbol : string) (enc : Encoding)
           (entry_i entry_j : transition_entry) : Encoding :=
  let '(region1, color2_i, var_i) := entry_i in
  let '(region2, color2_j, var_j) := entry_j in
  if negb (Z.eqb color2_i color2_j)
     && EncodingRegions._regions_may_intersect float region1 region2
  then
    let constraint := FNot (FAnd var_i var_j) in
    add_hard_constraint enc constraint
      ("Deterministic constraint: transitions from color " ++ str_Z color1
       ++ " through symbol " ++ symbol ++ " to region " ++ region1 ++ "->color "
       ++ str_Z color2_i ++ " and " ++ region2 ++ "->color " ++ str_Z color2_j
       ++ " cannot coexist")
  else enc.

(** The loops over [i] and [j > i] of one group. *)
Fixpoint exclude_pairs (color1 : Z) (symbol : string) (transitions : list transition_entry)
         (enc : Encoding) : Encoding :=
  match transitions with
  | [] => enc
  | entry_i :: rest =>
      exclude_pairs color1 symbol rest
        (fold_left (fun enc entry_j => exclude_pair color1 symbol enc entry_i entry_j)
                   rest enc)
  end.

(** [_add_deterministic_constraints]; the method returns [True], and
    [None] stands for the [ValueError] of [int] in the first loop. *)
Definition _add_deterministic_constraints (enc : Encoding) : option Encoding :=
  transitions_by_source <- collect_transitions (variables enc) ;;
  Some (fold_left
          (fun enc (group : (Z * string) * list transition_entry) =>
             let '((color1, symbol), transitions) := group in
             exclude_pairs color1 symbol transitions enc)
          transitions_by_source enc).

(** The entries that the first loop puts in the group of [key], in the
    order of the variables. *)
Definition entries_for (key : Z * string) (variables : list (string * formula))
  : list transition_entry :=
  flat_map
    (fun item : string * formula =>
       match parse_transition_name (fst item) with
       | Some (Some (color1, symbol, region_str, color2)) =>
           if source_key_eqb (color1, symbol) key
           then [(region_str, color2, snd item)]
           else []
       | _ => []
       end)
    variables.

End Deterministic.

(** The builtin [int] on a text of decimal digits, where it is the number
    the digits denote; every other text is left out ([None]). *)
Definition int_of_digits (s : string) : option Z :=
  match s with
  | EmptyString => None
  | _ => EncodingRegions.digits_value s 0
  end.

End EncodingDeterminism.
(* ------------------------------------------------------------------ *)
(** * Properties *)

(** ** Comparisons of rationals *)

Lemma Qltb_lt x y : Qltb x y = true <-> x < y.
Proof.
  unfold Qltb. rewrite negb_true_iff.
  destruct (Qle_bool y x) eqn:E.
  - apply Qle_bool_iff in E. split; [discriminate | intro H; exfalso; lra].
  - split; [intros _ | reflexivity].
    destruct (Qlt_le_dec x y) as [H | H]; [exact H | ].
    apply Qle_bool_iff in H. congruence.
Qed.

Lemma Qltb_ge x y : Qltb x y = false <-> y <= x.
Proof.
  unfold Qltb. rewrite negb_false_iff. apply Qle_bool_iff.
Qed.

Lemma Qeqb_neq x y : Qeq_bool x y = false <-> ~ x == y.
Proof.
  split.
  - intros E H. apply Qeq_bool_iff in H. congruence.
  - intro H. destruct (Qeq_bool x y) eqn:E; [ | reflexivity].
    apply Qeq_bool_iff in E. contradiction.
Qed.

(** ** [int] and rounding *)

Lemma int_nonneg_floor x : 0 <= x -> int x = Qfloor x.
Proof.
  destruct x as [n d]. unfold Qle, int, Qfloor. simpl. intro H.
  apply Z.quot_div_nonneg; lia.
Qed.

Lemma int_neg_ceiling x : x <= 0 -> int x = Qceiling x.
Proof.
  destruct x as [n d]. unfold Qle, int, Qceiling, Qfloor. simpl. intro H.
  rewrite <- (Z.opp_involutive n) at 1.
  rewrite Z.quot_opp_l by lia.
  f_equal. apply Z.quot_div_nonneg; lia.
Qed.

(** The rounding up that [BuildTimedAPTA] writes with [int] is the ceiling. *)
Lemma int_round_up_ceiling tau :
  (int tau + (if Qltb (inject_Z (int tau)) tau then 1 else 0))%Z = Qceiling tau.
Proof.
  destruct (Qlt_le_dec tau 0) as [Hneg | Hpos].
  - rewrite int_neg_ceiling by lra.
    assert (H : Qltb (inject_Z (Qceiling tau)) tau = false).
    { apply Qltb_ge. apply Qle_ceiling. }
    rewrite H. lia.
  - rewrite int_nonneg_floor by assumption.
    pose proof (Qfloor_le tau) as Hfl.
    pose proof (Qlt_floor tau) as Hfl1.
    pose proof (Qle_ceiling tau) as Hce.
    pose proof (Qceiling_lt tau) as Hce1.
    destruct (Qltb (inject_Z (Qfloor tau)) tau) eqn:E.
    + apply Qltb_lt in E.
      assert (inject_Z (Qfloor tau) < inject_Z (Qceiling tau)) as H1 by lra.
      assert (inject_Z (Qceiling tau - 1) < inject_Z (Qfloor tau + 1)) as H2 by lra.
      rewrite <- Zlt_Qlt in H1, H2. lia.
    + apply Qltb_ge in E.
      assert (inject_Z (Qceiling tau - 1) < inject_Z (Qfloor tau)) as H1 by lra.
      assert (inject_Z (Qfloor tau) <= inject_Z (Qceiling tau)) as H2 by lra.
      rewrite <- Zlt_Qlt in H1. rewrite <- Zle_Qle in H2. lia.
Qed.

(** ** The region alphabet of [BuildTimedAPTA] *)

Section RegionAlphabet.

Import Statements.

Lemma kappa_step_ceiling kappa tau :
  kappa_step kappa tau = Z.max kappa (Qceiling tau).
Proof. unfold kappa_step. now rewrite int_round_up_ceiling. Qed.

Lemma kappa_over_timestamps S k :
  fold_left (fun kappa omega =>
               fold_left (fun kappa (e : event) => kappa_step kappa (snd e)) omega kappa)
            S k
  = fold_left kappa_step (timestamps S) k.
Proof.
  unfold timestamps. revert k.
  induction S as [ | omega S IH]; intro k; simpl; [reflexivity | ].
  rewrite IH, map_app, fold_left_app. f_equal.
  clear. revert k. induction omega as [ | e omega IH]; intro k; simpl; auto.
Qed.

Lemma fold_kappa_bounds ts : forall k,
  let r := fold_left kappa_step ts k in
  (k <= r)%Z
  /\ (forall t, In t ts -> (Qceiling t <= r)%Z)
  /\ (r = k \/ exists t, In t ts /\ r = Qceiling t).
Proof.
  induction ts as [ | t ts IH]; intro k; simpl.
  - repeat split; [lia | tauto | now left].
  - specialize (IH (kappa_step k t)). simpl in IH.
    destruct IH as (Hge & Hall & Hsrc).
    rewrite kappa_step_ceiling in *.
    repeat split.
    + lia.
    + intros t' [<- | Hin]; [lia | auto].
    + destruct Hsrc as [Hsrc | (t' & Hin & Heq)].
      * destruct (Z.max_spec k (Qceiling t)) as [[_ Hm] | [_ Hm]].
        -- right. exists t. split; [now left | congruence].
        -- left. congruence.
      * right. exists t'. split; [now right | exact Heq].
Qed.

Lemma greatest_timestamp (ts : list Q) :
  ts <> [] -> exists m, In m ts /\ forall t, In t ts -> t <= m.
Proof.
  induction ts as [ | a ts IH]; [congruence | intros _].
  destruct ts as [ | b ts'].
  - exists a. split; [now left | ]. intros t [<- | []]. lra.
  - destruct IH as (m & Hin & Hmax); [discriminate | ].
    destruct (Qlt_le_dec m a) as [Hlt | Hle].
    + exists a. split; [now left | ].
      intros t [<- | Ht]; [lra | ]. specialize (Hmax t Ht). lra.
    + exists m. split; [now right | ].
      intros t [<- | Ht]; [exact Hle | auto].
Qed.

Lemma unit_regions_length len : forall start,
  List.length (flat_map (fun i : nat => [open_region i; point_region (i + 1)])
                        (seq start len)) = (2 * len)%nat.
Proof.
  induction len as [ | len IH]; intro start; simpl; [reflexivity | ].
  rewrite IH. lia.
Qed.

Lemma unit_regions_nth len : forall start j,
  (j < len)%nat ->
  nth_error (flat_map (fun i : nat => [open_region i; point_region (i + 1)])
                      (seq start len)) (2 * j) = Some (open_region (start + j))
  /\ nth_error (flat_map (fun i : nat => [open_region i; point_region (i + 1)])
                         (seq start len)) (2 * j + 1)
     = Some (point_region (start + j + 1)).
Proof.
  induction len as [ | len IH]; intros start j Hj; [lia | ].
  destruct j as [ | j].
  - simpl. rewrite !Nat.add_0_r. split; reflexivity.
  - replace (2 * S j)%nat with (S (S (2 * j))) by lia.
    simpl seq. simpl flat_map. simpl nth_error.
    destruct (IH (S start) j) as [H1 H2]; [lia | ].
    replace (start + S j)%nat with (S start + j)%nat by lia.
    split; [exact H1 | exact H2].
Qed.


(** C7. [BuildTimedAPTA] takes for kappa the ceiling of the greatest
    timestamp of the positive and negative samples together, and lists the
    2*kappa+2 regions [0,0], (0,1), [1,1], ..., [kappa,kappa], (kappa,inf)
    in this order: the point [i,i] at index 2i, the open interval (i,i+1)
    at index 2i+1, and (kappa,inf) last. *)
Theorem BuildTimedAPTA_region_alphabet (S_positive S_negative : list trace) :
  let S_all := S_positive ++ S_negative in
  let kappa := BuildTimedAPTA_kappa S_positive S_negative in
  let Regions := BuildTimedAPTA_Regions kappa in
  let n := Z.to_nat kappa in
  timestamps S_all <> [] ->
  (forall t, In t (timestamps S_all) -> 0 <= t) ->
  (exists tmax, In tmax (timestamps S_all)
                /\ (forall t, In t (timestamps S_all) -> t <= tmax)
                /\ kappa = Qceiling tmax)
  /\ Z.of_nat n = kappa
  /\ List.length Regions = (2 * n + 2)%nat
  /\ (forall i, (i <= n)%nat -> nth_error Regions (2 * i) = Some (point_region i))
  /\ (forall i, (i < n)%nat -> nth_error Regions (2 * i + 1) = Some (open_region i))
  /\ nth_error Regions (2 * n + 1) = Some (mkRegion (of_nat n) PInf false false).
Proof.
  intros S_all kappa Regions n Hne Hnonneg.
  assert (Hk : kappa = fold_left kappa_step (timestamps S_all) 0%Z).
  { unfold kappa, BuildTimedAPTA_kappa. apply kappa_over_timestamps. }
  destruct (fold_kappa_bounds (timestamps S_all) 0%Z) as (Hge & Hall & Hsrc).
  simpl in Hge, Hall, Hsrc. rewrite <- Hk in Hge, Hall, Hsrc.
  assert (Hn : Z.of_nat n = kappa) by (unfold n; lia).
  split; [ | split; [exact Hn | ] ].
  - destruct (greatest_timestamp _ Hne) as (tmax & Hin & Hmax).
    exists tmax. repeat split; [exact Hin | exact Hmax | ].
    apply Z.le_antisymm; [ | apply Hall, Hin].
    destruct Hsrc as [H0 | (t & Ht & Heq)].
    + rewrite H0. rewrite <- (Qceiling_Z 0). apply Qceiling_resp_le.
      apply Hnonneg, Hin.
    + rewrite Heq. apply Qceiling_resp_le, Hmax, Ht.
  - unfold Regions, BuildTimedAPTA_Regions. fold n.
    change (fun i : nat =>
              [mkRegion (of_nat i) (of_nat (i + 1)) false false;
               mkRegion (of_nat (i + 1)) (of_nat (i + 1)) true true])
      with (fun i : nat => [open_region i; point_region (i + 1)]).
    set (units := flat_map (fun i : nat => [open_region i; point_region (i + 1)])
                           (seq 0 n)).
    assert (Hlen : List.length units = (2 * n)%nat) by apply unit_regions_length.
    assert (Hcons : forall k x (l : list Region),
               nth_error (x :: l) (Datatypes.S k) = nth_error l k) by reflexivity.
    change ([mkRegion (of_Z 0) (of_Z 0) true true]
            ++ units ++ [mkRegion (of_Z kappa) PInf false false])
      with (point_region 0 :: units ++ [mkRegion (of_Z kappa) PInf false false]).
    repeat split.
    + cbn [List.length]. rewrite length_app, Hlen. cbn [List.length]. lia.
    + intros i Hi. destruct i as [ | i]; [reflexivity | ].
      replace (2 * Datatypes.S i)%nat with (Datatypes.S (2 * i + 1))%nat by lia.
      rewrite Hcons, nth_error_app1 by lia.
      destruct (unit_regions_nth n 0 i) as [_ H2]; [lia | ].
      fold units in H2. rewrite H2.
      replace (0 + i + 1)%nat with (Datatypes.S i) by lia. reflexivity.
    + intros i Hi.
      replace (2 * i + 1)%nat with (Datatypes.S (2 * i))%nat by lia.
      rewrite Hcons, nth_error_app1 by lia.
      destruct (unit_regions_nth n 0 i) as [H1 _]; [lia | ].
      fold units in H1. rewrite H1. reflexivity.
    + replace (2 * n + 1)%nat with (Datatypes.S (List.length units + 0))%nat by lia.
      rewrite Hcons, nth_error_app2 by lia.
      replace (List.length units + 0 - List.length units)%nat with 0%nat by lia.
      cbn [nth_error]. unfold of_nat. rewrite Hn. reflexivity.
Qed.

Lemma BuildTimedAPTA_region_alphabet_witness :
  Statements.timestamps ([[("a"%string, 3 # 2)]] ++ [[("b"%string, 1 # 1)]]) <> []
  /\ (forall t, In t (Statements.timestamps ([[("a"%string, 3 # 2)]] ++ [[("b"%string, 1 # 1)]]))
                -> 0 <= t)
  /\ List.length (BuildTimedAPTA_Regions
                    (BuildTimedAPTA_kappa [[("a"%string, 3 # 2)]] [[("b"%string, 1 # 1)]]))
     = (2 * Z.to_nat (BuildTimedAPTA_kappa [[("a"%string, 3 # 2)]] [[("b"%string, 1 # 1)]]) + 2)%nat.
Proof.
  assert (H1 : Statements.timestamps ([[("a"%string, 3 # 2)]] ++ [[("b"%string, 1 # 1)]]) <> [])
    by discriminate.
  assert (H2 : forall t,
             In t (Statements.timestamps ([[("a"%string, 3 # 2)]] ++ [[("b"%string, 1 # 1)]]))
             -> 0 <= t).
  { simpl. intros t [<- | [<- | []]]; discriminate. }
  split; [exact H1 | split; [exact H2 | ] ].
  exact (proj1 (proj2 (proj2
           (BuildTimedAPTA_region_alphabet [[("a"%string, 3 # 2)]] [[("b"%string, 1 # 1)]] H1 H2)))).
Defined.

End RegionAlphabet.

(** ** Dictionaries *)

Section DictFacts.

Context {K V : Type}.
Variable keq : K -> K -> bool.

Lemma dict_get_set_same (d : list (K * V)) k v :
  keq k k = true -> Dict.get keq (Dict.set keq d k v) k = Some v.
Proof.
  intro Hrefl. induction d as [ | [k' v'] d IH]; simpl.
  - now rewrite Hrefl.
  - destruct (keq k' k) eqn:E; simpl; rewrite E; [reflexivity | exact IH].
Qed.

Hypothesis keq_sym : forall a b, keq a b = keq b a.
Hypothesis keq_trans : forall a b c, keq a b = true -> keq b c = true -> keq a c = true.

Lemma dict_get_set_other (d : list (K * V)) k k0 v :
  keq k k0 = false -> Dict.get keq (Dict.set keq d k v) k0 = Dict.get keq d k0.
Proof.
  intro Hne. induction d as [ | [k' v'] d IH]; simpl.
  - now rewrite Hne.
  - destruct (keq k' k) eqn:E; simpl.
    + destruct (keq k' k0) eqn:E0; [ | reflexivity].
      rewrite keq_sym in E. rewrite (keq_trans _ _ _ E E0) in Hne. discriminate.
    + destruct (keq k' k0); [reflexivity | exact IH].
Qed.

End DictFacts.

(** ** Keys of transition dictionaries *)

Lemma num_eqb_sym a b : eqb a b = eqb b a.
Proof.
  destruct a, b; simpl; try reflexivity.
  destruct (Qeq_bool q q0) eqn:E, (Qeq_bool q0 q) eqn:E'; try reflexivity.
  - apply Qeq_bool_iff in E. apply Qeqb_neq in E'. exfalso. apply E'. lra.
  - apply Qeq_bool_iff in E'. apply Qeqb_neq in E. exfalso. apply E. lra.
Qed.

Lemma num_eqb_trans a b c : eqb a b = true -> eqb b c = true -> eqb a c = true.
Proof.
  destruct a, b, c; simpl; try discriminate; try reflexivity.
  intros H1 H2. apply Qeq_bool_iff in H1, H2. apply Qeq_bool_iff. lra.
Qed.

Lemma num_eqb_refl a : Statements.not_nan a = true -> eqb a a = true.
Proof.
  destruct a; simpl; try reflexivity; try discriminate.
  intros _. apply Qeq_bool_iff. reflexivity.
Qed.



Lemma Region_eqb_refl r : Statements.region_not_nan r = true -> Region_eqb r r = true.
Proof.
  unfold Statements.region_not_nan, Region_eqb. rewrite andb_true_iff. intros [H1 H2].
  rewrite (num_eqb_refl _ H1), (num_eqb_refl _ H2), !Bool.eqb_reflx. reflexivity.
Qed.




(** ** The time-to-region mapping of [add_suffix] *)

Section SuffixRegion.

Import Min3RTA.







End SuffixRegion.

(** ** Region merging *)

(** C8, at the failing input. The regions (0,1) and (1,2) touch at 1 and
    both exclude it, yet [_merge_regions] accepts them and returns (0,2):
    the merged region contains 1, which neither region contains. *)
Theorem merge_regions_open_touching :
  let R1 := mkRegion (of_Z 0) (of_Z 1) false false in
  let R2 := mkRegion (of_Z 1) (of_Z 2) false false in
  _are_regions_adjacent_or_overlapping R1 R2 = true
  /\ _merge_regions R1 R2 = Some (mkRegion (of_Z 0) (of_Z 2) false false)
  /\ contains (mkRegion (of_Z 0) (of_Z 2) false false) 1 = true
  /\ contains R1 1 = false
  /\ contains R2 1 = false.
Proof. cbv zeta. repeat split; vm_compute; reflexivity. Qed.

(** ** What a merged region contains *)

Ltac bool_to_Q :=
  repeat match goal with
    | H : Qltb _ _ = true |- _ => apply Qltb_lt in H
    | H : Qltb _ _ = false |- _ => apply Qltb_ge in H
    | H : Qeq_bool _ _ = true |- _ => apply Qeq_bool_iff in H
    | H : Qeq_bool _ _ = false |- _ => apply Qeqb_neq in H
    end.

Ltac split_Q_tests :=
  repeat match goal with
    | |- context [Qltb ?a ?b] => destruct (Qltb a b) eqn:?; simpl
    | |- context [Qeq_bool ?a ?b] => destruct (Qeq_bool a b) eqn:?; simpl
    end.

Lemma merged_lower_bound_left l1 l2 (c1 c2 : bool) t :
  (if c1 then geb (Fin t) l1 else gtb (Fin t) l1) = true ->
  (if (eqb l1 (min l1 l2) && c1) || (eqb l2 (min l1 l2) && c2)
   then geb (Fin t) (min l1 l2) else gtb (Fin t) (min l1 l2)) = true.
Proof.
  unfold min, geb, gtb, leb.
  destruct l1 as [a | | | ], l2 as [b | | | ], c1, c2; simpl; try discriminate;
    try reflexivity; intro H.
  all: revert H; split_Q_tests; try reflexivity; try discriminate;
    intro H; try discriminate H; bool_to_Q;
    try (apply orb_true_iff in H; destruct H as [H | H]; bool_to_Q);
    exfalso; lra.
Qed.

Lemma merged_lower_bound_right l1 l2 (c1 c2 : bool) t :
  Statements.not_nan l1 = true ->
  (if c2 then geb (Fin t) l2 else gtb (Fin t) l2) = true ->
  (if (eqb l1 (min l1 l2) && c1) || (eqb l2 (min l1 l2) && c2)
   then geb (Fin t) (min l1 l2) else gtb (Fin t) (min l1 l2)) = true.
Proof.
  unfold min, geb, gtb, leb.
  destruct l1 as [a | | | ], l2 as [b | | | ], c1, c2; simpl; try discriminate;
    try reflexivity; intro H.
  all: revert H; split_Q_tests; try reflexivity; try discriminate;
    intro H; try discriminate H; bool_to_Q;
    try (apply orb_true_iff in H; destruct H as [H | H]; bool_to_Q);
    exfalso; lra.
Qed.

Lemma merged_upper_bound_left u1 u2 (c1 c2 : bool) t :
  (if c1 then leb (Fin t) u1 else ltb (Fin t) u1) = true ->
  (if (eqb u1 (max u1 u2) && c1) || (eqb u2 (max u1 u2) && c2)
   then leb (Fin t) (max u1 u2) else ltb (Fin t) (max u1 u2)) = true.
Proof.
  unfold max, geb, gtb, leb.
  destruct u1 as [a | | | ], u2 as [b | | | ], c1, c2; simpl; try discriminate;
    try reflexivity; intro H.
  all: revert H; split_Q_tests; try reflexivity; try discriminate;
    intro H; try discriminate H; bool_to_Q;
    try (apply orb_true_iff in H; destruct H as [H | H]; bool_to_Q);
    exfalso; lra.
Qed.

Lemma merged_upper_bound_right u1 u2 (c1 c2 : bool) t :
  Statements.not_nan u1 = true ->
  (if c2 then leb (Fin t) u2 else ltb (Fin t) u2) = true ->
  (if (eqb u1 (max u1 u2) && c1) || (eqb u2 (max u1 u2) && c2)
   then leb (Fin t) (max u1 u2) else ltb (Fin t) (max u1 u2)) = true.
Proof.
  unfold max, geb, gtb, leb.
  destruct u1 as [a | | | ], u2 as [b | | | ], c1, c2; simpl; try discriminate;
    try reflexivity; intro H.
  all: revert H; split_Q_tests; try reflexivity; try discriminate;
    intro H; try discriminate H; bool_to_Q;
    try (apply orb_true_iff in H; destruct H as [H | H]; bool_to_Q);
    exfalso; lra.
Qed.

(** Whenever [_merge_regions] returns a region, it contains every value
    that one of the two regions contains (the bounds of the first region
    being numbers). *)
Lemma merge_regions_contains_either region1 region2 merged t :
  Statements.region_not_nan region1 = true ->
  _merge_regions region1 region2 = Some merged ->
  contains region1 t = true \/ contains region2 t = true ->
  contains merged t = true.
Proof.
  unfold Statements.region_not_nan. rewrite andb_true_iff. intros [Hn1 Hn2].
  unfold _merge_regions.
  destruct (negb (_are_regions_adjacent_or_overlapping region1 region2));
    [discriminate | ].
  intros [= <-]. unfold contains. cbn [lower upper lower_inclusive upper_inclusive].
  rewrite !andb_true_iff. intros [[Hl Hu] | [Hl Hu] ]; split.
  - now apply merged_lower_bound_left.
  - now apply merged_upper_bound_left.
  - now apply merged_lower_bound_right.
  - now apply merged_upper_bound_right.
Qed.

(** ** The node store *)

Section Store.

Import Min3RTA Statements.

Lemma nat_dict_get_set_same {V : Type} (d : list (nat * V)) k v :
  Dict.get Nat.eqb (Dict.set Nat.eqb d k v) k = Some v.
Proof. apply dict_get_set_same, Nat.eqb_refl. Qed.

Lemma nat_dict_get_set_other {V : Type} (d : list (nat * V)) k k0 v :
  k <> k0 -> Dict.get Nat.eqb (Dict.set Nat.eqb d k v) k0 = Dict.get Nat.eqb d k0.
Proof.
  intro H. apply dict_get_set_other.
  - intros a b. apply Nat.eqb_sym.
  - intros a b c Hab Hbc. apply Nat.eqb_eq in Hab, Hbc. apply Nat.eqb_eq. congruence.
  - now apply Nat.eqb_neq.
Qed.







End Store.

(** ** Transition merging on a register hit *)

Section MergeNodeTransitions.

Import Min3RTA Statements.

Lemma dict_set_entries {K V : Type} (keq : K -> K -> bool) (d : list (K * V)) k v k1 v1 :
  In (k1, v1) (Dict.set keq d k v) ->
  In (k1, v1) d \/ (v1 = v /\ (k1 = k \/ exists v0, In (k1, v0) d)).
Proof.
  induction d as [ | [k' v'] d IH]; simpl.
  - intros [H | []]. right. split; [congruence | left; congruence].
  - destruct (keq k' k).
    + intros [H | H].
      * right. split; [congruence | ]. right. exists v'. left. congruence.
      * left. now right.
    + intros [H | H].
      * left. now left.
      * destruct (IH H) as [Hin | (-> & [-> | (v0 & Hin)])].
        -- left. now right.
        -- right. split; [reflexivity | now left].
        -- right. split; [reflexivity | ]. right. exists v0. now right.
Qed.






End MergeNodeTransitions.

Section MergeNodeTransitionsClaim.

Import Min3RTA Statements.





End MergeNodeTransitionsClaim.

(** ** Replace-or-register *)

Section ReplaceOrRegister.

Import Min3RTA Statements.

(** [_merge_node_transitions] has no [return True]: whatever it returns is
    falsy, so the caller's test [if not merge_success] always succeeds. *)
Lemma merge_node_transitions_never_truthy rta source_id target_id rta' result :
  _merge_node_transitions rta source_id target_id = Some (rta', result) ->
  truthy result = false.
Proof.
  unfold _merge_node_transitions.
  destruct (get_node rta source_id) as [source_node | ]; [ | discriminate].
  destruct (get_node rta target_id) as [target_node | ]; [ | discriminate].
  simpl.
  destruct (negb (Bool.eqb (is_accepting source_node) (is_accepting target_node))
            || negb (Bool.eqb (is_rejecting source_node) (is_rejecting target_node))).
  - intros [= <- <-]. reflexivity.
  - destruct (merge_loop rta (transitions source_node) target_id); [ | discriminate].
    simpl. intros [= <- <-]. reflexivity.
Qed.

(** C3, at the failing input. After the samples [('a',1)] and [('b',1)]
    (both positive) the root has the accepting leaves 1 and 2 and leaf 1 is
    registered. [replace_or_register] on the root finds leaf 1 equivalent
    to the last child 2, and the two have the same labels; it still rolls
    the registration back: the register has no entry for node 2 afterwards
    and the root's transitions lead to node 2, not to the canonical node. *)
Theorem replace_or_register_reverts_equal_labels :
  exists rta child canonical rta',
    Inputs.two_leaves = Some rta
    /\ option_map last_child (get_node rta 0%nat) = Some (Some 2%nat)
    /\ get_node rta 2%nat = Some child
    /\ get_node rta 1%nat = Some canonical
    /\ find_registered rta child (map fst (register rta)) = Some (Some 1%nat)
    /\ is_accepting child = is_accepting canonical
    /\ is_rejecting child = is_rejecting canonical
    /\ replace_or_register rta 0%nat = Some rta'
    /\ register rta' = [(1%nat, 1%nat)]
    /\ Dict.get Nat.eqb (register rta') 2%nat = None
    /\ option_map (fun n => (map snd (transitions n), children n)) (get_node rta' 0%nat)
       = Some ([2%nat; 2%nat], [2%nat; 1%nat]).
Proof.
  destruct Inputs.two_leaves as [rta | ] eqn:E; [ | vm_compute in E; discriminate].
  vm_compute in E. injection E as <-.
  do 4 eexists.
  split; [reflexivity | ].
  split; [reflexivity | ].
  split; [reflexivity | ].
  split; [reflexivity | ].
  split; [vm_compute; reflexivity | ].
  split; [reflexivity | ].
  split; [reflexivity | ].
  split; [vm_compute; reflexivity | ].
  repeat split.
Qed.

End ReplaceOrRegister.

(** ** Accept/reject conflict resolution *)

Section ConflictResolution.

Import Min3RTA Convert Statements.

Local Open Scope string_scope.


Lemma node_in_In x l : node_in x l = true <-> In x l.
Proof.
  unfold node_in. rewrite existsb_exists. split.
  - intros (y & Hy & E). apply Nat.eqb_eq in E. now subst.
  - intro H. exists x. split; [exact H | apply Nat.eqb_refl].
Qed.

Lemma In_discard q c s : In q (discard c s) <-> In q s /\ q <> c.
Proof.
  unfold discard. rewrite filter_In, negb_true_iff, Nat.eqb_neq. tauto.
Qed.

(** The effect of the resolution loop on one node [q]. *)
Lemma resolution_loop_marks rta positive_samples negative_samples q conflicts :
  forall labels,
    let labels' :=
      fold_left
        (fun (acc : list nat * list nat) (conflict_node : nat) =>
           let resolution :=
             resolution_of rta positive_samples negative_samples conflict_node in
           if String.eqb resolution "accepting"
           then (fst acc, discard conflict_node (snd acc))
           else (discard conflict_node (fst acc), snd acc))
        conflicts labels in
    (In q (fst labels') <->
     In q (fst labels)
     /\ (~ In q conflicts
         \/ resolution_of rta positive_samples negative_samples q = "accepting"))
    /\ (In q (snd labels') <->
        In q (snd labels)
        /\ (~ In q conflicts
            \/ resolution_of rta positive_samples negative_samples q <> "accepting")).
Proof.
  induction conflicts as [ | c conflicts IH]; intros [acc rej]; simpl.
  - tauto.
  - destruct (String.eqb (resolution_of rta positive_samples negative_samples c)
                         "accepting") eqn:E.
    + apply String.eqb_eq in E.
      specialize (IH (acc, discard c rej)). simpl in IH.
      destruct IH as [IH1 IH2]. rewrite IH1, IH2, In_discard.
      destruct (Nat.eq_dec c q) as [-> | Hne]; intuition congruence.
    + apply String.eqb_neq in E.
      specialize (IH (discard c acc, rej)). simpl in IH.
      destruct IH as [IH1 IH2]. rewrite IH1, IH2, In_discard.
      destruct (Nat.eq_dec c q) as [-> | Hne]; intuition congruence.
Qed.

Lemma resolve_conflicts_marks rta positive_samples negative_samples q labels :
  let labels' := resolve_conflicts rta positive_samples negative_samples labels in
  (In q (fst labels') <->
   In q (fst labels)
   /\ (~ In q (snd labels)
       \/ resolution_of rta positive_samples negative_samples q = "accepting"))
  /\ (In q (snd labels') <->
      In q (snd labels)
      /\ (~ In q (fst labels)
          \/ resolution_of rta positive_samples negative_samples q <> "accepting")).
Proof.
  unfold resolve_conflicts.
  destruct (resolution_loop_marks rta positive_samples negative_samples q
              (filter (fun n => node_in n (snd labels)) (fst labels)) labels) as [H1 H2].
  cbv zeta. rewrite H1, H2, filter_In, node_in_In. tauto.
Qed.




End ConflictResolution.

(** ** The colour-zero constraint of the encoder *)

Section ColourZero.

Import Encoding.

Lemma string_dict_get_key {V : Type} (d : list (string * V)) k v :
  Dict.get String.eqb d k = Some v -> In (k, v) d.
Proof.
  induction d as [ | [k' v'] d IH]; simpl; [discriminate | ].
  destruct (String.eqb k' k) eqn:E.
  - apply String.eqb_eq in E. intros [= ->]. left. congruence.
  - intro H. right. auto.
Qed.

Lemma color_accepting_variable enc color :
  variables_wf enc ->
  snd (color_accepting enc color) = FVar ("accepting_" ++ str_nat color)%string
  /\ solver (fst (color_accepting enc color)) = solver enc
  /\ hard_constraints (fst (color_accepting enc color)) = hard_constraints enc.
Proof.
  intro Hwf. unfold color_accepting.
  destruct (Dict.get String.eqb (variables enc) ("accepting_" ++ str_nat color)%string)
    as [var | ] eqn:E; simpl.
  - apply string_dict_get_key in E. apply Hwf in E. auto.
  - auto.
Qed.

(** C6. When the positive samples given to the encoder are a non-empty
    list, [generate_color_zero_accepting_constraint] asserts the variable
    [accepting_0] as a hard constraint, so every model of the solver's
    assertions, whatever is asserted later, makes colour 0 accepting. When
    there are no positive samples the encoder is left as it is. *)
Theorem color_zero_accepting_constraint (enc : Encoding.Encoding) :
  variables_wf enc ->
  let enc' := generate_color_zero_accepting_constraint enc in
  (forall samples,
      positive_samples enc = Some samples -> samples <> [] ->
      solver enc' = solver enc ++ [FVar "accepting_0"]
      /\ hard_constraints enc'
         = hard_constraints enc
           ++ [(FVar "accepting_0",
                "Color 0 must be accepting state when positive samples exist"%string)]
      /\ (forall later v, is_model v (solver enc' ++ later) -> v "accepting_0"%string = true))
  /\ (positive_samples enc = None \/ positive_samples enc = Some [] -> enc' = enc).
Proof.
  intros Hwf enc'. split.
  - intros samples Hsamples Hne.
    assert (Hsolver : solver enc' = solver enc ++ [FVar "accepting_0"]
                      /\ hard_constraints enc'
                         = hard_constraints enc
                           ++ [(FVar "accepting_0",
                                "Color 0 must be accepting state when positive samples exist"%string)]).
    { unfold enc', generate_color_zero_accepting_constraint. rewrite Hsamples.
      destruct samples as [ | s samples]; [congruence | ]. cbn [List.length Nat.ltb Nat.leb].
      destruct (color_accepting_variable enc 0 Hwf) as (Hvar & Hsol & Hhard).
      destruct (color_accepting enc 0) as [enc1 var]. simpl in Hvar, Hsol, Hhard.
      subst var. simpl. rewrite Hsol, Hhard. split; reflexivity. }
    destruct Hsolver as [Hsol Hhard].
    split; [exact Hsol | split; [exact Hhard | ] ].
    intros later v Hmodel.
    apply (Hmodel (FVar "accepting_0")).
    rewrite Hsol. apply in_or_app. left. apply in_or_app. right. now left.
  - unfold enc', generate_color_zero_accepting_constraint.
    intros [-> | ->]; reflexivity.
Qed.

Lemma color_zero_accepting_constraint_witness :
  variables_wf (mkEncoding (Some [[("a"%string, 1 # 1)]]) 2 [] [] [] [] [])
  /\ solver (generate_color_zero_accepting_constraint
               (mkEncoding (Some [[("a"%string, 1 # 1)]]) 2 [] [] [] [] []))
     = [FVar "accepting_0"].
Proof.
  assert (H : variables_wf (mkEncoding (Some [[("a"%string, 1 # 1)]]) 2 [] [] [] [] [])).
  { intros name var []. }
  split; [exact H | ].
  apply (proj1 (color_zero_accepting_constraint _ H) [[("a"%string, 1 # 1)]] eq_refl).
  discriminate.
Defined.

End ColourZero.

(** ** The verifier *)

Section VerifierRuns.

Import Verifier.

Lemma color_in_In c colors : color_in c colors = true <-> In c colors.
Proof.
  unfold color_in. rewrite existsb_exists. split.
  - intros (y & Hy & E). apply Nat.eqb_eq in E. now subst.
  - intro H. exists c. split; [exact H | apply Nat.eqb_refl].
Qed.

(** C9. On the empty timed word, [accepts] returns whether the root of the
    DRTA is an accepting state, and [simulate_drta_execution] reports
    accepted exactly when colour 0 is an accepting colour. *)
Theorem empty_word_acceptance
        (drta : DRTA.DRTA) (optimized_transitions : optimized)
        (accepting_colors : list nat) (alphabet : list (string * nat)) :
  (exists b, DRTA.accepts drta [] = Some b
             /\ (b = true <->
                 exists r, DRTA.root drta = Some r /\ In r (DRTA.accepting_states drta)))
  /\ (accepted (simulate_drta_execution [] optimized_transitions accepting_colors alphabet)
      = true <-> In 0%nat accepting_colors)
  /\ path (simulate_drta_execution [] optimized_transitions accepting_colors alphabet)
     = [0%nat].
Proof.
  split; [ | split; [ | reflexivity] ].
  - exists (DRTA.in_states (DRTA.root drta) (DRTA.accepting_states drta)).
    split; [reflexivity | ].
    unfold DRTA.in_states. destruct (DRTA.root drta) as [r | ].
    + rewrite existsb_exists. split.
      * intros (y & Hy & E). apply Nat.eqb_eq in E. subst y. now exists r.
      * intros (r' & [= <-] & Hin). exists r. split; [exact Hin | apply Nat.eqb_refl].
    + split; [discriminate | intros (r & H & _); discriminate].
  - simpl. apply color_in_In.
Qed.

Lemma simulate_loop_prefix optimized_transitions accepting_colors ids rest pre :
  forall event_idx current_state path' reached path'',
    run_prefix optimized_transitions ids pre current_state path' = Some (reached, path'') ->
    simulate_loop optimized_transitions accepting_colors ids (pre ++ rest)
                  event_idx current_state path'
    = simulate_loop optimized_transitions accepting_colors ids rest
                    (event_idx + List.length pre) reached path''.
Proof.
  induction pre as [ | [symbol timestamp] pre IH];
    intros event_idx current_state path' reached path'' Hrun; simpl in *.
  - injection Hrun as <- <-. now rewrite Nat.add_0_r.
  - destruct (Dict.get String.eqb ids symbol) as [symbol_id | ]; [ | discriminate].
    simpl in Hrun.
    destruct (possible_transitions optimized_transitions current_state symbol_id timestamp)
      as [ | target [ | other others] ]; try discriminate.
    simpl. rewrite (IH _ _ _ _ _ Hrun). f_equal. lia.
Qed.

(** C10. When the run of [simulate_drta_execution] has consumed a prefix of
    the sample and more than one optimised transition is enabled for the
    next event, the function returns a result (it raises nothing): the
    trace is rejected and the result holds the path of the prefix. *)
Theorem determinism_violation_rejects
        (optimized_transitions : optimized) (accepting_colors : list nat)
        (alphabet : list (string * nat)) (pre rest : trace)
        (symbol symbol_id : string) (timestamp : Q)
        (current_state : nat) (path' : list nat) :
  run_prefix optimized_transitions (symbol_to_id alphabet) pre 0 [0%nat]
  = Some (current_state, path') ->
  Dict.get String.eqb (symbol_to_id alphabet) symbol = Some symbol_id ->
  (1 < List.length (possible_transitions optimized_transitions current_state
                                         symbol_id timestamp))%nat ->
  simulate_drta_execution (pre ++ (symbol, timestamp) :: rest)
                          optimized_transitions accepting_colors alphabet
  = mkResult false path'
             (multiple_possible_transitions
                current_state symbol timestamp
                (possible_transitions optimized_transitions current_state
                                      symbol_id timestamp)).
Proof.
  intros Hrun Hid Hmany.
  assert (Hloop : simulate_drta_execution (pre ++ (symbol, timestamp) :: rest)
                    optimized_transitions accepting_colors alphabet
                  = simulate_loop optimized_transitions accepting_colors
                      (symbol_to_id alphabet) (pre ++ (symbol, timestamp) :: rest)
                      0 0 [0%nat]).
  { unfold simulate_drta_execution. destruct pre; reflexivity. }
  rewrite Hloop, (simulate_loop_prefix _ _ _ _ _ _ _ _ _ _ Hrun).
  simpl. rewrite Hid.
  destruct (possible_transitions optimized_transitions current_state symbol_id timestamp)
    as [ | target others] eqn:E; [simpl in Hmany; lia | ].
  apply Nat.ltb_lt in Hmany. rewrite Hmany. reflexivity.
Qed.

Lemma determinism_violation_rejects_witness :
  run_prefix Inputs.two_enabled (symbol_to_id [("a"%string, 0%nat)]) [] 0 [0%nat]
  = Some (0%nat, [0%nat])
  /\ Dict.get String.eqb (symbol_to_id [("a"%string, 0%nat)]) "a"%string = Some "0"%string
  /\ (1 < List.length (possible_transitions Inputs.two_enabled 0 "0" 1))%nat
  /\ accepted (simulate_drta_execution [("a"%string, 1 # 1)] Inputs.two_enabled [1%nat]
                                       [("a"%string, 0%nat)]) = false.
Proof.
  assert (H1 : run_prefix Inputs.two_enabled (symbol_to_id [("a"%string, 0%nat)]) [] 0 [0%nat]
               = Some (0%nat, [0%nat])) by reflexivity.
  assert (H2 : Dict.get String.eqb (symbol_to_id [("a"%string, 0%nat)]) "a"%string
               = Some "0"%string) by reflexivity.
  assert (H3 : (1 < List.length (possible_transitions Inputs.two_enabled 0 "0" 1))%nat).
  { vm_compute. lia. }
  split; [exact H1 | split; [exact H2 | split; [exact H3 | ] ] ].
  exact (f_equal accepted
           (determinism_violation_rejects Inputs.two_enabled [1%nat] [("a"%string, 0%nat)]
              [] [] "a" "0" 1 0 [0%nat] H1 H2 H3)).
Defined.

End VerifierRuns.

(** ** The region-partition optimiser *)

Section OptimiserTotality.

Import Verifier Optimizer.

(** C1, at the failing input. In a model for the samples
    [positive = [[('a', 0.5)]]], [negative = [[('a', 1)]]] the transitions
    from colour 0 send (0,1) to colour 0 and [1,inf) to colour 1. The group
    has two targets and no exact point; [find_gaps] reports no gap below a
    first region that is open at 0, so the optimiser returns the two regions
    unchanged: the time 0 lies in no region of the group, and the verifier
    finds no transition for it. *)
Theorem optimizer_leaves_zero_uncovered :
  optimize_transitions_new Inputs.open_at_zero
  = Some [((0%nat, "0"%string),
           [(0%nat, [(of_Z 0, of_Z 1, false, false)]);
            (1%nat, [(of_Z 1, PInf, true, false)])]);
          ((1%nat, "0"%string), [(0%nat, [(of_Z 0, PInf, true, false)])])]
  /\ group_protected_points Inputs.open_at_zero 0 "0" false = []
  /\ find_gaps [(of_Z 0, of_Z 1, false, false); (of_Z 1, PInf, true, false)] = []
  /\ is_timestamp_in_region 0 (of_Z 0, of_Z 1, false, false) = false
  /\ is_timestamp_in_region 0 (of_Z 1, PInf, true, false) = false
  /\ option_map
       (fun optimized_transitions =>
          simulate_drta_execution [("a"%string, 0)] optimized_transitions
                                  [0%nat] [("a"%string, 0%nat)])
       (optimize_transitions_new Inputs.open_at_zero)
     = Some (mkResult false [0%nat] (no_transition 0 "a" 0)).
Proof. repeat split; vm_compute; reflexivity. Qed.

End OptimiserTotality.

(* ------------------------------------------------------------------ *)
(** * Further properties *)

(** ** Comparisons of numbers *)

Lemma ltb_Fin a b : ltb (Fin a) (Fin b) = true <-> a < b.
Proof. apply Qltb_lt. Qed.

Lemma leb_Fin a b : leb (Fin a) (Fin b) = true <-> a <= b.
Proof.
  unfold leb. simpl. rewrite orb_true_iff, Qltb_lt, Qeq_bool_iff. split.
  - intros [H | H]; lra.
  - intro H. destruct (Qlt_le_dec a b) as [Hlt | Hge]; [now left | right; lra].
Qed.

Lemma inject_Z_lt a b : inject_Z a < inject_Z b -> (a < b)%Z.
Proof. now rewrite <- Zlt_Qlt. Qed.

Lemma inject_Z_le a b : inject_Z a <= inject_Z b -> (a <= b)%Z.
Proof. now rewrite <- Zle_Qle. Qed.

(** ** The regions of the alphabet partition the non-negative times *)

Section AlphabetPartition.

Import Statements TAPTABuild.

Lemma contains_point_region k t :
  contains (point_region k) t = true <-> t == inject_Z (Z.of_nat k).
Proof.
  unfold contains, point_region, of_nat, of_Z, geb.
  cbn [lower upper lower_inclusive upper_inclusive].
  rewrite andb_true_iff, !leb_Fin. split; [intros [H1 H2] | intro H]; lra.
Qed.

Lemma contains_open_region k t :
  contains (open_region k) t = true
  <-> inject_Z (Z.of_nat k) < t /\ t < inject_Z (Z.of_nat (k + 1)).
Proof.
  unfold contains, open_region, of_nat, of_Z, gtb.
  cbn [lower upper lower_inclusive upper_inclusive].
  now rewrite andb_true_iff, !ltb_Fin.
Qed.

Lemma contains_unbounded_region kappa t :
  contains (unbounded_region kappa) t = true <-> inject_Z kappa < t.
Proof.
  unfold contains, unbounded_region, of_Z, gtb.
  cbn [lower upper lower_inclusive upper_inclusive].
  change (ltb (Fin t) PInf) with true.
  rewrite andb_true_r. apply ltb_Fin.
Qed.

Lemma In_region_alphabet kappa region :
  In region (BuildTimedAPTA_Regions kappa)
  <-> (exists k, (k <= Z.to_nat kappa)%nat /\ region = point_region k)
      \/ (exists k, (k < Z.to_nat kappa)%nat /\ region = open_region k)
      \/ region = unbounded_region kappa.
Proof.
  unfold BuildTimedAPTA_Regions.
  change (fun i : nat =>
            [mkRegion (of_nat i) (of_nat (i + 1)) false false;
             mkRegion (of_nat (i + 1)) (of_nat (i + 1)) true true])
    with (fun i : nat => [open_region i; point_region (i + 1)]).
  rewrite !in_app_iff, in_flat_map. split.
  - intros [[<- | []] | [(i & Hi & Hin) | [<- | []]]].
    + left. exists 0%nat. split; [lia | reflexivity].
    + apply in_seq in Hi. destruct Hin as [<- | [<- | []]].
      * right. left. exists i. split; [lia | reflexivity].
      * left. exists (i + 1)%nat. split; [lia | reflexivity].
    + right. right. reflexivity.
  - intros [(k & Hk & ->) | [(k & Hk & ->) | ->]].
    + destruct k as [ | k].
      * left. now left.
      * right. left. exists k. split; [apply in_seq; lia | ].
        right. left. f_equal. lia.
    + right. left. exists k. split; [apply in_seq; lia | now left].
    + right. right. now left.
Qed.

Lemma region_alphabet_covers kappa tau :
  (0 <= kappa)%Z -> 0 <= tau ->
  exists region, In region (BuildTimedAPTA_Regions kappa) /\ contains region tau = true.
Proof.
  intros Hk Ht.
  pose proof (Qfloor_le tau) as Hfl. pose proof (Qlt_floor tau) as Hfl1.
  assert (Hf0 : (0 <= Qfloor tau)%Z).
  { rewrite <- (Qfloor_Z 0). now apply Qfloor_resp_le. }
  destruct (Qlt_le_dec (inject_Z kappa) tau) as [Hbig | Hsmall].
  - exists (unbounded_region kappa). split.
    + apply In_region_alphabet. right. right. reflexivity.
    + now apply contains_unbounded_region.
  - assert (Hfk : (Qfloor tau <= kappa)%Z) by (apply inject_Z_le; lra).
    destruct (Qeq_dec tau (inject_Z (Qfloor tau))) as [Heq | Hne].
    + exists (point_region (Z.to_nat (Qfloor tau))). split.
      * apply In_region_alphabet. left. exists (Z.to_nat (Qfloor tau)).
        split; [lia | reflexivity].
      * apply contains_point_region. rewrite Z2Nat.id by assumption. exact Heq.
    + assert (Hlt : inject_Z (Qfloor tau) < tau).
      { destruct (Qlt_le_dec (inject_Z (Qfloor tau)) tau) as [H | H]; [exact H | ].
        exfalso. apply Hne. lra. }
      assert (Hfk' : (Qfloor tau < kappa)%Z) by (apply inject_Z_lt; lra).
      exists (open_region (Z.to_nat (Qfloor tau))). split.
      * apply In_region_alphabet. right. left. exists (Z.to_nat (Qfloor tau)).
        split; [lia | reflexivity].
      * apply contains_open_region.
        rewrite Nat2Z.inj_add, Z2Nat.id by assumption. split; [exact Hlt | exact Hfl1].
Qed.

Lemma region_alphabet_disjoint kappa tau region region' :
  (0 <= kappa)%Z ->
  In region (BuildTimedAPTA_Regions kappa) -> In region' (BuildTimedAPTA_Regions kappa) ->
  contains region tau = true -> contains region' tau = true ->
  region = region'.
Proof.
  intros Hk Hin Hin' Hc Hc'.
  apply In_region_alphabet in Hin, Hin'.
  destruct Hin as [(k & Hkn & ->) | [(k & Hkn & ->) | ->]];
    destruct Hin' as [(k' & Hkn' & ->) | [(k' & Hkn' & ->) | ->]];
    repeat match goal with
      | H : contains (point_region _) _ = true |- _ => apply contains_point_region in H
      | H : contains (open_region _) _ = true |- _ =>
          apply contains_open_region in H; destruct H
      | H : contains (unbounded_region _) _ = true |- _ =>
          apply contains_unbounded_region in H
      end.
  - assert (E : inject_Z (Z.of_nat k) == inject_Z (Z.of_nat k')) by lra.
    apply (proj1 (inject_Z_injective _ _)) in E. apply Nat2Z.inj in E. now subst.
  - exfalso.
    assert (G1 : (Z.of_nat k' < Z.of_nat k)%Z) by (apply inject_Z_lt; lra).
    assert (G2 : (Z.of_nat k < Z.of_nat (k' + 1))%Z) by (apply inject_Z_lt; lra).
    lia.
  - exfalso.
    assert (G1 : (kappa < Z.of_nat k)%Z) by (apply inject_Z_lt; lra). lia.
  - exfalso.
    assert (G1 : (Z.of_nat k < Z.of_nat k')%Z) by (apply inject_Z_lt; lra).
    assert (G2 : (Z.of_nat k' < Z.of_nat (k + 1))%Z) by (apply inject_Z_lt; lra).
    lia.
  - assert (G1 : (Z.of_nat k < Z.of_nat (k' + 1))%Z) by (apply inject_Z_lt; lra).
    assert (G2 : (Z.of_nat k' < Z.of_nat (k + 1))%Z) by (apply inject_Z_lt; lra).
    assert (E : k = k') by lia. now subst.
  - exfalso.
    assert (G1 : (kappa < Z.of_nat (k + 1))%Z) by (apply inject_Z_lt; lra). lia.
  - exfalso.
    assert (G1 : (kappa < Z.of_nat k')%Z) by (apply inject_Z_lt; lra). lia.
  - exfalso.
    assert (G1 : (kappa < Z.of_nat (k' + 1))%Z) by (apply inject_Z_lt; lra). lia.
  - reflexivity.
Qed.

(** X1. For a non-negative time, the region search of [BuildTimedAPTA]
    finds a region of the alphabet, this region contains the time, and no
    other region of the alphabet does. *)
Theorem region_search_finds_the_region (kappa : Z) (tau : Q) :
  (0 <= kappa)%Z -> 0 <= tau ->
  exists I,
    find_region (BuildTimedAPTA_Regions kappa) tau = Some I
    /\ In I (BuildTimedAPTA_Regions kappa)
    /\ contains I tau = true
    /\ (forall region,
          In region (BuildTimedAPTA_Regions kappa) -> contains region tau = true ->
          region = I).
Proof.
  intros Hk Ht. unfold find_region.
  destruct (find (fun region => contains region tau) (BuildTimedAPTA_Regions kappa))
    as [I | ] eqn:E.
  - apply find_some in E. destruct E as [Hin Hc].
    exists I. repeat split; [exact Hin | exact Hc | ].
    intros region Hin' Hc'. now apply (region_alphabet_disjoint kappa tau).
  - exfalso. destruct (region_alphabet_covers kappa tau Hk Ht) as (region & Hin & Hc).
    pose proof (find_none _ _ E region Hin) as H. simpl in H. congruence.
Qed.

Lemma region_search_finds_the_region_witness :
  (0 <= 2)%Z /\ 0 <= 3 # 2
  /\ find_region (BuildTimedAPTA_Regions 2) (3 # 2) = Some (Statements.open_region 1).
Proof.
  assert (H1 : (0 <= 2)%Z) by lia.
  assert (H2 : 0 <= 3 # 2) by discriminate.
  split; [exact H1 | split; [exact H2 | ] ].
  destruct (region_search_finds_the_region 2 (3 # 2) H1 H2) as (I & Hfind & _ & _ & Huniq).
  rewrite Hfind. f_equal. symmetry. apply Huniq.
  - right. right. right. left. reflexivity.
  - reflexivity.
Defined.

(** X2. A negative time lies in no region of the alphabet: the search of
    [BuildTimedAPTA] ends with [I = None]. *)
Theorem region_search_negative_time (kappa : Z) (tau : Q) :
  (0 <= kappa)%Z -> tau < 0 ->
  find_region (BuildTimedAPTA_Regions kappa) tau = None.
Proof.
  intros Hk Ht. unfold find_region.
  destruct (find (fun region => contains region tau) (BuildTimedAPTA_Regions kappa))
    as [I | ] eqn:E; [ | reflexivity].
  exfalso. apply find_some in E. destruct E as [Hin Hc].
  apply In_region_alphabet in Hin.
  destruct Hin as [(k & Hkn & ->) | [(k & Hkn & ->) | ->]].
  - apply contains_point_region in Hc.
    assert (H : inject_Z (Z.of_nat k) < inject_Z 0) by (change (inject_Z 0) with 0; lra).
    apply inject_Z_lt in H. lia.
  - apply contains_open_region in Hc. destruct Hc as [Hc _].
    assert (H : inject_Z (Z.of_nat k) < inject_Z 0) by (change (inject_Z 0) with 0; lra).
    apply inject_Z_lt in H. lia.
  - apply contains_unbounded_region in Hc.
    assert (H : inject_Z kappa < inject_Z 0) by (change (inject_Z 0) with 0; lra).
    apply inject_Z_lt in H. lia.
Qed.

Lemma region_search_negative_time_witness :
  (0 <= 2)%Z /\ -1 # 2 < 0
  /\ find_region (BuildTimedAPTA_Regions 2) (-1 # 2) = None.
Proof.
  assert (H1 : (0 <= 2)%Z) by lia.
  assert (H2 : -1 # 2 < 0) by reflexivity.
  split; [exact H1 | split; [exact H2 | ] ].
  exact (region_search_negative_time 2 (-1 # 2) H1 H2).
Defined.

End AlphabetPartition.

(** ** Merging regions *)

Section MergeFacts.

Import Statements.







End MergeFacts.

Ltac split_tests_in_goal :=
  repeat match goal with
    | |- context [Qltb ?a ?b] => destruct (Qltb a b) eqn:?; simpl
    | |- context [Qeq_bool ?a ?b] => destruct (Qeq_bool a b) eqn:?; simpl
    end.

Ltac decide_num_goal :=
  simpl; split_tests_in_goal; intros;
  try reflexivity; try discriminate;
  exfalso; bool_to_Q; lra.

Section MergeContents.

Import Statements.

Lemma leb_through a t b : leb a (Fin t) = true -> leb (Fin t) b = true -> leb a b = true.
Proof.
  unfold leb. destruct a as [x | | | ], b as [y | | | ]; simpl; try discriminate;
    try reflexivity.
  rewrite !orb_true_iff, !Qltb_lt, !Qeq_bool_iff.
  intros H1 H2.
  destruct (Qlt_le_dec x y) as [H | H]; [now left | right].
  destruct H1, H2; lra.
Qed.

Lemma ltb_leb a b : ltb a b = true -> leb a b = true.
Proof. unfold leb. intros ->. reflexivity. Qed.

(** X4. Two regions that contain a common value pass the test
    [_are_regions_adjacent_or_overlapping], so [_merge_regions] is defined
    on them, and the merged region contains the value. *)
Theorem regions_sharing_a_value_merge (region1 region2 : Region) (t : Q) :
  contains region1 t = true -> contains region2 t = true ->
  _are_regions_adjacent_or_overlapping region1 region2 = true
  /\ exists merged,
       _merge_regions region1 region2 = Some merged /\ contains merged t = true.
Proof.
  intros H1 H2.
  assert (Hover : _are_regions_adjacent_or_overlapping region1 region2 = true).
  { unfold contains in H1, H2. apply andb_true_iff in H1, H2.
    destruct H1 as [Hl1 Hu1], H2 as [Hl2 Hu2].
    assert (Gl1 : leb (lower region1) (Fin t) = true).
    { destruct (lower_inclusive region1); [exact Hl1 | now apply ltb_leb]. }
    assert (Gl2 : leb (lower region2) (Fin t) = true).
    { destruct (lower_inclusive region2); [exact Hl2 | now apply ltb_leb]. }
    assert (Gu1 : leb (Fin t) (upper region1) = true).
    { destruct (upper_inclusive region1); [exact Hu1 | now apply ltb_leb]. }
    assert (Gu2 : leb (Fin t) (upper region2) = true).
    { destruct (upper_inclusive region2); [exact Hu2 | now apply ltb_leb]. }
    unfold _are_regions_adjacent_or_overlapping, geb.
    rewrite (leb_through _ _ _ Gl1 Gu2), (leb_through _ _ _ Gl2 Gu1). reflexivity. }
  split; [exact Hover | ].
  unfold _merge_regions. rewrite Hover. simpl.
  eexists. split; [reflexivity | ].
  unfold contains. cbn [lower upper lower_inclusive upper_inclusive].
  unfold contains in H1. apply andb_true_iff in H1. destruct H1 as [Hl1 Hu1].
  rewrite (merged_lower_bound_left _ _ _ _ _ Hl1), (merged_upper_bound_left _ _ _ _ _ Hu1).
  reflexivity.
Qed.

Lemma regions_sharing_a_value_merge_witness :
  contains (mkRegion (of_Z 0) (of_Z 2) true false) 1 = true
  /\ contains Inputs.point_1 1 = true
  /\ _are_regions_adjacent_or_overlapping (mkRegion (of_Z 0) (of_Z 2) true false)
                                          Inputs.point_1 = true.
Proof.
  assert (H1 : contains (mkRegion (of_Z 0) (of_Z 2) true false) 1 = true) by reflexivity.
  assert (H2 : contains Inputs.point_1 1 = true) by reflexivity.
  split; [exact H1 | split; [exact H2 | ] ].
  exact (proj1 (regions_sharing_a_value_merge _ _ 1 H1 H2)).
Defined.

Lemma num_leb_trans a b c : leb a b = true -> leb b c = true -> leb a c = true.
Proof.
  unfold leb. destruct a, b, c; decide_num_goal.
Qed.

Lemma num_eqb_leb a b : eqb a b = true -> leb a b = true /\ leb b a = true.
Proof.
  intro H. unfold leb. rewrite (num_eqb_sym b a), H, !orb_true_r. auto.
Qed.

Lemma merged_lower_fails l1 l2 (c1 c2 : bool) t :
  (if c1 then geb (Fin t) l1 else gtb (Fin t) l1) = false ->
  (if c2 then geb (Fin t) l2 else gtb (Fin t) l2) = false ->
  (if (eqb l1 (min l1 l2) && c1) || (eqb l2 (min l1 l2) && c2)
   then geb (Fin t) (min l1 l2) else gtb (Fin t) (min l1 l2)) = false.
Proof.
  unfold min, geb, gtb, leb.
  destruct l1 as [a | | | ], l2 as [b | | | ], c1, c2; decide_num_goal.
Qed.

Lemma merged_upper_fails u1 u2 (c1 c2 : bool) t :
  (if c1 then leb (Fin t) u1 else ltb (Fin t) u1) = false ->
  (if c2 then leb (Fin t) u2 else ltb (Fin t) u2) = false ->
  (if (eqb u1 (max u1 u2) && c1) || (eqb u2 (max u1 u2) && c2)
   then leb (Fin t) (max u1 u2) else ltb (Fin t) (max u1 u2)) = false.
Proof.
  unfold max, geb, gtb, leb.
  destruct u1 as [a | | | ], u2 as [b | | | ], c1, c2; decide_num_goal.
Qed.

Lemma bound_excluded_by_both l u (c d : bool) t :
  (if c then geb (Fin t) l else gtb (Fin t) l) = false ->
  (if d then leb (Fin t) u else ltb (Fin t) u) = false ->
  leb l u = true ->
  eqb u (Fin t) && eqb l (Fin t) && negb d && negb c = true.
Proof.
  unfold geb, gtb, leb.
  destruct l as [a | | | ], u as [b | | | ], c, d; decide_num_goal.
Qed.

(** X5. What a merged region contains, for two regions whose lower bounds
    do not exceed their upper bounds: every value of either region (when
    the bounds of the first are numbers), and beyond these only a common
    end point that both regions exclude. *)
Theorem merged_region_contents (region1 region2 merged : Region) (t : Q) :
  region_not_nan region1 = true ->
  leb (lower region1) (upper region1) = true ->
  leb (lower region2) (upper region2) = true ->
  _merge_regions region1 region2 = Some merged ->
  (contains region1 t = true \/ contains region2 t = true -> contains merged t = true)
  /\ (contains merged t = true ->
      contains region1 t = true \/ contains region2 t = true
      \/ excluded_common_bound region1 region2 t = true
      \/ excluded_common_bound region2 region1 t = true).
Proof.
  intros Hn1 Hwf1 Hwf2 Hmerge. split.
  - now apply (merge_regions_contains_either region1 region2).
  - assert (Hover : leb (lower region1) (upper region2) = true
                    /\ leb (lower region2) (upper region1) = true).
    { unfold _merge_regions in Hmerge.
      destruct (_are_regions_adjacent_or_overlapping region1 region2) eqn:E;
        [ | discriminate].
      unfold _are_regions_adjacent_or_overlapping, geb in E.
      rewrite !orb_true_iff, !andb_true_iff in E.
      destruct E as [ [ [H1 H2] | [H1 H2] ] | [ [H1 _] | [H1 _] ] ]; auto.
      - apply num_eqb_leb in H1. destruct H1 as [H1 H1']. split.
        + eapply num_leb_trans; [exact Hwf1 | ].
          eapply num_leb_trans; [exact H1 | exact Hwf2].
        + exact H1'.
      - apply num_eqb_leb in H1. destruct H1 as [H1 H1']. split.
        + exact H1'.
        + eapply num_leb_trans; [exact Hwf2 | ].
          eapply num_leb_trans; [exact H1 | exact Hwf1]. }
    destruct Hover as [H12 H21].
    unfold _merge_regions in Hmerge.
    destruct (negb (_are_regions_adjacent_or_overlapping region1 region2));
      [discriminate | ].
    injection Hmerge as <-.
    unfold contains, excluded_common_bound.
    cbn [lower upper lower_inclusive upper_inclusive].
    destruct (if lower_inclusive region1 then geb (Fin t) (lower region1)
              else gtb (Fin t) (lower region1)) eqn:L1;
      destruct (if upper_inclusive region1 then leb (Fin t) (upper region1)
                else ltb (Fin t) (upper region1)) eqn:U1;
      destruct (if lower_inclusive region2 then geb (Fin t) (lower region2)
                else gtb (Fin t) (lower region2)) eqn:L2;
      destruct (if upper_inclusive region2 then leb (Fin t) (upper region2)
                else ltb (Fin t) (upper region2)) eqn:U2;
      cbn [andb]; intro Hc; auto.
    all: try (rewrite (merged_lower_fails _ _ _ _ _ L1 L2) in Hc; discriminate Hc).
    all: try (rewrite (merged_upper_fails _ _ _ _ _ U1 U2) in Hc;
              rewrite andb_false_r in Hc; discriminate Hc).
    + right. right. left. apply (bound_excluded_by_both _ _ _ _ _ L2 U1 H21).
    + right. right. right. apply (bound_excluded_by_both _ _ _ _ _ L1 U2 H12).
Qed.

Lemma merged_region_contents_witness :
  region_not_nan Inputs.point_1 = true
  /\ leb (lower Inputs.point_1) (upper Inputs.point_1) = true
  /\ leb (lower Inputs.open_1_2) (upper Inputs.open_1_2) = true
  /\ _merge_regions Inputs.point_1 Inputs.open_1_2
     = Some (mkRegion (of_Z 1) (of_Z 2) true false)
  /\ contains (mkRegion (of_Z 1) (of_Z 2) true false) (3 # 2) = true.
Proof.
  assert (H1 : region_not_nan Inputs.point_1 = true) by reflexivity.
  assert (H2 : leb (lower Inputs.point_1) (upper Inputs.point_1) = true) by reflexivity.
  assert (H3 : leb (lower Inputs.open_1_2) (upper Inputs.open_1_2) = true) by reflexivity.
  assert (H4 : _merge_regions Inputs.point_1 Inputs.open_1_2
               = Some (mkRegion (of_Z 1) (of_Z 2) true false)) by reflexivity.
  split; [exact H1 | split; [exact H2 | split; [exact H3 | split; [exact H4 | ] ] ] ].
  apply (proj1 (merged_region_contents _ _ _ (3 # 2) H1 H2 H3 H4)).
  right. reflexivity.
Defined.

End MergeContents.

(** ** Membership and overlap tests of the other modules *)

Section RegionTests.

Import Statements Verifier.

Lemma ltb_negb_leb a b :
  not_nan a = true -> not_nan b = true -> ltb a b = negb (leb b a).
Proof.
  unfold leb. destruct a as [x | | | ], b as [y | | | ]; simpl; try discriminate;
    intros _ _; try reflexivity.
  destruct (Qltb x y) eqn:E1, (Qltb y x) eqn:E2, (Qeq_bool y x) eqn:E3; simpl;
    try reflexivity; exfalso; bool_to_Q; lra.
Qed.

(** X6. For a region whose bounds are numbers, the verifier's test
    [is_timestamp_in_region] on the tuple of the region agrees with
    [Region.contains]. *)
Theorem timestamp_test_agrees_with_contains (r : Region) (timestamp : Q) :
  region_not_nan r = true ->
  is_timestamp_in_region timestamp
    (lower r, upper r, lower_inclusive r, upper_inclusive r)
  = contains r timestamp.
Proof.
  unfold region_not_nan. rewrite andb_true_iff. intros [Hl Hu].
  unfold is_timestamp_in_region, contains, geb, gtb.
  rewrite (ltb_negb_leb (Fin timestamp) (lower r)) by auto.
  rewrite (ltb_negb_leb (lower r) (Fin timestamp)) by auto.
  rewrite (ltb_negb_leb (Fin timestamp) (upper r)) by auto.
  rewrite (ltb_negb_leb (upper r) (Fin timestamp)) by auto.
  destruct (lower_inclusive r), (upper_inclusive r);
    destruct (leb (lower r) (Fin timestamp)), (leb (Fin timestamp) (lower r)),
      (leb (upper r) (Fin timestamp)), (leb (Fin timestamp) (upper r)); reflexivity.
Qed.

Lemma timestamp_test_agrees_with_contains_witness :
  region_not_nan Inputs.open_1_2 = true
  /\ is_timestamp_in_region (3 # 2) (of_Z 1, of_Z 2, false, false) = true.
Proof.
  assert (H : region_not_nan Inputs.open_1_2 = true) by reflexivity.
  split; [exact H | ].
  exact (timestamp_test_agrees_with_contains Inputs.open_1_2 (3 # 2) H).
Defined.

(** X7. [TimeRegion.overlaps] is symmetric, and it holds for any two
    regions that contain a common value. *)
Theorem overlaps_symmetric_and_sound (self other : DRTA.TimeRegion) :
  DRTARegions.overlaps self other = DRTARegions.overlaps other self
  /\ (forall t, DRTA.contains self t = true -> DRTA.contains other t = true ->
                DRTARegions.overlaps self other = true).
Proof.
  split.
  - unfold DRTARegions.overlaps.
    rewrite (orb_comm (leb (DRTA.lower other) (DRTA.upper self) && _)).
    rewrite (orb_comm (eqb (DRTA.upper other) (DRTA.lower self) && _)).
    reflexivity.
  - intros t H1 H2.
    unfold DRTA.contains in H1, H2. apply andb_true_iff in H1, H2.
    destruct H1 as [Hl1 Hu1], H2 as [Hl2 Hu2].
    assert (Gl1 : leb (DRTA.lower self) (Fin t) = true).
    { destruct (DRTA.lower_inclusive self); [exact Hl1 | now apply ltb_leb]. }
    assert (Gu2 : leb (Fin t) (DRTA.upper other) = true).
    { destruct (DRTA.upper_inclusive other); [exact Hu2 | now apply ltb_leb]. }
    assert (Gl2 : leb (DRTA.lower other) (Fin t) = true).
    { destruct (DRTA.lower_inclusive other); [exact Hl2 | now apply ltb_leb]. }
    assert (Gu1 : leb (Fin t) (DRTA.upper self) = true).
    { destruct (DRTA.upper_inclusive self); [exact Hu1 | now apply ltb_leb]. }
    unfold DRTARegions.overlaps, geb.
    rewrite (leb_through _ _ _ Gl1 Gu2), (leb_through _ _ _ Gl2 Gu1). reflexivity.
Qed.

End RegionTests.

Section MayIntersectSound.

Import Verifier EncodingRegions.

Variable float : string -> option num.

Lemma left_of_excludes u l (d c : bool) t :
  ltb u l || (eqb u l && (negb d || negb c)) = true ->
  (if d then gtb (Fin t) u else geb (Fin t) u) = false ->
  (if c then ltb (Fin t) l else leb (Fin t) l) = false ->
  False.
Proof.
  unfold geb, gtb, leb.
  destruct u as [a | | | ], l as [b | | | ], c, d; simpl;
    split_tests_in_goal; intros; try discriminate; bool_to_Q; lra.
Qed.

(** X8. [_regions_may_intersect] answers [False] only for two region texts
    that are different, both parse, and share no time value in the sense of
    the verifier's test: whenever two region texts denote regions with a
    common time value, or one of them does not parse, they may intersect. *)
Theorem regions_may_intersect_sound (region1_str region2_str : string) :
  _regions_may_intersect float region1_str region2_str = false ->
  region1_str <> region2_str
  /\ exists region1 region2,
       parse_region float region1_str = Some region1
       /\ parse_region float region2_str = Some region2
       /\ forall t, is_timestamp_in_region t region1 = true ->
                    is_timestamp_in_region t region2 = true -> False.
Proof.
  unfold _regions_may_intersect.
  destruct (String.eqb region1_str region2_str) eqn:E; [discriminate | ].
  apply String.eqb_neq in E.
  destruct (parse_region float region1_str) as [ [ [ [l1 u1] c1] d1] | ]; [ | discriminate].
  destruct (parse_region float region2_str) as [ [ [ [l2 u2] c2] d2] | ]; [ | discriminate].
  intro H. split; [exact E | ].
  exists (l1, u1, c1, d1), (l2, u2, c2, d2). split; [reflexivity | split; [reflexivity | ] ].
  intros t H1 H2. unfold is_timestamp_in_region in H1, H2.
  destruct (if c1 then ltb (Fin t) l1 else leb (Fin t) l1) eqn:L1; [discriminate | ].
  destruct (if d1 then gtb (Fin t) u1 else geb (Fin t) u1) eqn:U1; [discriminate | ].
  destruct (if c2 then ltb (Fin t) l2 else leb (Fin t) l2) eqn:L2; [discriminate | ].
  destruct (if d2 then gtb (Fin t) u2 else geb (Fin t) u2) eqn:U2; [discriminate | ].
  destruct (ltb u1 l2 || (eqb u1 l2 && (negb d1 || negb c2))) eqn:T1.
  - exact (left_of_excludes _ _ _ _ _ T1 U1 L2).
  - destruct (gtb l1 u2 || (eqb l1 u2 && (negb c1 || negb d2))) eqn:T2; [ | discriminate].
    unfold gtb in T2. rewrite (num_eqb_sym l1 u2), (orb_comm (negb c1)) in T2.
    exact (left_of_excludes _ _ _ _ _ T2 U2 L1).
Qed.

End MayIntersectSound.

Lemma regions_may_intersect_sound_witness :
  EncodingRegions._regions_may_intersect EncodingRegions.float_of_digits
    "[0, 1)" "[1, 2]" = false
  /\ "[0, 1)"%string <> "[1, 2]"%string.
Proof.
  assert (H : EncodingRegions._regions_may_intersect EncodingRegions.float_of_digits
                "[0, 1)" "[1, 2]" = false) by (vm_compute; reflexivity).
  split; [exact H | ].
  exact (proj1 (regions_may_intersect_sound EncodingRegions.float_of_digits _ _ H)).
Defined.

Lemma overlaps_symmetric_and_sound_witness :
  DRTARegions.overlaps (DRTA.mkTimeRegion (of_Z 0) (of_Z 2) true false)
                       (DRTA.mkTimeRegion (of_Z 1) PInf true false) = true.
Proof.
  apply (proj2 (overlaps_symmetric_and_sound _ _) 1); reflexivity.
Defined.

(** ** The prefix tree of [BuildTimedAPTA] *)

Section PrefixTree.

Import TAPTABuild TAPTATree Statements.

Lemma nat_get_some_key {V : Type} (d : list (nat * V)) k v :
  Dict.get Nat.eqb d k = Some v -> In k (map fst d).
Proof.
  induction d as [ | [k' v'] d IH]; simpl; [discriminate | ].
  destruct (Nat.eqb k' k) eqn:E.
  - intros _. left. now apply Nat.eqb_eq.
  - intro H. right. now apply IH.
Qed.

Lemma nat_get_key_some {V : Type} (d : list (nat * V)) k :
  In k (map fst d) -> exists v, Dict.get Nat.eqb d k = Some v.
Proof.
  induction d as [ | [k' v'] d IH]; simpl; [tauto | ].
  intros [H | H].
  - subst. rewrite Nat.eqb_refl. eauto.
  - destruct (Nat.eqb k' k); eauto.
Qed.

Lemma nat_set_known_key {V : Type} (d : list (nat * V)) k v :
  In k (map fst d) -> map fst (Dict.set Nat.eqb d k v) = map fst d.
Proof.
  induction d as [ | [k' v'] d IH]; simpl; [tauto | ].
  intros H. destruct (Nat.eqb k' k) eqn:E; simpl; [reflexivity | ].
  f_equal. apply IH. destruct H as [H | H]; [ | exact H].
  subst. rewrite Nat.eqb_refl in E. discriminate.
Qed.

Lemma nat_set_new_key {V : Type} (d : list (nat * V)) k v :
  ~ In k (map fst d) -> Dict.set Nat.eqb d k v = d ++ [(k, v)].
Proof.
  induction d as [ | [k' v'] d IH]; simpl; [reflexivity | ].
  intros H. destruct (Nat.eqb k' k) eqn:E.
  - apply Nat.eqb_eq in E. tauto.
  - f_equal. apply IH. tauto.
Qed.

Lemma closed_get_lt (T : TAPTA) q :
  closed T ->
  ((exists s, Dict.get Nat.eqb (states T) q = Some s) <-> (q < List.length (states T))%nat).
Proof.
  intros [Hk _]. split.
  - intros [s Hs]. apply nat_get_some_key in Hs. rewrite Hk in Hs.
    apply in_seq in Hs. lia.
  - intros Hq. apply nat_get_key_some. rewrite Hk. apply in_seq. lia.
Qed.

Lemma get_transition_in (s : State) symbol region t :
  get_transition s symbol region = Some t -> exists key, In (key, t) (transitions s).
Proof.
  unfold get_transition.
  destruct (find _ (transitions s)) as [ [key t'] | ] eqn:E; [ | discriminate].
  intros H. injection H as <-. exists key. now apply find_some in E.
Qed.

Lemma akey_set_new (d : list (akey * nat)) (k : akey) v :
  find (fun item : akey * nat => akey_eqb (fst item) k) d = None ->
  Dict.set akey_eqb d k v = d ++ [(k, v)].
Proof.
  induction d as [ | [k' v'] d IH]; simpl; [reflexivity | ].
  destruct (akey_eqb k' k); [discriminate | ].
  intros H. f_equal. now apply IH.
Qed.

Lemma find_app_some {A : Type} (f : A -> bool) (l l' : list A) x :
  find f l = Some x -> find f (l ++ l') = Some x.
Proof.
  induction l as [ | y l IH]; simpl; [discriminate | ].
  destruct (f y); [trivial | exact IH].
Qed.

Lemma find_app_none {A : Type} (f : A -> bool) (l l' : list A) :
  find f l = None -> find f (l ++ l') = find f l'.
Proof.
  induction l as [ | y l IH]; simpl; [reflexivity | ].
  destruct (f y); [discriminate | exact IH].
Qed.

Lemma get_transition_find (s : State) symbol region :
  get_transition s symbol region
  = match find (fun item : akey * nat => akey_eqb (fst item) (symbol, region))
               (transitions s) with
    | Some (_, target) => Some target
    | None => None
    end.
Proof. reflexivity. Qed.

Lemma akey_eqb_refl (symbol : string) (I : option Region) :
  (forall r, I = Some r -> region_not_nan r = true) ->
  akey_eqb (symbol, I) (symbol, I) = true.
Proof.
  intros H. unfold akey_eqb. simpl. rewrite String.eqb_refl. simpl.
  destruct I as [r | ]; simpl; [ | reflexivity].
  apply Region_eqb_refl. now apply H.
Qed.

Lemma nat_get_app_known {V : Type} (d d' : list (nat * V)) k v :
  Dict.get Nat.eqb d k = Some v -> Dict.get Nat.eqb (d ++ d') k = Some v.
Proof.
  induction d as [ | [k' v'] d IH]; simpl; [discriminate | ].
  destruct (Nat.eqb k' k); [trivial | exact IH].
Qed.

Lemma nat_get_app_new {V : Type} (d : list (nat * V)) k v :
  ~ In k (map fst d) -> Dict.get Nat.eqb (d ++ [(k, v)]) k = Some v.
Proof.
  induction d as [ | [k' v'] d IH]; simpl.
  - intros _. now rewrite Nat.eqb_refl.
  - intros H. destruct (Nat.eqb k' k) eqn:E.
    + apply Nat.eqb_eq in E. tauto.
    + apply IH. tauto.
Qed.

Lemma extends_refl T : extends T T.
Proof. repeat split; auto. Qed.

Lemma extends_trans T1 T2 T3 : extends T1 T2 -> extends T2 T3 -> extends T1 T3.
Proof.
  intros (A1 & A2 & A3 & A4) (B1 & B2 & B3 & B4).
  repeat split; [congruence | lia | auto | auto].
Qed.

Variable Regions : list Region.
Hypothesis Regions_not_nan : forall r, In r Regions -> region_not_nan r = true.

Lemma find_region_not_nan tau r : find_region Regions tau = Some r -> region_not_nan r = true.
Proof.
  unfold find_region. intros H. apply find_some in H. now apply Regions_not_nan.
Qed.

(** One event: the walk never fails, adds at most one state, keeps the
    invariant and ends in the state that [delta] gives in the new tree. *)
Lemma step_closed T q e :
  closed T -> (q < List.length (states T))%nat ->
  exists T' q',
    step Regions T q e = Some (T', q')
    /\ closed T' /\ extends T T'
    /\ (q' < List.length (states T'))%nat
    /\ delta T' q (fst e, find_region Regions (snd e)) = Some q'
    /\ (List.length (states T') <= List.length (states T) + 1)%nat
    /\ keeps_labels T T'.
Proof.
  intros HT Hq. destruct e as [sigma tau]. simpl fst. simpl snd.
  destruct (proj2 (closed_get_lt T q HT) Hq) as [source Hsrc].
  unfold step. rewrite Hsrc. simpl bind.
  set (I := find_region Regions tau).
  assert (Hrefl : akey_eqb (sigma, I) (sigma, I) = true).
  { apply akey_eqb_refl. intros r Hr. now apply (find_region_not_nan tau). }
  destruct (get_transition source sigma I) as [t | ] eqn:Hget.
  - assert (Hd : delta T q (sigma, I) = Some t).
    { unfold delta. rewrite Hsrc. exact Hget. }
    rewrite Hd. simpl bind. exists T, t.
    destruct (get_transition_in _ _ _ _ Hget) as [key Hin].
    destruct HT as (Hk & Hi & Ht & Hl).
    split; [reflexivity | ].
    split; [repeat split; assumption | ].
    split; [apply extends_refl | ].
    split; [exact (Ht _ _ _ _ Hsrc Hin) | ].
    split; [exact Hd | ].
    split; [lia | ].
    intros k s' Hs'. left. exists s'. auto.
  - destruct HT as (Hk & Hi & Ht & Hl).
    set (n := List.length (states T)) in *.
    assert (Hfresh : ~ In n (map fst (states T))).
    { rewrite Hk. rewrite in_seq. lia. }
    unfold create_state. fold n. rewrite (nat_set_new_key _ _ _ Hfresh).
    set (fresh := mkState n false false []).
    set (source' := add_transition source sigma I n).
    set (store := Dict.set Nat.eqb (states T ++ [(n, fresh)]) q source').
    assert (Hnone : find (fun item : akey * nat => akey_eqb (fst item) (sigma, I))
                         (transitions source) = None).
    { rewrite get_transition_find in Hget.
      destruct (find _ (transitions source)) as [ [k0 t0] | ]; [discriminate | reflexivity]. }
    assert (Htr : transitions source' = transitions source ++ [((sigma, I), n)]).
    { unfold source', add_transition. simpl. now apply akey_set_new. }
    assert (Hqin : In q (map fst (states T ++ [(n, fresh)]))).
    { rewrite map_app, Hk. apply in_or_app. left. apply in_seq. lia. }
    assert (Hkeys : map fst store = seq 0 (n + 1)).
    { unfold store. rewrite (nat_set_known_key _ _ _ Hqin), map_app, Hk.
      simpl. now rewrite seq_app. }
    assert (Hlen : List.length store = (n + 1)%nat).
    { rewrite <- (length_map fst store), Hkeys. apply length_seq. }
    assert (Hnew : get_transition source' sigma I = Some n).
    { rewrite get_transition_find, Htr, (find_app_none _ _ _ Hnone). simpl.
      rewrite Hrefl. reflexivity. }
    assert (Hgetq : Dict.get Nat.eqb store q = Some source').
    { apply nat_dict_get_set_same. }
    assert (Hother : forall k, k <> q -> (k < n)%nat ->
                     Dict.get Nat.eqb store k = Dict.get Nat.eqb (states T) k).
    { intros k Hkq Hkn. unfold store. rewrite nat_dict_get_set_other by auto.
      assert (Hin : In k (map fst (states T))) by (rewrite Hk; apply in_seq; lia).
      destruct (nat_get_key_some _ _ Hin) as [v Hv]. rewrite Hv.
      now apply nat_get_app_known. }
    assert (Hfreshget : q <> n -> Dict.get Nat.eqb store n = Some fresh).
    { intros Hqn. unfold store. rewrite nat_dict_get_set_other by auto.
      now apply nat_get_app_new. }
    assert (Hd : delta (mkTAPTA store (initial_state T)) q (sigma, I) = Some n).
    { unfold delta. simpl. rewrite Hgetq. exact Hnew. }
    rewrite Hd. simpl bind.
    exists (mkTAPTA store (initial_state T)), n.
    assert (Hcases : forall k s, Dict.get Nat.eqb store k = Some s ->
              (k = q /\ s = source')
              \/ (k = n /\ s = fresh)
              \/ (k <> q /\ (k < n)%nat /\ Dict.get Nat.eqb (states T) k = Some s)).
    { intros k s Hs.
      destruct (Nat.eq_dec k q) as [-> | Hkq].
      - left. split; [reflexivity | ]. rewrite Hgetq in Hs. now injection Hs.
      - right. assert (Hkl : (k < n + 1)%nat).
        { apply nat_get_some_key in Hs. rewrite Hkeys in Hs. apply in_seq in Hs. lia. }
        destruct (Nat.eq_dec k n) as [-> | Hkn].
        + left. split; [reflexivity | ]. rewrite Hfreshget in Hs by lia. now injection Hs.
        + right. repeat split; [exact Hkq | lia | ].
          rewrite <- Hother by lia. exact Hs. }
    split; [reflexivity | ].
    split; [ | split; [ | split; [ | split] ] ].
    + (* closed *)
      unfold closed. simpl. rewrite Hlen. repeat split.
      * exact Hkeys.
      * fold n in Hi. lia.
      * intros k s key t Hs Hin.
        destruct (Hcases k s Hs) as [ [-> ->] | [ [-> ->] | (_ & _ & Hold) ] ].
        -- rewrite Htr in Hin. apply in_app_or in Hin. destruct Hin as [Hin | Hin].
           ++ pose proof (Ht _ _ _ _ Hsrc Hin). lia.
           ++ simpl in Hin. destruct Hin as [Hin | [] ]. injection Hin as _ <-. lia.
        -- destruct Hin.
        -- pose proof (Ht _ _ _ _ Hold Hin). lia.
      * intros k s Hs.
        destruct (Hcases k s Hs) as [ [-> ->] | [ [-> ->] | (_ & _ & Hold) ] ].
        -- simpl. exact (Hl _ _ Hsrc).
        -- reflexivity.
        -- exact (Hl _ _ Hold).
    + (* extends *)
      unfold extends. simpl. rewrite Hlen. fold n. repeat split; try lia.
      * intros k key t. unfold delta. simpl.
        destruct (Dict.get Nat.eqb (states T) k) as [s | ] eqn:Hs; [ | discriminate].
        simpl bind. intros Hgt.
        destruct (Nat.eq_dec k q) as [-> | Hkq].
        -- rewrite Hgetq. simpl bind. rewrite Hsrc in Hs. injection Hs as <-.
           rewrite get_transition_find in Hgt |- *. rewrite Htr.
           destruct (find (fun item : akey * nat => akey_eqb (fst item) (fst key, snd key))
                          (transitions source)) as [ [k0 t0] | ] eqn:Hf; [ | discriminate].
           rewrite (find_app_some _ _ _ _ Hf). exact Hgt.
        -- assert (Hkn : (k < n)%nat).
           { apply nat_get_some_key in Hs. rewrite Hk in Hs. apply in_seq in Hs. lia. }
           rewrite (Hother k Hkq Hkn), Hs. exact Hgt.
      * intros k (s & Hs & Hx). unfold labelled. simpl.
        destruct (Nat.eq_dec k q) as [-> | Hkq].
        -- exists source'. split; [exact Hgetq | ].
           rewrite Hsrc in Hs. injection Hs as <-. exact Hx.
        -- assert (Hkn : (k < n)%nat).
           { apply nat_get_some_key in Hs. rewrite Hk in Hs. apply in_seq in Hs. lia. }
           exists s. rewrite (Hother k Hkq Hkn). auto.
    + simpl. rewrite Hlen. lia.
    + exact Hd.
    + split; [simpl; rewrite Hlen; lia | ].
      intros k s' Hs'. simpl in Hs'.
      destruct (Hcases k s' Hs') as [ [-> ->] | [ [-> ->] | (_ & _ & Hold) ] ].
      * left. exists source. simpl. auto.
      * right. auto.
      * left. exists s'. auto.
Qed.

Lemma keeps_labels_refl T : keeps_labels T T.
Proof. intros q s' Hs'. left. exists s'. auto. Qed.

Lemma keeps_labels_trans T1 T2 T3 :
  keeps_labels T1 T2 -> keeps_labels T2 T3 -> keeps_labels T1 T3.
Proof.
  intros H12 H23 q s3 Hs3.
  destruct (H23 q s3 Hs3) as [ (s2 & Hs2 & Ha & Hr) | Hnone]; [ | now right].
  destruct (H12 q s2 Hs2) as [ (s1 & Hs1 & Ha' & Hr') | [Ha' Hr'] ].
  - left. exists s1. repeat split; congruence.
  - right. split; congruence.
Qed.

Lemma replay_extends T T' : extends T T' ->
  forall omega q r, replay Regions T q omega = Some r -> replay Regions T' q omega = Some r.
Proof.
  intros (_ & _ & Hd & _). induction omega as [ | [sigma tau] omega IH]; intros q r; simpl.
  - trivial.
  - destruct (delta T q (sigma, find_region Regions tau)) as [q' | ] eqn:E; [ | discriminate].
    rewrite (Hd _ _ _ E). simpl. apply IH.
Qed.

(** A whole trace: the walk succeeds, and the trace can be replayed in the
    new tree, where it ends in the state the walk ended in. *)
Lemma walk_closed omega : forall T q,
  closed T -> (q < List.length (states T))%nat ->
  exists T' q',
    walk Regions T q omega = Some (T', q')
    /\ closed T' /\ extends T T'
    /\ (q' < List.length (states T'))%nat
    /\ replay Regions T' q omega = Some q'
    /\ (List.length (states T') <= List.length (states T) + List.length omega)%nat
    /\ keeps_labels T T'.
Proof.
  induction omega as [ | e omega IH]; intros T q HT Hq.
  - exists T, q. simpl.
    split; [reflexivity | ]. split; [exact HT | ]. split; [apply extends_refl | ].
    split; [exact Hq | ]. split; [reflexivity | ]. split; [lia | apply keeps_labels_refl].
  - destruct (step_closed T q e HT Hq) as (T1 & q1 & Hs & HT1 & He1 & Hq1 & Hd1 & Hn1 & Hk1).
    destruct (IH T1 q1 HT1 Hq1) as (T2 & q2 & Hw & HT2 & He2 & Hq2 & Hr2 & Hn2 & Hk2).
    exists T2, q2. simpl walk. rewrite Hs. simpl bind.
    split; [exact Hw | ].
    split; [exact HT2 | ].
    split; [exact (extends_trans _ _ _ He1 He2) | ].
    split; [exact Hq2 | ].
    split.
    + destruct e as [sigma tau]. simpl replay. simpl in Hd1.
      destruct He2 as (_ & _ & Hd & _). rewrite (Hd _ _ _ Hd1). simpl. exact Hr2.
    + split; [simpl List.length; lia | exact (keeps_labels_trans _ _ _ Hk1 Hk2)].
Qed.

Lemma mark_closed T q final final' :
  closed T -> Dict.get Nat.eqb (states T) q = Some final ->
  transitions final' = transitions final ->
  xorb (is_accepting final') (is_rejecting final') = true ->
  let T' := mkTAPTA (Dict.set Nat.eqb (states T) q final') (initial_state T) in
  closed T' /\ extends T T' /\ labelled T' q
  /\ List.length (states T') = List.length (states T)
  /\ (forall k key, delta T' k key = delta T k key).
Proof.
  intros (Hk & Hi & Ht & Hl) Hq Htr Hx. simpl.
  assert (Hqin : In q (map fst (states T))) by exact (nat_get_some_key _ _ _ Hq).
  assert (Hkeys : map fst (Dict.set Nat.eqb (states T) q final') = map fst (states T))
    by exact (nat_set_known_key _ _ _ Hqin).
  assert (Hlen : List.length (Dict.set Nat.eqb (states T) q final') = List.length (states T)).
  { rewrite <- (length_map fst), Hkeys. apply length_map. }
  assert (Hd : forall k key,
             delta (mkTAPTA (Dict.set Nat.eqb (states T) q final') (initial_state T)) k key
             = delta T k key).
  { intros k key. unfold delta. simpl.
    destruct (Nat.eq_dec k q) as [-> | Hkq].
    - rewrite nat_dict_get_set_same, Hq. simpl. unfold get_transition. now rewrite Htr.
    - now rewrite nat_dict_get_set_other by auto. }
  split; [ | split; [ | split; [ | split] ] ].
  - unfold closed. simpl. rewrite Hlen, Hkeys. repeat split; auto.
    + intros k s key t Hs Hin. destruct (Nat.eq_dec k q) as [-> | Hkq].
      * rewrite nat_dict_get_set_same in Hs. injection Hs as <-. rewrite Htr in Hin.
        exact (Ht _ _ _ _ Hq Hin).
      * rewrite nat_dict_get_set_other in Hs by auto. exact (Ht _ _ _ _ Hs Hin).
    + intros k s Hs. destruct (Nat.eq_dec k q) as [-> | Hkq].
      * rewrite nat_dict_get_set_same in Hs. injection Hs as <-.
        destruct (is_accepting final'), (is_rejecting final'); try reflexivity; discriminate.
      * rewrite nat_dict_get_set_other in Hs by auto. exact (Hl _ _ Hs).
  - unfold extends. simpl. rewrite Hlen. repeat split; auto.
    + intros k key t H. now rewrite Hd.
    + intros k (s & Hs & Hxs). unfold labelled. simpl.
      destruct (Nat.eq_dec k q) as [-> | Hkq].
      * exists final'. now rewrite nat_dict_get_set_same.
      * exists s. now rewrite nat_dict_get_set_other by auto.
  - exists final'. simpl. now rewrite nat_dict_get_set_same.
  - exact Hlen.
  - exact Hd.
Qed.

Lemma replay_same_delta T T' :
  (forall k key, delta T' k key = delta T k key) ->
  forall omega q, replay Regions T' q omega = replay Regions T q omega.
Proof.
  intros Hd. induction omega as [ | [sigma tau] omega IH]; intros q; simpl; [reflexivity | ].
  rewrite Hd. destruct (delta T q (sigma, find_region Regions tau)); simpl; auto.
Qed.

Lemma insert_trace_closed S_positive T omega :
  closed T ->
  exists T' q,
    insert_trace Regions S_positive T omega = Some T'
    /\ closed T' /\ extends T T'
    /\ replay Regions T' (initial_state T') omega = Some q
    /\ labelled T' q
    /\ (List.length (states T') <= List.length (states T) + List.length omega)%nat
    /\ (forall done, labels_from Regions S_positive done T ->
                     labels_from Regions S_positive (omega :: done) T').
Proof.
  intros HT.
  destruct (walk_closed omega T (initial_state T) HT (proj1 (proj2 HT)))
    as (T1 & q & Hw & HT1 & He1 & Hq & Hr & Hn & Hkeep).
  destruct (proj2 (closed_get_lt T1 q HT1) Hq) as [final Hfinal].
  unfold insert_trace. rewrite Hw. simpl bind. rewrite Hfinal. simpl bind.
  set (final' := if trace_in omega S_positive then mark_as_accepting final
                 else mark_as_rejecting final).
  assert (Htr : transitions final' = transitions final).
  { unfold final'. destruct (trace_in omega S_positive); reflexivity. }
  assert (Hx : xorb (is_accepting final') (is_rejecting final') = true).
  { unfold final'. destruct (trace_in omega S_positive); reflexivity. }
  destruct (mark_closed T1 q final final' HT1 Hfinal Htr Hx) as (HT2 & He2 & Hlab & Hlen & Hd).
  eexists. exists q. split; [reflexivity | ].
  split; [exact HT2 | ].
  split; [exact (extends_trans _ _ _ He1 He2) | ].
  split.
  - simpl initial_state. rewrite (replay_same_delta _ _ Hd).
    destruct He1 as (Hi & _). rewrite Hi. exact Hr.
  - split; [exact Hlab | ]. split; [rewrite Hlen; exact Hn | ].
    intros done Hdone k s2 Hs2. simpl in Hs2. simpl initial_state.
    assert (Hreplay : replay Regions
                        (mkTAPTA (Dict.set Nat.eqb (states T1) q final') (initial_state T1))
                        (initial_state T1) omega = Some q).
    { rewrite (replay_same_delta _ _ Hd). destruct He1 as (Hi & _). rewrite Hi. exact Hr. }
    destruct (Nat.eq_dec k q) as [-> | Hkq].
    + rewrite nat_dict_get_set_same in Hs2. injection Hs2 as <-.
      unfold final'. destruct (trace_in omega S_positive) eqn:Epos; simpl; split;
        intros Hlabel; try discriminate; exists omega; (split; [now left | ]); auto.
    + rewrite nat_dict_get_set_other in Hs2 by auto.
      destruct (Hkeep k s2 Hs2) as [ (s & Hs & Ha & Hrj) | [Ha Hrj] ].
      * destruct (Hdone k s Hs) as [Hacc Hrej].
        assert (Hlift : forall w, replay Regions T (initial_state T) w = Some k ->
                  replay Regions
                    (mkTAPTA (Dict.set Nat.eqb (states T1) q final') (initial_state T1))
                    (initial_state T1) w = Some k).
        { intros w Hw'. rewrite (replay_same_delta _ _ Hd).
          pose proof He1 as (Hi & _). rewrite Hi.
          exact (replay_extends T T1 He1 _ _ _ Hw'). }
        split; intros Hlabel.
        -- rewrite <- Ha in Hlabel. destruct (Hacc Hlabel) as (w & Hw1 & Hw2 & Hw3).
           exists w. split; [now right | ]. split; [exact Hw2 | now apply Hlift].
        -- rewrite <- Hrj in Hlabel. destruct (Hrej Hlabel) as (w & Hw1 & Hw2 & Hw3).
           exists w. split; [now right | ]. split; [exact Hw2 | now apply Hlift].
      * split; intros Hlabel; congruence.
Qed.

Lemma insert_all_closed S_positive S : forall T,
  closed T ->
  exists T',
    insert_all Regions S_positive T S = Some T'
    /\ closed T' /\ extends T T'
    /\ (forall omega, In omega S ->
          exists q, replay Regions T' (initial_state T') omega = Some q /\ labelled T' q)
    /\ (List.length (states T') <= List.length (states T) + events S)%nat
    /\ (forall done, labels_from Regions S_positive done T ->
                     labels_from Regions S_positive (S ++ done) T').
Proof.
  induction S as [ | omega S IH]; intros T HT.
  - exists T. simpl.
    split; [reflexivity | ]. split; [exact HT | ]. split; [apply extends_refl | ].
    split; [intros omega [] | ]. split; [unfold events; simpl; lia | auto].
  - destruct (insert_trace_closed S_positive T omega HT)
      as (T1 & q & Hi & HT1 & He1 & Hr & Hlab & Hn & Hfrom1).
    destruct (IH T1 HT1) as (T2 & Hall & HT2 & He2 & Hrep & Hn2 & Hfrom2).
    exists T2. simpl insert_all. rewrite Hi. simpl bind.
    split; [exact Hall | ].
    split; [exact HT2 | ].
    split; [exact (extends_trans _ _ _ He1 He2) | ].
    split.
    + intros w [<- | Hw].
      * exists q. pose proof He2 as (Hinit & _ & _ & Hl). rewrite Hinit.
        split; [ | now apply Hl].
        exact (replay_extends T1 T2 He2 _ _ _ Hr).
      * now apply Hrep.
    + split; [unfold events in *; simpl; rewrite length_app; lia | ].
      intros done Hdone.
      pose proof (Hfrom2 (omega :: done) (Hfrom1 done Hdone)) as Hfrom.
      assert (Hin : forall w, In w (S ++ omega :: done) -> In w ((omega :: S) ++ done)).
      { intros w Hw. apply in_app_or in Hw. simpl.
        destruct Hw as [Hw | [Hw | Hw] ]; [right | now left | right];
          apply in_or_app; auto. }
      intros k s Hs. destruct (Hfrom k s Hs) as [Ha Hrj]. split; intros Hlabel.
      * destruct (Ha Hlabel) as (w & Hw & Hrest). exists w. split; [now apply Hin | exact Hrest].
      * destruct (Hrj Hlabel) as (w & Hw & Hrest). exists w. split; [now apply Hin | exact Hrest].
Qed.

End PrefixTree.

Lemma region_alphabet_not_nan kappa r :
  In r (BuildTimedAPTA_Regions kappa) -> Statements.region_not_nan r = true.
Proof.
  intros H. apply In_region_alphabet in H.
  destruct H as [ (k & _ & ->) | [ (k & _ & ->) | ->] ]; reflexivity.
Qed.

Lemma new_TAPTA_closed : TAPTATree.closed TAPTABuild.new_TAPTA.
Proof.
  unfold TAPTATree.closed. cbn. repeat split; auto.
  - intros q s key t. destruct q; [ | discriminate].
    intros H. injection H as <-. simpl. tauto.
  - intros q s. destruct q; [ | discriminate].
    intros H. injection H as <-. reflexivity.
Qed.

(** X9. [BuildTimedAPTA] never fails, whatever the samples. In the tree it
    returns, every sample can be replayed from the initial state with
    [delta] over the regions of its time values, and ends in a state that
    carries exactly one of the labels accepting and rejecting; no state
    carries both, every transition leads to a state of the tree, and the
    tree has at most one state more than the samples have events. *)
Theorem BuildTimedAPTA_prefix_tree (S_positive S_negative : list trace) :
  let Regions := BuildTimedAPTA_Regions (BuildTimedAPTA_kappa S_positive S_negative) in
  exists T,
    TAPTABuild.BuildTimedAPTA S_positive S_negative = Some T
    /\ TAPTATree.closed T
    /\ (forall omega, In omega (S_positive ++ S_negative) ->
          exists q, TAPTABuild.replay Regions T (TAPTABuild.initial_state T) omega = Some q
                    /\ TAPTATree.labelled T q)
    /\ (List.length (TAPTABuild.states T)
        <= 1 + TAPTATree.events (S_positive ++ S_negative))%nat.
Proof.
  intros Regions.
  destruct (insert_all_closed Regions (region_alphabet_not_nan _) S_positive
              (S_positive ++ S_negative) TAPTABuild.new_TAPTA new_TAPTA_closed)
    as (T & Hall & HT & _ & Hrep & Hn & _).
  exists T. repeat split; try apply HT; auto.
Qed.

Lemma trace_eqb_refl omega : TAPTABuild.trace_eqb omega omega = true.
Proof.
  unfold TAPTABuild.trace_eqb. rewrite Nat.eqb_refl. simpl.
  induction omega as [ | [sigma tau] omega IH]; [reflexivity | ].
  simpl. rewrite String.eqb_refl, IH.
  assert (H : Qeq_bool tau tau = true) by (apply Qeq_bool_iff; reflexivity).
  now rewrite H.
Qed.

Lemma trace_in_member omega S : In omega S -> TAPTABuild.trace_in omega S = true.
Proof.
  intros H. unfold TAPTABuild.trace_in. apply existsb_exists.
  exists omega. split; [exact H | apply trace_eqb_refl].
Qed.

(** X28. Every label of the tree that [BuildTimedAPTA] returns comes from
    a sample: an accepting state is the end of the replay of a sample that
    is among the positive samples, and a rejecting state is the end of the
    replay of a negative sample that is not among the positive samples. A
    state in which no sample ends carries no label. *)
Theorem BuildTimedAPTA_labels_from_samples (S_positive S_negative : list trace) :
  let Regions := BuildTimedAPTA_Regions (BuildTimedAPTA_kappa S_positive S_negative) in
  exists T,
    TAPTABuild.BuildTimedAPTA S_positive S_negative = Some T
    /\ forall q s,
         Dict.get Nat.eqb (TAPTABuild.states T) q = Some s ->
         (TAPTABuild.is_accepting s = true ->
          exists omega,
            In omega (S_positive ++ S_negative)
            /\ TAPTABuild.trace_in omega S_positive = true
            /\ TAPTABuild.replay Regions T (TAPTABuild.initial_state T) omega = Some q)
         /\ (TAPTABuild.is_rejecting s = true ->
             exists omega,
               In omega S_negative
               /\ TAPTABuild.trace_in omega S_positive = false
               /\ TAPTABuild.replay Regions T (TAPTABuild.initial_state T) omega = Some q).
Proof.
  intros Regions.
  destruct (insert_all_closed Regions (region_alphabet_not_nan _) S_positive
              (S_positive ++ S_negative) TAPTABuild.new_TAPTA new_TAPTA_closed)
    as (T & Hall & _ & _ & _ & _ & Hfrom).
  exists T. split; [exact Hall | ].
  assert (Hinit : TAPTATree.labels_from Regions S_positive [] TAPTABuild.new_TAPTA).
  { intros q s. cbn. destruct q; [ | discriminate].
    intros H. injection H as <-. split; discriminate. }
  specialize (Hfrom [] Hinit). rewrite app_nil_r in Hfrom.
  intros q s Hs. destruct (Hfrom q s Hs) as [Ha Hr]. split; [exact Ha | ].
  intros Hlabel. destruct (Hr Hlabel) as (omega & Hin & Hneg & Hrep).
  exists omega. split; [ | auto].
  apply in_app_or in Hin. destruct Hin as [Hin | Hin]; [ | exact Hin].
  rewrite (trace_in_member omega S_positive Hin) in Hneg. discriminate.
Qed.

(** ** The labels of [convert_to_3DRTA] *)

Section ConvertLabels.

Import Min3RTA Convert.

Lemma filter_nil {A : Type} (f : A -> bool) (l : list A) :
  (forall x, In x l -> f x = false) -> filter f l = [].
Proof.
  induction l as [ | x l IH]; simpl; intros H; [reflexivity | ].
  rewrite (H x (or_introl eq_refl)). apply IH. intros y Hy. apply H. now right.
Qed.

(** X10. The accepting and rejecting sets that [convert_to_3DRTA] returns
    are disjoint; every node collected in one of the sets is in exactly one
    of the returned sets, a node collected in only one set stays in it, and
    no node gains a label. The second copy of the conflict-resolution block
    finds no conflict and changes nothing. *)
Theorem convert_labels_partition (rta : Min3RTA) (positive_samples negative_samples : list trace) :
  let collected := collect_labels rta in
  let labels := convert_to_3DRTA_labels rta positive_samples negative_samples in
  labels = resolve_conflicts rta positive_samples negative_samples collected
  /\ (forall q, In q (fst labels) -> In q (snd labels) -> False)
  /\ (forall q, In q (fst labels) \/ In q (snd labels)
                <-> In q (fst collected) \/ In q (snd collected))
  /\ (forall q, In q (fst collected) -> ~ In q (snd collected) -> In q (fst labels))
  /\ (forall q, In q (snd collected) -> ~ In q (fst collected) -> In q (snd labels)).
Proof.
  intros collected labels.
  set (first := resolve_conflicts rta positive_samples negative_samples collected).
  assert (Hfirst : forall q,
             (In q (fst first) <->
              In q (fst collected)
              /\ (~ In q (snd collected)
                  \/ resolution_of rta positive_samples negative_samples q = "accepting"%string))
             /\ (In q (snd first) <->
                 In q (snd collected)
                 /\ (~ In q (fst collected)
                     \/ resolution_of rta positive_samples negative_samples q
                        <> "accepting"%string))).
  { intros q. exact (resolve_conflicts_marks rta positive_samples negative_samples q collected). }
  assert (Hdisj : forall q, In q (fst first) -> In q (snd first) -> False).
  { intros q H1 H2. apply (proj1 (Hfirst q)) in H1. apply (proj2 (Hfirst q)) in H2. tauto. }
  assert (Hsame : labels = first).
  { unfold labels, convert_to_3DRTA_labels. fold collected. fold first.
    unfold resolve_conflicts at 1.
    rewrite (filter_nil (fun n => node_in n (snd first)) (fst first)); [reflexivity | ].
    intros q Hq. destruct (node_in q (snd first)) eqn:E; [ | reflexivity].
    apply node_in_In in E. destruct (Hdisj q Hq E). }
  rewrite Hsame. split; [reflexivity | ]. split; [exact Hdisj | ].
  split; [ | split].
  - intros q. destruct (Hfirst q) as [H1 H2]. rewrite H1, H2.
    destruct (in_dec Nat.eq_dec q (fst collected)), (in_dec Nat.eq_dec q (snd collected)),
      (string_dec (resolution_of rta positive_samples negative_samples q) "accepting");
      tauto.
  - intros q Ha Hr. apply (Hfirst q). tauto.
  - intros q Hr Ha. apply (Hfirst q). tauto.
Qed.

End ConvertLabels.

(** ** Runs of the verifier *)

Section VerifierRuns.

Import Verifier.

Lemma run_prefix_shape optimized_transitions ids events :
  forall current_state path' q p,
    run_prefix optimized_transitions ids events current_state path' = Some (q, p) ->
    List.last path' 0%nat = current_state ->
    List.length p = (List.length path' + List.length events)%nat
    /\ List.last p 0%nat = q.
Proof.
  induction events as [ | [symbol timestamp] events IH]; intros current_state path' q p; simpl.
  - intros H Hlast. injection H as <- <-. split; [lia | exact Hlast].
  - destruct (Dict.get String.eqb ids symbol) as [symbol_id | ]; simpl; [ | discriminate].
    destruct (possible_transitions optimized_transitions current_state symbol_id timestamp)
      as [ | target [ | other others] ]; try discriminate.
    intros H _. apply IH in H; [ | apply last_last].
    rewrite length_app in H. simpl in H. destruct H as [Hl Hq]. split; [lia | exact Hq].
Qed.

Lemma simulate_loop_run optimized_transitions accepting_colors ids events :
  forall event_idx current_state path',
    let r := simulate_loop optimized_transitions accepting_colors ids events
                           event_idx current_state path' in
    match run_prefix optimized_transitions ids events current_state path' with
    | Some (q, p) => accepted r = color_in q accepting_colors /\ path r = p
    | None =>
        accepted r = false
        /\ (List.length (path r) < List.length path' + List.length events)%nat
    end.
Proof.
  induction events as [ | [symbol timestamp] events IH]; intros event_idx current_state path'.
  - simpl. split; reflexivity.
  - simpl. destruct (Dict.get String.eqb ids symbol) as [symbol_id | ]; simpl.
    2: { split; [reflexivity | lia]. }
    destruct (possible_transitions optimized_transitions current_state symbol_id timestamp)
      as [ | target [ | other others] ]; simpl.
    + split; [reflexivity | lia].
    + specialize (IH (event_idx + 1)%nat target (path' ++ [target])).
      simpl in IH.
      destruct (run_prefix optimized_transitions ids events target (path' ++ [target]))
        as [ [q p] | ]; [exact IH | ].
      rewrite length_app in IH. simpl in IH. destruct IH as [Ha Hl]. split; [exact Ha | lia].
    + split; [reflexivity | lia].
Qed.

(** X11. [simulate_drta_execution] accepts a sample exactly when every
    event has a known symbol and exactly one enabled transition, and the
    colour reached from colour 0 is accepting. The reported path then has
    one colour more than the sample has events and ends in that colour; when
    the run stops early the sample is rejected and the path is shorter. *)
Theorem simulate_accepts_unique_run (sample : trace) (optimized_transitions : optimized)
        (accepting_colors : list nat) (alphabet : list (string * nat)) :
  let r := simulate_drta_execution sample optimized_transitions accepting_colors alphabet in
  match run_prefix optimized_transitions (symbol_to_id alphabet) sample 0 [0%nat] with
  | Some (q, p) =>
      accepted r = color_in q accepting_colors /\ path r = p
      /\ List.length p = Datatypes.S (List.length sample) /\ List.last p 0%nat = q
  | None =>
      accepted r = false /\ (List.length (path r) <= List.length sample)%nat
  end.
Proof.
  intros r.
  assert (Hr : sample <> [] ->
               r = simulate_loop optimized_transitions accepting_colors
                                 (symbol_to_id alphabet) sample 0 0 [0%nat]).
  { unfold r, simulate_drta_execution. destruct sample; [congruence | reflexivity]. }
  destruct sample as [ | e sample].
  - simpl. repeat split.
  - rewrite Hr by discriminate.
    pose proof (simulate_loop_run optimized_transitions accepting_colors
                  (symbol_to_id alphabet) (e :: sample) 0 0 [0%nat]) as H.
    cbv zeta in H.
    destruct (run_prefix optimized_transitions (symbol_to_id alphabet) (e :: sample) 0 [0%nat])
      as [ [q p] | ] eqn:E.
    + destruct H as [Ha Hp]. split; [exact Ha | ]. split; [exact Hp | ].
      destruct (run_prefix_shape _ _ _ _ _ _ _ E eq_refl) as [Hl Hq].
      split; [ | exact Hq]. rewrite Hl. simpl. lia.
    + destruct H as [Ha Hl]. split; [exact Ha | ]. simpl in Hl. simpl. lia.
Qed.

End VerifierRuns.

(** ** The statistics of [verify_drta_correctness] *)

Section Statistics.

Import Verifier VerifierStats.

Lemma count_fold {A : Type} (f : A -> bool) (l : list A) : forall n,
  fold_left (fun (count : nat) (x : A) => if f x then (count + 1)%nat else count) l n
  = (n + List.length (filter f l))%nat.
Proof.
  induction l as [ | x l IH]; intros n; simpl; [lia | ].
  rewrite IH. destruct (f x); simpl; lia.
Qed.

Lemma filter_length_all {A : Type} (f : A -> bool) (l : list A) :
  List.length (filter f l) = List.length l <-> (forall x, In x l -> f x = true).
Proof.
  induction l as [ | x l IH]; simpl.
  - split; [intros _ x [] | reflexivity].
  - pose proof (filter_length_le f l) as Hle.
    destruct (f x) eqn:E; simpl.
    + split.
      * intros H y [<- | Hy]; [exact E | ]. apply IH; [lia | exact Hy].
      * intros H. f_equal. apply IH. intros y Hy. apply H. now right.
    + split.
      * intros H. lia.
      * intros H. rewrite (H x (or_introl eq_refl)) in E. discriminate.
Qed.

(** X12. The counts of [verify_drta_correctness] never exceed the totals,
    and the reported accuracy is a fraction between 0 and 1 that equals 1
    exactly when there is at least one sample, every positive sample is
    accepted and every negative sample is rejected by
    [simulate_drta_execution]; without samples the accuracy is 0. *)
Theorem verification_accuracy (optimized_transitions : optimized)
        (accepting_colors : list nat) (positive_samples negative_samples : list trace)
        (alphabet : list (string * nat)) :
  let s := verify_drta_correctness optimized_transitions accepting_colors
                                   positive_samples negative_samples alphabet in
  let accepts sample :=
    accepted (simulate_drta_execution sample optimized_transitions accepting_colors alphabet) in
  (positive_correct s <= positive_total s)%nat
  /\ (negative_correct s <= negative_total s)%nat
  /\ 0 <= accuracy s <= 1
  /\ (accuracy s == 1 <->
      (positive_samples ++ negative_samples <> []
       /\ (forall sample, In sample positive_samples -> accepts sample = true)
       /\ (forall sample, In sample negative_samples -> accepts sample = false)))
  /\ (positive_samples ++ negative_samples = [] -> accuracy s == 0).
Proof.
  intros s accepts.
  set (P := List.length (filter accepts positive_samples)).
  set (N := List.length (filter (fun sample => negb (accepts sample)) negative_samples)).
  assert (HP : positive_correct s = P).
  { unfold s, verify_drta_correctness. simpl.
    exact (count_fold accepts positive_samples 0). }
  assert (HN : negative_correct s = N).
  { unfold s, verify_drta_correctness. simpl.
    exact (count_fold (fun sample => negb (accepts sample)) negative_samples 0). }
  assert (HPle : (P <= List.length positive_samples)%nat) by apply filter_length_le.
  assert (HNle : (N <= List.length negative_samples)%nat) by apply filter_length_le.
  assert (Hacc : accuracy s
                 = if Nat.ltb 0 (List.length positive_samples + List.length negative_samples)
                   then inject_Z (Z.of_nat (P + N))
                        / inject_Z (Z.of_nat (List.length positive_samples
                                              + List.length negative_samples))
                   else 0).
  { rewrite <- HP, <- HN. reflexivity. }
  assert (Hall : (P + N = List.length positive_samples + List.length negative_samples)%nat
                 <-> (forall sample, In sample positive_samples -> accepts sample = true)
                     /\ (forall sample, In sample negative_samples -> accepts sample = false)).
  { rewrite <- (filter_length_all accepts positive_samples).
    assert (Hneg : (forall sample, In sample negative_samples -> accepts sample = false)
                   <-> (forall sample, In sample negative_samples ->
                                       negb (accepts sample) = true)).
    { split; intros H x Hx; specialize (H x Hx); destruct (accepts x); auto; discriminate. }
    rewrite Hneg, <- (filter_length_all (fun sample => negb (accepts sample)) negative_samples).
    fold P N. lia. }
  assert (Hempty : positive_samples ++ negative_samples = []
                   <-> (List.length positive_samples + List.length negative_samples = 0)%nat).
  { rewrite <- length_app. split; [intros -> ; reflexivity | apply length_zero_iff_nil]. }
  split; [rewrite HP; exact HPle | ].
  split; [rewrite HN; exact HNle | ].
  rewrite Hacc.
  set (T := (List.length positive_samples + List.length negative_samples)%nat) in *.
  destruct (Nat.ltb 0 T) eqn:ET.
  - apply Nat.ltb_lt in ET.
    assert (HT : 0 < inject_Z (Z.of_nat T)).
    { change 0 with (inject_Z 0). rewrite <- Zlt_Qlt. lia. }
    assert (HC : 0 <= inject_Z (Z.of_nat (P + N))).
    { change 0 with (inject_Z 0). rewrite <- Zle_Qle. lia. }
    assert (HCT : inject_Z (Z.of_nat (P + N)) <= inject_Z (Z.of_nat T)).
    { rewrite <- Zle_Qle. lia. }
    assert (Hone : inject_Z (Z.of_nat (P + N)) / inject_Z (Z.of_nat T) == 1
                   <-> inject_Z (Z.of_nat (P + N)) == inject_Z (Z.of_nat T)).
    { generalize dependent (inject_Z (Z.of_nat (P + N))).
      generalize dependent (inject_Z (Z.of_nat T)). intros t Ht c _ _. split; intros H.
      - rewrite <- (Qmult_div_r c t) by lra. rewrite H. lra.
      - rewrite H. field. lra. }
    split; [split | split].
    + apply Qle_shift_div_l; [exact HT | ].
      generalize dependent (inject_Z (Z.of_nat (P + N))). intros; lra.
    + apply Qle_shift_div_r; [exact HT | ].
      generalize dependent (inject_Z (Z.of_nat (P + N))).
      generalize dependent (inject_Z (Z.of_nat T)). intros; lra.
    + rewrite Hone, Hempty, <- Hall. rewrite inject_Z_injective. lia.
    + rewrite Hempty. lia.
  - apply Nat.ltb_ge in ET. assert (T = 0)%nat by lia.
    split; [lra | split].
    + rewrite Hempty. split; [intros H'; lra | intros [H' _]; lia].
    + reflexivity.
Qed.

End Statistics.

(** ** The optimiser's point test *)

Section PointTest.

Import Verifier Optimizer.

(** X13. On a region that passes the optimiser's non-emptiness test, the
    point test that the optimiser writes out for a protected point agrees
    with the verifier's [is_timestamp_in_region]. *)
Theorem point_test_agrees_with_verifier (r : region_tuple) (t : Q) :
  nonempty_region r = true ->
  point_in (Fin t) r = is_timestamp_in_region t r.
Proof.
  destruct r as [ [ [l u] lc] uc].
  unfold nonempty_region, point_in, is_timestamp_in_region, geb, gtb, leb.
  destruct l as [a | | | ], u as [b | | | ], lc, uc; simpl;
    split_tests_in_goal; intros; try reflexivity; try discriminate;
    exfalso; bool_to_Q; lra.
Qed.

Lemma point_test_agrees_with_verifier_witness :
  nonempty_region (of_Z 1, of_Z 2, true, false) = true
  /\ point_in (Fin 1) (of_Z 1, of_Z 2, true, false)
     = is_timestamp_in_region 1 (of_Z 1, of_Z 2, true, false).
Proof.
  assert (H : nonempty_region (of_Z 1, of_Z 2, true, false) = true) by reflexivity.
  split; [exact H | exact (point_test_agrees_with_verifier _ 1 H)].
Defined.

End PointTest.

(** ** Errors of [accepts] *)

Section AcceptsErrors.

Import DRTA DRTAGraph.

Lemma run_returns (drta : DRTA) :
  graph_closed drta ->
  forall word s, in_graph drta (Some s) = true ->
                 exists b, run drta (Some s) word = Some b.
Proof.
  intros Hclosed. induction word as [ | [symbol' time] word IH]; intros s Hs.
  - simpl. eauto.
  - unfold in_graph, Dict.mem in Hs.
    destruct (Dict.get Nat.eqb (graph drta) s) as [succs | ] eqn:Hget; [ | discriminate].
    cbn [run]. unfold step. cbn [bind]. rewrite Hget. cbn [bind].
    destruct (find _ succs) as [ [target edges] | ] eqn:Hfind; [ | eauto].
    apply find_some in Hfind. destruct Hfind as [Hin _].
    apply IH. exact (Hclosed _ _ _ _ Hget Hin).
Qed.

(** X14. On a graph in which every successor is a state, [accepts] raises
    an exception exactly for a non-empty word and a root that is not a state
    of the graph (in particular a root that is [None]); in every other case
    it returns a Boolean, and for the empty word it never raises. *)
Theorem accepts_raises_only_without_root (drta : DRTA) (word : trace) :
  graph_closed drta ->
  (accepts drta word = None <-> word <> [] /\ in_graph drta (root drta) = false).
Proof.
  intros Hclosed. destruct word as [ | [symbol' time] word].
  - simpl. split; [discriminate | intros [H _]; congruence].
  - change (accepts drta ((symbol', time) :: word))
      with (run drta (root drta) ((symbol', time) :: word)).
    destruct (in_graph drta (root drta)) eqn:Hroot.
    + destruct (root drta) as [r | ] eqn:Er; [ | discriminate].
      destruct (run_returns drta Hclosed ((symbol', time) :: word) r Hroot) as [b Hb].
      rewrite Hb. split; [discriminate | intros [_ H]; discriminate].
    + split; [intros _; split; [discriminate | reflexivity] | intros _].
      cbn [run]. unfold step. destruct (root drta) as [r | ]; cbn [bind]; [ | reflexivity].
      unfold in_graph, Dict.mem in Hroot.
      destruct (Dict.get Nat.eqb (graph drta) r); [discriminate | reflexivity].
Qed.

End AcceptsErrors.

Lemma accepts_raises_only_without_root_witness :
  DRTAGraph.graph_closed (DRTA.mkDRTA [(0%nat, [])] (Some 0%nat) [0%nat] [] [])
  /\ DRTA.accepts (DRTA.mkDRTA [(0%nat, [])] (Some 0%nat) [0%nat] [] []) [("a"%string, 1)]
     <> None.
Proof.
  assert (H : DRTAGraph.graph_closed
                (DRTA.mkDRTA [(0%nat, [])] (Some 0%nat) [0%nat] [] [])).
  { intros s succs target edges Hget Hin. simpl in Hget.
    destruct s; [ | discriminate]. injection Hget as <-. destruct Hin. }
  split; [exact H | ].
  intros Hnone.
  apply (accepts_raises_only_without_root _ _ H) in Hnone.
  destruct Hnone as [_ Hroot]. discriminate Hroot.
Defined.

(** ** Order of numbers and sorted lists *)

Section NumOrder.

Import Statements.

Lemma num_ltb_trans a b c : ltb a b = true -> ltb b c = true -> ltb a c = true.
Proof. destruct a, b, c; decide_num_goal. Qed.

Lemma num_leb_ltb_trans a b c : leb a b = true -> ltb b c = true -> ltb a c = true.
Proof. unfold leb. destruct a, b, c; decide_num_goal. Qed.

Lemma num_ltb_leb_trans a b c : ltb a b = true -> leb b c = true -> ltb a c = true.
Proof. unfold leb. destruct a, b, c; decide_num_goal. Qed.

Lemma num_ltb_not_eqb a b : ltb a b = true -> eqb a b = false.
Proof. destruct a, b; decide_num_goal. Qed.

Lemma num_ltb_asym a b : ltb a b = true -> ltb b a = false.
Proof. destruct a, b; decide_num_goal. Qed.

Lemma num_leb_not_ltb a b : leb a b = true -> ltb b a = false.
Proof. unfold leb. destruct a, b; decide_num_goal. Qed.

Lemma num_eqb_not_ltb a b : eqb a b = true -> ltb a b = false /\ ltb b a = false.
Proof. intros H; split; revert H; destruct a, b; decide_num_goal. Qed.

Lemma num_ltb_total a b :
  not_nan a = true -> not_nan b = true -> ltb a b = false -> leb b a = true.
Proof. unfold leb. destruct a, b; decide_num_goal. Qed.

Lemma num_ltb_not_nan a b : ltb a b = true -> not_nan a = true /\ not_nan b = true.
Proof. destruct a, b; simpl; intros; try discriminate; split; reflexivity. Qed.

Lemma num_leb_refl a : not_nan a = true -> leb a a = true.
Proof. unfold leb. intros H. rewrite (num_eqb_refl a H). apply orb_true_r. Qed.

Lemma insert_by_In {A : Type} (lt : A -> A -> bool) (x : A) (l : list A) y :
  In y (Optimizer.insert_by lt x l) <-> y = x \/ In y l.
Proof.
  induction l as [ | z l IH]; simpl.
  - intuition congruence.
  - destruct (lt z x); simpl; [rewrite IH | ]; intuition congruence.
Qed.

Lemma sort_by_In {A : Type} (lt : A -> A -> bool) (l : list A) y :
  In y (Optimizer.sort_by lt l) <-> In y l.
Proof.
  induction l as [ | z l IH]; simpl; [tauto | ].
  rewrite insert_by_In, IH. intuition congruence.
Qed.

Lemma insert_ascending x l :
  not_nan x = true -> (forall y, In y l -> not_nan y = true) ->
  OptimizerFacts.ascending l -> OptimizerFacts.ascending (Optimizer.insert_by ltb x l).
Proof.
  intros Hx. induction l as [ | z l IH]; intros Hl Hasc; simpl.
  - split; [intros y [] | exact I].
  - destruct Hasc as [Hz Hasc]. destruct (ltb z x) eqn:E; simpl.
    + split.
      * intros y Hy. apply insert_by_In in Hy. destruct Hy as [-> | Hy].
        -- now apply ltb_leb.
        -- now apply Hz.
      * apply IH; [ | exact Hasc]. intros y Hy. apply Hl. now right.
    + assert (Hxz : leb x z = true).
      { apply num_ltb_total; [apply Hl; now left | exact Hx | exact E]. }
      split; [ | split; assumption].
      intros y [<- | Hy]; [exact Hxz | ].
      exact (num_leb_trans _ _ _ Hxz (Hz y Hy)).
Qed.

Lemma sort_ascending l :
  (forall y, In y l -> not_nan y = true) ->
  OptimizerFacts.ascending (Optimizer.sort_by ltb l).
Proof.
  induction l as [ | z l IH]; intros Hl; simpl; [exact I | ].
  apply insert_ascending.
  - apply Hl. now left.
  - intros y Hy. apply sort_by_In in Hy. apply Hl. now right.
  - apply IH. intros y Hy. apply Hl. now right.
Qed.

End NumOrder.

(** ** [split_region_around_points] *)

Section SplitRegion.

Import Statements Verifier Optimizer OptimizerFacts.

Variables lower upper : num.

(** The first loop of [split_region_around_points]. *)
Lemma split_first_pass conflict_points :
  forall internal0 lc0 uc0 internal lc' uc',
    fold_left
      (fun (st : list num * bool * bool) (point : num) =>
         let '(internal_points, lower_closed, upper_closed) := st in
         if ltb lower point && ltb point upper
         then (internal_points ++ [point], lower_closed, upper_closed)
         else if eqb point lower && lower_closed
         then (internal_points, false, upper_closed)
         else if eqb point upper && upper_closed
         then (internal_points, lower_closed, false)
         else st)
      conflict_points (internal0, lc0, uc0) = (internal, lc', uc') ->
    (lc' = true -> lc0 = true) /\ (uc' = true -> uc0 = true)
    /\ (forall p, In p internal <->
                  In p internal0
                  \/ (In p conflict_points /\ ltb lower p && ltb p upper = true))
    /\ (forall p, In p conflict_points -> eqb p lower = true -> lc' = false)
    /\ (eqb lower upper = false ->
        forall p, In p conflict_points -> eqb p upper = true -> uc' = false).
Proof.
  induction conflict_points as [ | point rest IH];
    intros internal0 lc0 uc0 internal lc' uc'; simpl.
  - intros H. injection H as <- <- <-.
    repeat split; try tauto; intros; tauto.
  - set (next := if ltb lower point && ltb point upper
                 then (internal0 ++ [point], lc0, uc0)
                 else if eqb point lower && lc0 then (internal0, false, uc0)
                 else if eqb point upper && uc0 then (internal0, lc0, false)
                 else (internal0, lc0, uc0)).
    destruct next as [ [internal1 lc1] uc1] eqn:Enext.
    intros H. apply IH in H. destruct H as (Hlc & Huc & Hint & Hl & Hu).
    assert (Hstep :
              (lc1 = true -> lc0 = true) /\ (uc1 = true -> uc0 = true)
              /\ (forall p, In p internal1 <->
                            In p internal0
                            \/ (p = point /\ ltb lower p && ltb p upper = true))
              /\ (eqb point lower = true -> lc1 = false)
              /\ (eqb lower upper = false -> eqb point upper = true -> uc1 = false)).
    { unfold next in Enext.
      destruct (ltb lower point && ltb point upper) eqn:Einside.
      - injection Enext as <- <- <-. apply andb_true_iff in Einside.
        destruct Einside as [E1 E2].
        split; [tauto | ]. split; [tauto | ]. split; [ | split].
        + intros p. rewrite in_app_iff. simpl. split.
          * intros [H | [<- | [] ] ]; [tauto | right; split; [reflexivity | ] ].
            now rewrite E1, E2.
          * intros [H | [-> _] ]; tauto.
        + intros H. rewrite num_eqb_sym in H.
          rewrite (num_ltb_not_eqb _ _ E1) in H. discriminate.
        + intros _ H. rewrite (num_ltb_not_eqb _ _ E2) in H. discriminate.
      - assert (Hsame : forall p, In p internal0 <->
                                  In p internal0
                                  \/ (p = point /\ ltb lower p && ltb p upper = true)).
        { intros p. split; [tauto | intros [H | [-> H] ]; [exact H | congruence] ]. }
        destruct (eqb point lower) eqn:El; simpl in Enext.
        + destruct lc0; simpl in Enext.
          * injection Enext as <- <- <-.
            split; [tauto | ]. split; [tauto | ]. split; [exact Hsame | ].
            split; [reflexivity | ].
            intros Hlu Hpu. rewrite num_eqb_sym in El.
            rewrite (num_eqb_trans _ _ _ El Hpu) in Hlu. discriminate.
          * destruct (eqb point upper) eqn:Eu; simpl in Enext.
            -- intros. rewrite num_eqb_sym in El.
               destruct uc0; injection Enext as <- <- <-;
                 (split; [tauto | ]; split; [tauto | ]; split; [exact Hsame | ];
                  split; [reflexivity | ]; intros Hlu _;
                  try reflexivity;
                  rewrite (num_eqb_trans _ _ _ El Eu) in Hlu; discriminate).
            -- injection Enext as <- <- <-.
               split; [tauto | ]. split; [tauto | ]. split; [exact Hsame | ].
               split; [reflexivity | ]. intros _ H. discriminate.
        + destruct (eqb point upper) eqn:Eu; simpl in Enext.
          * destruct uc0; injection Enext as <- <- <-;
              (split; [tauto | ]; split; [tauto | ]; split; [exact Hsame | ];
               split; [intros H; discriminate | ]; intros _ _; reflexivity).
          * injection Enext as <- <- <-.
            split; [tauto | ]. split; [tauto | ]. split; [exact Hsame | ].
            split; intros; discriminate. }
    destruct Hstep as (Slc & Suc & Sint & Sl & Su).
    split; [tauto | ]. split; [tauto | ]. split; [ | split].
    + intros p. rewrite Hint, Sint. split.
      * intros [ [H | [-> H] ] | [H1 H2] ]; auto.
      * intros [H | [ [<- | H1] H2] ]; auto.
    + intros p [<- | Hp] Hpl.
      * destruct lc' ; [ | reflexivity]. rewrite (Sl Hpl) in Hlc. specialize (Hlc eq_refl). discriminate.
      * now apply (Hl p).
    + intros Hlu p [<- | Hp] Hpu.
      * destruct uc' ; [ | reflexivity]. rewrite (Su Hlu Hpu) in Huc. specialize (Huc eq_refl). discriminate.
      * now apply (Hu Hlu p).
Qed.

(** The second loop, over the sorted internal points. *)
Lemma split_second_pass : forall rest done result cl clc result' cl' clc',
    fold_left
      (fun (st : list region_tuple * num * bool) (point : num) =>
         let '(result, current_lower, current_lower_closed) := st in
         let result :=
           if ltb current_lower point
              || (eqb current_lower point && current_lower_closed)
           then result ++ [(current_lower, point, current_lower_closed, false)]
           else result in
         (result, point, false))
      rest (result, cl, clc) = (result', cl', clc') ->
    ascending rest ->
    (forall y, In y rest -> not_nan y = true) ->
    (forall y, In y rest -> leb cl y = true) ->
    (forall x, In x done -> leb x cl = true) ->
    (forall piece, In piece result' ->
       In piece result
       \/ exists a b ca,
            piece = (a, b, ca, false)
            /\ (forall x, In x done \/ In x rest -> ltb a x && ltb x b = false)
            /\ ((a = cl /\ ca = clc) \/ (In a rest /\ ca = false))
            /\ In b rest)
    /\ (forall x, In x done \/ In x rest -> leb x cl' = true)
    /\ ((cl' = cl /\ clc' = clc /\ rest = []) \/ (In cl' rest /\ clc' = false)).
Proof.
  induction rest as [ | point rest IH];
    intros done result cl clc result' cl' clc' H Hasc Hnan Hcl Hdone.
  - simpl in H. injection H as <- <- <-.
    split; [auto | ]. split; [ | auto]. intros x [Hx | [] ]. now apply Hdone.
  - simpl in H. simpl in Hasc. destruct Hasc as [Hhead Hasc].
    assert (Hpoint : leb cl point = true) by (apply Hcl; now left).
    assert (Hrefl : leb point point = true) by (apply num_leb_refl, Hnan; now left).
    assert (Hinside : forall x, In x done \/ In x (point :: rest) ->
                                ltb cl x && ltb x point = false).
    { intros x [Hx | [<- | Hx] ].
      - now rewrite (num_leb_not_ltb _ _ (Hdone x Hx)).
      - rewrite (num_leb_not_ltb _ _ Hrefl). apply andb_false_r.
      - rewrite (num_leb_not_ltb _ _ (Hhead x Hx)). apply andb_false_r. }
    apply (IH (done ++ [point])) in H.
    + destruct H as (Hpieces & Hleb & Hlast).
      split; [ | split].
      * intros piece Hpiece. apply Hpieces in Hpiece.
        destruct Hpiece as [Hpiece | (a & b & ca & -> & Hno & Ha & Hb) ].
        -- destruct (ltb cl point || (eqb cl point && clc)); [ | now left].
           apply in_app_or in Hpiece. destruct Hpiece as [Hpiece | [<- | [] ] ]; [now left | ].
           right. exists cl, point, clc. repeat split; auto. now left.
        -- right. exists a, b, ca. split; [reflexivity | ]. split; [ | split].
           ++ intros x Hx. apply Hno. rewrite in_app_iff. simpl in *. tauto.
           ++ destruct Ha as [ [-> ->] | [Ha ->] ]; right; split; simpl; auto.
           ++ now right.
      * intros x Hx. apply Hleb. rewrite in_app_iff. simpl in *. tauto.
      * right. destruct Hlast as [ (-> & -> & _) | [Hin ->] ]; split; simpl; auto.
    + exact Hasc.
    + intros y Hy. apply Hnan. now right.
    + exact Hhead.
    + intros x Hx. apply in_app_or in Hx. destruct Hx as [Hx | [<- | [] ] ].
      * exact (num_leb_trans _ _ _ (Hdone x Hx) Hpoint).
      * exact Hrefl.
Qed.

(** The pieces avoid the conflict points and stay inside the region. *)
Lemma split_pieces_inside (lower_closed upper_closed : bool)
      (conflict_points : list num) (piece : region_tuple) :
  In piece (split_region_around_points (lower, upper, lower_closed, upper_closed)
                                       conflict_points) ->
  (forall p, In p conflict_points -> point_in p piece = false)
  /\ (forall q, point_in q piece = true ->
                point_in q (lower, upper, lower_closed, upper_closed) = true).
Proof.
  unfold split_region_around_points.
  destruct (is_empty conflict_points) eqn:Eempty.
  { destruct conflict_points; [ | discriminate].
    simpl. intros [<- | [] ]. split; [intros p [] | auto]. }
  destruct (fold_left _ conflict_points ([], lower_closed, upper_closed))
    as [ [internal lc'] uc'] eqn:Efirst.
  apply split_first_pass in Efirst.
  destruct Efirst as (Hlc & Huc & Hint & Hl & Hu).
  assert (Hinternal : forall p, In p internal <->
                                In p conflict_points /\ ltb lower p && ltb p upper = true).
  { intros p. rewrite Hint. simpl. tauto. }
  clear Hint.
  destruct (is_empty internal) eqn:Enone.
  - (* no internal point *)
    destruct internal; [ | discriminate].
    destruct (nonempty_region (lower, upper, lc', uc')) eqn:Enonempty; [ | intros [] ].
    intros [<- | [] ]. unfold nonempty_region in Enonempty. split.
    + intros p Hp. unfold point_in.
      destruct (ltb lower p && ltb p upper) eqn:Einside.
      { destruct (proj2 (Hinternal p) (conj Hp Einside)). }
      simpl.
      destruct (eqb lower p) eqn:Elp; simpl.
      * rewrite num_eqb_sym in Elp. rewrite (Hl p Hp Elp). simpl.
        destruct (eqb upper p) eqn:Eup; simpl; [ | reflexivity].
        destruct uc'; [ | reflexivity].
        rewrite (Hl p Hp Elp) in Enonempty.
        rewrite num_eqb_sym in Elp.
        assert (Elu : eqb lower upper = true).
        { rewrite num_eqb_sym in Eup. exact (num_eqb_trans _ _ _ Elp Eup). }
        rewrite (proj1 (num_eqb_not_ltb _ _ Elu)) in Enonempty.
        rewrite andb_false_r in Enonempty. discriminate.
      * destruct (eqb upper p) eqn:Eup; simpl; [ | reflexivity].
        destruct uc'; [ | reflexivity].
        rewrite num_eqb_sym in Eup.
        destruct (eqb lower upper) eqn:Elu.
        -- rewrite num_eqb_sym in Eup.
           rewrite (num_eqb_trans _ _ _ Elu Eup) in Elp. discriminate.
        -- rewrite (Hu eq_refl p Hp Eup) in Enonempty.
           specialize (Hu eq_refl p Hp Eup). discriminate.
    + intros q. unfold point_in. intros Hq.
      apply orb_true_iff in Hq. destruct Hq as [Hq | Hq].
      * apply orb_true_iff in Hq. destruct Hq as [Hq | Hq].
        -- rewrite Hq. reflexivity.
        -- apply andb_true_iff in Hq. destruct Hq as [Hq1 Hq2].
           rewrite Hq1, (Hlc Hq2). simpl. rewrite ?orb_true_r. reflexivity.
      * apply andb_true_iff in Hq. destruct Hq as [Hq1 Hq2].
        rewrite Hq1, (Huc Hq2). simpl. rewrite ?orb_true_r. reflexivity.
  - (* internal points *)
    set (sorted := sort_by ltb internal).
    assert (Hsorted : forall x, In x sorted <->
                                In x conflict_points /\ ltb lower x && ltb x upper = true).
    { intros x. unfold sorted. rewrite sort_by_In. apply Hinternal. }
    assert (Hlow : forall x, In x sorted -> ltb lower x = true).
    { intros x Hx. apply Hsorted in Hx. destruct Hx as [_ Hx].
      apply andb_true_iff in Hx. tauto. }
    assert (Hup : forall x, In x sorted -> ltb x upper = true).
    { intros x Hx. apply Hsorted in Hx. destruct Hx as [_ Hx].
      apply andb_true_iff in Hx. tauto. }
    assert (Hsome : exists x0, In x0 sorted).
    { destruct internal as [ | x0 internal']; [discriminate | ].
      exists x0. unfold sorted. apply sort_by_In. now left. }
    destruct Hsome as [x0 Hx0].
    assert (Hlu : ltb lower upper = true)
      by exact (num_ltb_trans _ _ _ (Hlow x0 Hx0) (Hup x0 Hx0)).
    assert (Elu : eqb lower upper = false) by exact (num_ltb_not_eqb _ _ Hlu).
    specialize (Hu Elu).
    destruct (fold_left _ sorted ([], lower, lc')) as [ [result cl'] clc'] eqn:Esecond.
    apply (split_second_pass sorted []) in Esecond.
    2: { unfold sorted. apply sort_ascending. intros y Hy.
         apply Hinternal in Hy. destruct Hy as [_ Hy]. apply andb_true_iff in Hy.
         exact (proj2 (num_ltb_not_nan _ _ (proj1 Hy))). }
    2: { intros y Hy. exact (proj2 (num_ltb_not_nan _ _ (Hlow y Hy))). }
    2: { intros y Hy. apply ltb_leb. now apply Hlow. }
    2: { intros x []. }
    destruct Esecond as (Hpieces & Hleb & Hlast).
    destruct Hlast as [ (_ & _ & Hnil) | [Hcl' ->] ].
    { rewrite Hnil in Hx0. destruct Hx0. }
    assert (Hgood : forall a b ca cb,
               (forall x, In x sorted -> ltb a x && ltb x b = false) ->
               leb lower a = true -> leb b upper = true ->
               (ca = true -> a = lower /\ lc' = true) ->
               (cb = true -> b = upper /\ uc' = true) ->
               (forall p, In p conflict_points -> point_in p (a, b, ca, cb) = false)
               /\ (forall q, point_in q (a, b, ca, cb) = true ->
                             point_in q (lower, upper, lower_closed, upper_closed) = true)).
    { intros a b ca cb Hno Ha Hb Hca Hcb. split.
      - intros p Hp. unfold point_in.
        destruct (ltb a p && ltb p b) eqn:Einside.
        { apply andb_true_iff in Einside. destruct Einside as [E1 E2].
          assert (Hin : In p sorted).
          { apply Hsorted. split; [exact Hp | ].
            rewrite (num_leb_ltb_trans _ _ _ Ha E1), (num_ltb_leb_trans _ _ _ E2 Hb).
            reflexivity. }
          specialize (Hno p Hin). rewrite E1, E2 in Hno. discriminate. }
        simpl.
        destruct (eqb a p && ca) eqn:Ea; simpl.
        { apply andb_true_iff in Ea. destruct Ea as [Ea Eca].
          destruct (Hca Eca) as [-> Hlc']. rewrite num_eqb_sym in Ea.
          rewrite (Hl p Hp Ea) in Hlc'. discriminate. }
        destruct (eqb b p && cb) eqn:Eb; [ | reflexivity].
        apply andb_true_iff in Eb. destruct Eb as [Eb Ecb].
        destruct (Hcb Ecb) as [-> Huc']. rewrite num_eqb_sym in Eb.
        rewrite (Hu p Hp Eb) in Huc'. discriminate.
      - intros q. unfold point_in. intros Hq.
        apply orb_true_iff in Hq. destruct Hq as [Hq | Hq].
        + apply orb_true_iff in Hq. destruct Hq as [Hq | Hq].
          * apply andb_true_iff in Hq. destruct Hq as [E1 E2].
            rewrite (num_leb_ltb_trans _ _ _ Ha E1), (num_ltb_leb_trans _ _ _ E2 Hb).
            reflexivity.
          * apply andb_true_iff in Hq. destruct Hq as [Hq1 Hq2].
            destruct (Hca Hq2) as [-> Hlc'].
            rewrite Hq1, (Hlc Hlc'). simpl. rewrite ?orb_true_r. reflexivity.
        + apply andb_true_iff in Hq. destruct Hq as [Hq1 Hq2].
          destruct (Hcb Hq2) as [-> Huc'].
          rewrite Hq1, (Huc Huc'). simpl. rewrite ?orb_true_r. reflexivity. }
    assert (Hupper_refl : leb upper upper = true).
    { apply num_leb_refl. exact (proj2 (num_ltb_not_nan _ _ Hlu)). }
    assert (Hlower_refl : leb lower lower = true).
    { apply num_leb_refl. exact (proj1 (num_ltb_not_nan _ _ Hlu)). }
    assert (Hloop : forall piece', In piece' result ->
               (forall p, In p conflict_points -> point_in p piece' = false)
               /\ (forall q, point_in q piece' = true ->
                             point_in q (lower, upper, lower_closed, upper_closed) = true)).
    { intros piece' Hpiece'. apply Hpieces in Hpiece'.
      destruct Hpiece' as [ [] | (a & b & ca & -> & Hno & Ha & Hb) ].
      apply Hgood.
      - intros x Hx. apply Hno. now right.
      - destruct Ha as [ [-> _] | [Ha _] ]; [exact Hlower_refl | ].
        apply ltb_leb. now apply Hlow.
      - apply ltb_leb. now apply Hup.
      - intros Hca. destruct Ha as [ [-> ->] | [_ ->] ]; [auto | discriminate].
      - discriminate. }
    assert (Hfinal : (forall p, In p conflict_points ->
                                point_in p (cl', upper, false, uc') = false)
                     /\ (forall q, point_in q (cl', upper, false, uc') = true ->
                                   point_in q (lower, upper, lower_closed, upper_closed)
                                   = true)).
    { apply Hgood.
      - intros x Hx. rewrite (num_leb_not_ltb _ _ (Hleb x (or_intror Hx))). reflexivity.
      - apply ltb_leb. now apply Hlow.
      - exact Hupper_refl.
      - discriminate.
      - intros ->. auto. }
    intros Hpiece. apply filter_In in Hpiece. destruct Hpiece as [Hpiece _].
    destruct (ltb cl' upper || (eqb cl' upper && false && uc')).
    + apply in_app_or in Hpiece. destruct Hpiece as [Hpiece | [<- | [] ] ].
      * now apply Hloop.
      * exact Hfinal.
    + now apply Hloop.
Qed.

End SplitRegion.

(** X15. No piece that [split_region_around_points] returns contains one
    of the conflict points, in the sense of the optimiser's own point test,
    and a piece contains no point that the split region does not contain. *)
Theorem split_pieces_avoid_points (r : Verifier.region_tuple)
        (conflict_points : list num) (piece : Verifier.region_tuple) :
  In piece (Optimizer.split_region_around_points r conflict_points) ->
  (forall p, In p conflict_points -> Optimizer.point_in p piece = false)
  /\ (forall q, Optimizer.point_in q piece = true -> Optimizer.point_in q r = true).
Proof.
  destruct r as [ [ [lower upper] lower_closed] upper_closed].
  apply split_pieces_inside.
Qed.

Lemma split_pieces_avoid_points_witness :
  In (of_Z 1, of_Z 2, false, true)
     (Optimizer.split_region_around_points (of_Z 0, of_Z 2, true, true) [of_Z 1])
  /\ Optimizer.point_in (of_Z 1) (of_Z 1, of_Z 2, false, true) = false.
Proof.
  assert (H : In (of_Z 1, of_Z 2, false, true)
                 (Optimizer.split_region_around_points (of_Z 0, of_Z 2, true, true)
                                                       [of_Z 1]))
    by (vm_compute; right; left; reflexivity).
  split; [exact H | ].
  apply (proj1 (split_pieces_avoid_points _ _ _ H)). left. reflexivity.
Defined.

(** ** Depth of the gap filling *)

Section GapFilling.

Import Verifier Optimizer.

Lemma gap_conflicts_In gap protected_points p :
  In p (gap_conflicts gap protected_points)
  <-> exists c, In (p, c) protected_points /\ point_in p gap = true.
Proof.
  unfold gap_conflicts. rewrite in_flat_map. split.
  - intros ( [p' c] & Hin & Hp). simpl in Hp.
    destruct (point_in p' gap) eqn:E; [ | destruct Hp].
    destruct Hp as [<- | [] ]. eauto.
  - intros (c & Hin & Hp). exists (p, c). split; [exact Hin | ].
    simpl. rewrite Hp. now left.
Qed.

Lemma gap_conflicts_nil gap protected_points :
  (forall p c, In (p, c) protected_points -> point_in p gap = false) ->
  gap_conflicts gap protected_points = [].
Proof.
  intros H. destruct (gap_conflicts gap protected_points) as [ | p l] eqn:E; [reflexivity | ].
  assert (Hp : In p (gap_conflicts gap protected_points)) by (rewrite E; now left).
  apply gap_conflicts_In in Hp. destruct Hp as (c & Hin & Hp).
  rewrite (H p c Hin) in Hp. discriminate.
Qed.

(** The pieces of a gap split around its protected points hold no
    protected point. *)
Lemma sub_gaps_without_conflicts gap protected_points sub_gap :
  In sub_gap (split_region_around_points gap (gap_conflicts gap protected_points)) ->
  gap_conflicts sub_gap protected_points = [].
Proof.
  intros Hsub. destruct gap as [ [ [lower upper] lower_closed] upper_closed].
  apply split_pieces_inside in Hsub. destruct Hsub as [Havoid Hinside].
  apply gap_conflicts_nil. intros p c Hin.
  destruct (point_in p sub_gap) eqn:E; [ | reflexivity].
  rewrite <- E. apply Havoid. apply gap_conflicts_In. exists c.
  split; [exact Hin | ]. now apply Hinside.
Qed.

(** Gaps without protected points are assigned without a nested call. *)
Lemma fill_gaps_flat fuel protected_points gaps :
  (forall gap, In gap gaps -> gap_conflicts gap protected_points = []) ->
  forall optimized_regions,
    exists filled,
      fill_gaps_in_regions_protected (Datatypes.S fuel) optimized_regions gaps
                                     protected_points = Some filled.
Proof.
  intros Hflat optimized_regions. simpl.
  destruct (is_empty gaps); [eauto | ].
  destruct (is_empty optimized_regions); [eauto | ].
  generalize (sort_by
                (fun a b : nat =>
                   Nat.ltb (region_count optimized_regions a)
                           (region_count optimized_regions b))
                (map fst optimized_regions)).
  intros target_colors. revert optimized_regions.
  induction gaps as [ | gap rest IH]; intros optimized_regions; [eauto | ].
  destruct gap as [ [ [gap_lower gap_upper] gap_lower_closed] gap_upper_closed].
  destruct (eqb gap_lower gap_upper && negb (gap_lower_closed && gap_upper_closed)).
  - apply IH. intros g Hg. apply Hflat. now right.
  - rewrite (Hflat _ (or_introl eq_refl)). simpl.
    apply IH. intros g Hg. apply Hflat. now right.
Qed.

(** A nested call only happens for the pieces of a gap, which hold no
    protected point: two levels are enough for any list of gaps. *)
Lemma fill_gaps_returns fuel protected_points gaps :
  forall optimized_regions,
    exists filled,
      fill_gaps_in_regions_protected (Datatypes.S (Datatypes.S fuel)) optimized_regions gaps
                                     protected_points = Some filled.
Proof.
  intros optimized_regions.
  change (fill_gaps_in_regions_protected (Datatypes.S (Datatypes.S fuel)) optimized_regions
                                         gaps protected_points)
    with (if is_empty gaps then Some optimized_regions
          else if is_empty optimized_regions then Some optimized_regions
          else
            let target_colors :=
              sort_by (fun a b => Nat.ltb (region_count optimized_regions a)
                                          (region_count optimized_regions b))
                      (map fst optimized_regions) in
            (fix each_gap (gaps : list region_tuple) (optimized_regions : targets)
               : option targets :=
               match gaps with
               | [] => Some optimized_regions
               | gap :: rest =>
                   let '(gap_lower, gap_upper, gap_lower_closed, gap_upper_closed) := gap in
                   if eqb gap_lower gap_upper && negb (gap_lower_closed && gap_upper_closed)
                   then each_gap rest optimized_regions
                   else
                     let conflicts := gap_conflicts gap protected_points in
                     if negb (is_empty conflicts) then
                       let sub_gaps := split_region_around_points gap conflicts in
                       optimized_regions <-
                         fill_gaps_in_regions_protected (Datatypes.S fuel) optimized_regions
                                                        sub_gaps protected_points ;;
                       each_gap rest optimized_regions
                     else
                       each_gap rest
                                (assign_gap optimized_regions target_colors gap
                                            protected_points)
               end) gaps optimized_regions).
  destruct (is_empty gaps); [eauto | ].
  destruct (is_empty optimized_regions); [eauto | ].
  cbv zeta.
  generalize (sort_by
                (fun a b : nat =>
                   Nat.ltb (region_count optimized_regions a)
                           (region_count optimized_regions b))
                (map fst optimized_regions)).
  intros target_colors. revert optimized_regions.
  induction gaps as [ | gap rest IH]; intros optimized_regions; [eauto | ].
  destruct gap as [ [ [gap_lower gap_upper] gap_lower_closed] gap_upper_closed].
  destruct (eqb gap_lower gap_upper && negb (gap_lower_closed && gap_upper_closed)).
  - apply IH.
  - destruct (negb (is_empty (gap_conflicts
                                (gap_lower, gap_upper, gap_lower_closed, gap_upper_closed)
                                protected_points))).
    + destruct (fill_gaps_flat fuel protected_points
                  (split_region_around_points
                     (gap_lower, gap_upper, gap_lower_closed, gap_upper_closed)
                     (gap_conflicts
                        (gap_lower, gap_upper, gap_lower_closed, gap_upper_closed)
                        protected_points))
                  (fun sub_gap Hsub =>
                     sub_gaps_without_conflicts _ protected_points sub_gap Hsub)
                  optimized_regions) as [filled Hfilled].
      rewrite Hfilled. cbn [bind]. apply IH.
    + apply IH.
Qed.

Lemma optimize_group_returns parsed_transitions color_from' symbol' trans_group :
  exists optimized_regions,
    optimize_group parsed_transitions color_from' symbol' trans_group
    = Some optimized_regions.
Proof.
  unfold optimize_group. cbv zeta.
  match goal with
  | |- context [if ?c then _ else _] => destruct c
  end; [ | eauto].
  apply (fill_gaps_returns 998).
Qed.

Lemma optimize_groups_return parsed_transitions groups :
  forall acc, exists optimized_transitions,
    fold_left
      (fun (acc : option optimized) (entry : (nat * string) * list parsed_transition) =>
         all_optimized_transitions <- acc ;;
         let '((color_from', symbol'), trans_group) := entry in
         optimized_regions <-
           optimize_group parsed_transitions color_from' symbol' trans_group ;;
         Some (Dict.set group_key_eqb all_optimized_transitions
                        (color_from', symbol') optimized_regions))
      groups (Some acc) = Some optimized_transitions.
Proof.
  induction groups as [ | [ [color_from' symbol'] trans_group] groups IH]; intros acc.
  - simpl. eauto.
  - simpl fold_left. cbn [bind].
    destruct (optimize_group_returns parsed_transitions color_from' symbol' trans_group)
      as [optimized_regions ->].
    cbn [bind]. apply IH.
Qed.

(** X16. [optimize_transitions_new] always returns: the gap filling calls
    itself only for the pieces of a gap split around its protected points,
    and these pieces hold no protected point, so the nesting of
    [fill_gaps_in_regions_protected] never exceeds two levels and the
    recursion limit is never reached. *)
Theorem optimizer_always_returns (parsed_transitions : list parsed_transition) :
  (exists optimized_transitions,
      optimize_transitions_new parsed_transitions = Some optimized_transitions)
  /\ (forall fuel optimized_regions gaps protected_points,
         fill_gaps_in_regions_protected (2 + fuel) optimized_regions gaps protected_points
         <> None).
Proof.
  split.
  - apply optimize_groups_return.
  - intros fuel optimized_regions gaps protected_points.
    destruct (fill_gaps_returns fuel protected_points gaps optimized_regions) as [filled H].
    simpl plus. rewrite H. discriminate.
Qed.

End GapFilling.

(** ** [merge_adjacent_regions_protected] *)

Section MergeAdjacent.

Import Statements Verifier Optimizer OptimizerFacts.

Lemma merged_region_covers (r1 r2 : region_tuple) (t : Q) :
  bounds_not_nan r1 = true -> bounds_not_nan r2 = true ->
  is_timestamp_in_region t r1 = true \/ is_timestamp_in_region t r2 = true ->
  is_timestamp_in_region t (merged_region r1 r2) = true.
Proof.
  destruct r1 as [ [ [l1 u1] lc1] uc1], r2 as [ [ [l2 u2] lc2] uc2].
  unfold bounds_not_nan. rewrite !andb_true_iff.
  intros [Hl1 Hu1] [Hl2 Hu2].
  unfold is_timestamp_in_region, merged_region.
  intros H.
  assert (Hlow : (if lc1 then ltb (Fin t) l1 else leb (Fin t) l1) = false
                 \/ (if lc2 then ltb (Fin t) l2 else leb (Fin t) l2) = false).
  { destruct H as [H | H]; [left | right];
      match type of H with
      | (if ?c then _ else _) = true => destruct c; [discriminate | reflexivity]
      end. }
  assert (Hupp : (if lc1 then ltb (Fin t) l1 else leb (Fin t) l1) = false
                 /\ (if uc1 then gtb (Fin t) u1 else geb (Fin t) u1) = false
                 \/ (if lc2 then ltb (Fin t) l2 else leb (Fin t) l2) = false
                    /\ (if uc2 then gtb (Fin t) u2 else geb (Fin t) u2) = false).
  { destruct H as [H | H]; [left | right];
      match type of H with
      | (if ?c then _ else if ?d then _ else _) = true =>
          destruct c; [discriminate | destruct d; [discriminate | split; reflexivity] ]
      end. }
  clear H Hlow.
  assert (L : (if (if eqb l1 l2 then lc1 || lc2
                   else if eqb (min l1 l2) l1 then lc1 else lc2)
               then ltb (Fin t) (min l1 l2) else leb (Fin t) (min l1 l2)) = false).
  { unfold min, gtb, geb, leb in *. clear Hu1 Hu2.
    destruct Hupp as [ [H _] | [H _] ]; revert H Hl1 Hl2;
      destruct l1 as [a | | | ], l2 as [b | | | ], lc1, lc2;
      simpl; split_tests_in_goal; intros; try reflexivity; try discriminate;
      exfalso; bool_to_Q; lra. }
  assert (U : (if (if eqb u1 u2 then uc1 || uc2
                   else if eqb (max u1 u2) u1 then uc1 else uc2)
               then gtb (Fin t) (max u1 u2) else geb (Fin t) (max u1 u2)) = false).
  { unfold max, gtb, geb, leb in *. clear Hl1 Hl2 L.
    destruct Hupp as [ [_ H] | [_ H] ]; revert H Hu1 Hu2;
      destruct u1 as [a | | | ], u2 as [b | | | ], uc1, uc2;
      simpl; split_tests_in_goal; intros; try reflexivity; try discriminate;
      exfalso; bool_to_Q; lra. }
  rewrite L, U. reflexivity.
Qed.

Lemma merged_region_not_nan (r1 r2 : region_tuple) :
  bounds_not_nan r1 = true -> bounds_not_nan r2 = true ->
  bounds_not_nan (merged_region r1 r2) = true.
Proof.
  destruct r1 as [ [ [l1 u1] lc1] uc1], r2 as [ [ [l2 u2] lc2] uc2].
  unfold bounds_not_nan, merged_region, min, max, gtb. rewrite !andb_true_iff.
  intros [Hl1 Hu1] [Hl2 Hu2].
  destruct (ltb l2 l1), (ltb u1 u2); auto.
Qed.

Lemma merge_from_covers protected_points target_color t : forall rest r1,
  (forall r, In r (r1 :: rest) -> bounds_not_nan r = true) ->
  covered t (r1 :: rest) ->
  covered t (merge_from r1 rest protected_points target_color).
Proof.
  induction rest as [ | r2 rest IH]; intros r1 Hnan Hcov; [exact Hcov | ].
  simpl. destruct (can_merge r1 r2 protected_points target_color).
  - apply IH.
    + intros r [<- | Hr].
      * apply merged_region_not_nan; apply Hnan; simpl; auto.
      * apply Hnan. simpl. auto.
    + destruct Hcov as (r & Hr & Ht).
      destruct Hr as [E | [E | Hr] ].
      * subst r. exists (merged_region r1 r2). split; [now left | ].
        apply merged_region_covers; [apply Hnan .. | ]; simpl; auto.
      * subst r. exists (merged_region r1 r2). split; [now left | ].
        apply merged_region_covers; [apply Hnan .. | ]; simpl; auto.
      * exists r. split; [now right | exact Ht].
  - destruct Hcov as (r & Hr & Ht). destruct Hr as [E | Hr].
    + subst r. exists r1. split; [now left | exact Ht].
    + destruct (IH r2) as (r' & Hr' & Ht').
      * intros r0 Hr0. apply Hnan. now right.
      * exists r. split; assumption.
      * exists r'. split; [now right | exact Ht'].
Qed.

Lemma merge_from_length protected_points target_color : forall rest r1,
  (List.length (merge_from r1 rest protected_points target_color)
   <= Datatypes.S (List.length rest))%nat.
Proof.
  induction rest as [ | r2 rest IH]; intros r1; simpl; [lia | ].
  destruct (can_merge r1 r2 protected_points target_color).
  - specialize (IH (merged_region r1 r2)). lia.
  - specialize (IH r2). simpl. lia.
Qed.

(** X17. Merging neighbours loses nothing: when the bounds of the regions
    are numbers, every time value that lies in one of the regions given to
    [merge_adjacent_regions_protected] lies in one of the regions it leaves,
    and it leaves no more regions than it was given. *)
Theorem merge_adjacent_keeps_coverage (regions : list region_tuple)
        (protected_points : list (num * nat)) (target_color : nat) (t : Q) :
  (forall r, In r regions -> bounds_not_nan r = true) ->
  (covered t regions ->
   covered t (merge_adjacent_regions_protected regions protected_points target_color))
  /\ (List.length (merge_adjacent_regions_protected regions protected_points target_color)
      <= List.length regions)%nat.
Proof.
  intros Hnan. destruct regions as [ | r1 rest]; simpl.
  - split; [auto | lia].
  - split; [now apply merge_from_covers | apply merge_from_length].
Qed.

Lemma merge_adjacent_keeps_coverage_witness :
  covered (3 # 2)
          (merge_adjacent_regions_protected
             [(of_Z 0, of_Z 1, true, true); (of_Z 1, of_Z 2, false, false)] [] 0).
Proof.
  apply (merge_adjacent_keeps_coverage
           [(of_Z 0, of_Z 1, true, true); (of_Z 1, of_Z 2, false, false)] [] 0 (3 # 2)).
  - intros r [<- | [<- | [] ] ]; reflexivity.
  - exists (of_Z 1, of_Z 2, false, false). split; [right; left; reflexivity | reflexivity].
Defined.

Lemma existsb_false_In {A : Type} (f : A -> bool) (l : list A) x :
  existsb f l = false -> In x l -> f x = false.
Proof.
  intros H Hx. destruct (f x) eqn:E; [ | reflexivity].
  rewrite <- H. symmetry. apply existsb_exists. eauto.
Qed.

(** A closed end point of the merged region is a closed end point of the
    region that the protection check looks at, or of one of the two regions. *)
Lemma merged_lower_flag l1 l2 (lc1 lc2 : bool) p :
  eqb (min l1 l2) p
  && (if eqb l1 l2 then lc1 || lc2 else if eqb (min l1 l2) l1 then lc1 else lc2) = true ->
  eqb (min l1 l2) p && (if eqb (min l1 l2) l1 then lc1 else lc2) = true
  \/ eqb l1 p && lc1 = true \/ eqb l2 p && lc2 = true.
Proof.
  destruct (eqb l1 l2) eqn:E; [ | tauto].
  unfold min. rewrite (proj2 (num_eqb_not_ltb _ _ E)).
  rewrite andb_true_iff. intros [Hp H]. apply orb_true_iff in H.
  destruct H as [-> | ->]; right; [left | right].
  - now rewrite Hp.
  - rewrite num_eqb_sym in E. now rewrite (num_eqb_trans _ _ _ E Hp).
Qed.

Lemma merged_upper_flag u1 u2 (uc1 uc2 : bool) p :
  eqb (max u1 u2) p
  && (if eqb u1 u2 then uc1 || uc2 else if eqb (max u1 u2) u1 then uc1 else uc2) = true ->
  eqb (max u1 u2) p && (if eqb (max u1 u2) u1 then uc1 else uc2) = true
  \/ eqb u1 p && uc1 = true \/ eqb u2 p && uc2 = true.
Proof.
  destruct (eqb u1 u2) eqn:E; [ | tauto].
  unfold max, gtb. rewrite (proj1 (num_eqb_not_ltb _ _ E)).
  rewrite andb_true_iff. intros [Hp H]. apply orb_true_iff in H.
  destruct H as [-> | ->]; right; [left | right].
  - now rewrite Hp.
  - rewrite num_eqb_sym in E. now rewrite (num_eqb_trans _ _ _ E Hp).
Qed.

(** A merge that is allowed swallows no point of another colour. *)
Lemma merged_region_protects (r1 r2 : region_tuple) (protected_points : list (num * nat))
      (target_color : nat) (p : num) (c : nat) :
  can_merge r1 r2 protected_points target_color = true ->
  In (p, c) protected_points -> c <> target_color ->
  point_in p (merged_region r1 r2) = true ->
  point_in p r1 = true \/ point_in p r2 = true.
Proof.
  destruct r1 as [ [ [l1 u1] lc1] uc1], r2 as [ [ [l2 u2] lc2] uc2].
  intros Hcan Hin Hc Hp.
  destruct (point_in p (l1, u1, lc1, uc1)) eqn:E1; [now left | ].
  destruct (point_in p (l2, u2, lc2, uc2)) eqn:E2; [now right | ].
  exfalso.
  unfold can_merge in Hcan.
  match type of Hcan with
  | (if negb (existsb ?f protected_points) then _ else _) = true =>
      destruct (existsb f protected_points) eqn:Eblocked;
        [discriminate | pose proof (existsb_false_In f protected_points (p, c) Eblocked Hin)
                          as Hentry ]
  end.
  clear Hcan Eblocked. cbv beta iota in Hentry.
  apply Nat.eqb_neq in Hc. rewrite Hc in Hentry. cbn [negb] in Hentry.
  rewrite E1, E2 in Hentry. cbn [negb] in Hentry. rewrite !andb_true_r in Hentry.
  unfold point_in in E1, E2.
  apply orb_false_iff in E1. destruct E1 as [E1 E1u].
  apply orb_false_iff in E1. destruct E1 as [_ E1l].
  apply orb_false_iff in E2. destruct E2 as [E2 E2u].
  apply orb_false_iff in E2. destruct E2 as [_ E2l].
  unfold merged_region, point_in in Hp. unfold point_in in Hentry.
  apply orb_false_iff in Hentry. destruct Hentry as [Hentry Hu].
  apply orb_false_iff in Hentry. destruct Hentry as [Hinside Hl].
  rewrite Hinside in Hp. cbn [orb] in Hp.
  apply orb_true_iff in Hp. destruct Hp as [Hp | Hp].
  - apply merged_lower_flag in Hp. destruct Hp as [Hp | [Hp | Hp] ]; congruence.
  - apply merged_upper_flag in Hp. destruct Hp as [Hp | [Hp | Hp] ]; congruence.
Qed.

Lemma merge_from_protects protected_points target_color p c :
  In (p, c) protected_points -> c <> target_color ->
  forall rest r1,
    (forall r, In r (r1 :: rest) -> point_in p r = false) ->
    forall r', In r' (merge_from r1 rest protected_points target_color) ->
               point_in p r' = false.
Proof.
  intros Hin Hc. induction rest as [ | r2 rest IH]; intros r1 Hout r' Hr'.
  - apply Hout. exact Hr'.
  - simpl in Hr'. destruct (can_merge r1 r2 protected_points target_color) eqn:Hcan.
    + apply (IH (merged_region r1 r2)); [ | exact Hr'].
      intros r [E | Hr].
      * subst r. destruct (point_in p (merged_region r1 r2)) eqn:E; [ | reflexivity].
        destruct (merged_region_protects _ _ _ _ _ _ Hcan Hin Hc E) as [H | H].
        -- rewrite Hout in H; [discriminate | now left].
        -- rewrite Hout in H; [discriminate | right; now left].
      * apply Hout. right. now right.
    + destruct Hr' as [E | Hr'].
      * subst r'. apply Hout. now left.
      * apply (IH r2); [ | exact Hr']. intros r Hr. apply Hout. now right.
Qed.

Lemma merge_adjacent_respects_protected_points_core (regions : list region_tuple)
      (protected_points : list (num * nat)) (target_color : nat) (p : num) (c : nat) :
  In (p, c) protected_points -> c <> target_color ->
  (forall r, In r regions -> point_in p r = false) ->
  forall r', In r' (merge_adjacent_regions_protected regions protected_points target_color) ->
             point_in p r' = false.
Proof.
  intros Hin Hc Hout r' Hr'. destruct regions as [ | r1 rest]; [destruct Hr' | ].
  exact (merge_from_protects _ _ _ _ Hin Hc rest r1 Hout r' Hr').
Qed.

(** X18. Merging neighbours respects protected points: a protected point of
    another colour that lies in none of the regions given to
    [merge_adjacent_regions_protected] lies in none of the regions it
    leaves. *)
Theorem merge_adjacent_respects_protected_points (regions : list region_tuple)
        (protected_points : list (num * nat)) (target_color : nat) (p : num) (c : nat) :
  In (p, c) protected_points -> c <> target_color ->
  (forall r, In r regions -> point_in p r = false) ->
  forall r', In r' (merge_adjacent_regions_protected regions protected_points target_color) ->
             point_in p r' = false.
Proof. apply merge_adjacent_respects_protected_points_core. Qed.

Lemma merge_adjacent_respects_protected_points_witness :
  merge_adjacent_regions_protected
    [(of_Z 0, of_Z 1, true, false); (of_Z 1, of_Z 2, false, true)] [(of_Z 1, 1%nat)] 0
  = [(of_Z 0, of_Z 1, true, false); (of_Z 1, of_Z 2, false, true)]
  /\ point_in (of_Z 1) (of_Z 1, of_Z 2, false, true) = false.
Proof.
  split; [vm_compute; reflexivity | ].
  apply (merge_adjacent_respects_protected_points
           [(of_Z 0, of_Z 1, true, false); (of_Z 1, of_Z 2, false, true)]
           [(of_Z 1, 1%nat)] 0 (of_Z 1) 1).
  - left. reflexivity.
  - discriminate.
  - intros r [<- | [<- | [] ] ]; reflexivity.
  - vm_compute. right. left. reflexivity.
Defined.

End MergeAdjacent.

(** ** Groups with a single target colour *)

Section SingleTarget.

Import Verifier Optimizer.

Lemma group_key_eqb_eq a b : group_key_eqb a b = true <-> a = b.
Proof.
  destruct a as [n s], b as [m s']. unfold group_key_eqb. simpl.
  rewrite andb_true_iff, Nat.eqb_eq, String.eqb_eq. split.
  - intros [-> ->]. reflexivity.
  - intros H. injection H as -> ->. auto.
Qed.

Section EqDict.

Context {K V : Type}.
Variable keq : K -> K -> bool.
Hypothesis keq_eq : forall a b, keq a b = true <-> a = b.

Lemma eq_dict_get_set_same (d : list (K * V)) k v :
  Dict.get keq (Dict.set keq d k v) k = Some v.
Proof. apply dict_get_set_same. now apply keq_eq. Qed.

Lemma eq_dict_get_set_other (d : list (K * V)) k k0 v :
  k <> k0 -> Dict.get keq (Dict.set keq d k v) k0 = Dict.get keq d k0.
Proof.
  intros H. apply dict_get_set_other.
  - intros a b. destruct (keq a b) eqn:E1, (keq b a) eqn:E2; try reflexivity.
    + apply keq_eq in E1. subst. assert (keq b b = true) by now apply keq_eq. congruence.
    + apply keq_eq in E2. subst. assert (keq a a = true) by now apply keq_eq. congruence.
  - intros a b c E1 E2. apply keq_eq in E1, E2. apply keq_eq. congruence.
  - destruct (keq k k0) eqn:E; [ | reflexivity]. apply keq_eq in E. contradiction.
Qed.

Lemma eq_dict_get_key (d : list (K * V)) k v :
  Dict.get keq d k = Some v -> In (k, v) d.
Proof.
  induction d as [ | [k' v'] d IH]; simpl; [discriminate | ].
  destruct (keq k' k) eqn:E.
  - apply keq_eq in E. subst. intros H. injection H as ->. now left.
  - intros H. right. now apply IH.
Qed.

Lemma eq_dict_get_none (d : list (K * V)) k :
  Dict.get keq d k = None -> ~ In k (map fst d).
Proof.
  induction d as [ | [k' v'] d IH]; simpl; [tauto | ].
  destruct (keq k' k) eqn:E; [discriminate | ].
  intros H [Hk | Hk]; [ | now apply IH].
  subst. assert (keq k k = true) by now apply keq_eq. congruence.
Qed.

Lemma eq_dict_set_keys (d : list (K * V)) k v :
  map fst (Dict.set keq d k v)
  = match Dict.get keq d k with
    | Some _ => map fst d
    | None => map fst d ++ [k]
    end.
Proof.
  induction d as [ | [k' v'] d IH]; simpl; [reflexivity | ].
  destruct (keq k' k) eqn:E; simpl; [reflexivity | ].
  rewrite IH. destruct (Dict.get keq d k); reflexivity.
Qed.

Lemma eq_dict_set_NoDup (d : list (K * V)) k v :
  NoDup (map fst d) -> NoDup (map fst (Dict.set keq d k v)).
Proof.
  intros H. rewrite eq_dict_set_keys.
  destruct (Dict.get keq d k) eqn:E; [exact H | ].
  apply eq_dict_get_none in E.
  apply NoDup_app; [exact H | constructor; [intros [] | constructor] | ].
  intros x Hx [<- | [] ]. contradiction.
Qed.

Lemma eq_dict_lookup_unique (d : list (K * V)) k v {B : Type} (g : K -> V -> list B) :
  NoDup (map fst d) -> Dict.get keq d k = Some v ->
  flat_map (fun entry : K * V => if keq (fst entry) k then g (fst entry) (snd entry) else [])
           d
  = g k v.
Proof.
  induction d as [ | [k' v'] d IH]; simpl; [discriminate | ].
  intros Hnd Hget. inversion Hnd as [ | ? ? Hnotin Hnd']. subst.
  destruct (keq k' k) eqn:E.
  - apply keq_eq in E. subst. injection Hget as ->.
    assert (Hrest : flat_map (fun entry : K * V =>
                                if keq (fst entry) k then g (fst entry) (snd entry) else [])
                             d = []).
    { clear - Hnotin keq_eq. induction d as [ | [k1 v1] d IH]; simpl; [reflexivity | ].
      simpl in Hnotin. destruct (keq k1 k) eqn:E.
      - apply keq_eq in E. tauto.
      - apply IH. tauto. }
    rewrite Hrest. apply app_nil_r.
  - now apply IH.
Qed.

End EqDict.

Lemma group_by_source_get (key : nat * string) : forall parsed_transitions d,
  Dict.get group_key_eqb
    (fold_left
       (fun d (trans : parsed_transition) =>
          let key := (color_from trans, symbol trans) in
          match Dict.get group_key_eqb d key with
          | None => Dict.set group_key_eqb d key [trans]
          | Some group => Dict.set group_key_eqb d key (group ++ [trans])
          end)
       parsed_transitions d) key
  = let members :=
      filter (fun trans => group_key_eqb (color_from trans, symbol trans) key)
             parsed_transitions in
    match Dict.get group_key_eqb d key with
    | Some group => Some (group ++ members)
    | None => match members with [] => None | _ => Some members end
    end.
Proof.
  induction parsed_transitions as [ | trans rest IH]; intros d; cbv zeta.
  - simpl. destruct (Dict.get group_key_eqb d key); [now rewrite app_nil_r | reflexivity].
  - simpl fold_left. rewrite IH. cbv zeta. simpl filter.
    destruct (group_key_eqb (color_from trans, symbol trans) key) eqn:E.
    + apply group_key_eqb_eq in E. rewrite E.
      destruct (Dict.get group_key_eqb d key) as [group | ].
      * rewrite (eq_dict_get_set_same group_key_eqb group_key_eqb_eq).
        now rewrite <- app_assoc.
      * rewrite (eq_dict_get_set_same group_key_eqb group_key_eqb_eq). reflexivity.
    + assert (Hne : (color_from trans, symbol trans) <> key).
      { intros H. apply group_key_eqb_eq in H. congruence. }
      destruct (Dict.get group_key_eqb d (color_from trans, symbol trans));
        rewrite (eq_dict_get_set_other group_key_eqb group_key_eqb_eq) by exact Hne;
        reflexivity.
Qed.

Lemma group_by_source_NoDup : forall parsed_transitions d,
  NoDup (map fst d) ->
  NoDup (map fst
           (fold_left
              (fun d (trans : parsed_transition) =>
                 let key := (color_from trans, symbol trans) in
                 match Dict.get group_key_eqb d key with
                 | None => Dict.set group_key_eqb d key [trans]
                 | Some group => Dict.set group_key_eqb d key (group ++ [trans])
                 end)
              parsed_transitions d)).
Proof.
  induction parsed_transitions as [ | trans rest IH]; intros d Hd; [exact Hd | ].
  simpl fold_left. apply IH. cbv zeta.
  destruct (Dict.get group_key_eqb d (color_from trans, symbol trans));
    apply (eq_dict_set_NoDup group_key_eqb group_key_eqb_eq); exact Hd.
Qed.

(** The dictionary that the main loop fills: every group's result is stored
    under the group's key. *)
Lemma optimize_groups_store parsed_transitions : forall groups acc,
  NoDup (map fst acc) ->
  exists optimized_transitions,
    fold_left
      (fun (acc : option optimized) (entry : (nat * string) * list parsed_transition) =>
         all_optimized_transitions <- acc ;;
         let '((color_from', symbol'), trans_group) := entry in
         optimized_regions <-
           optimize_group parsed_transitions color_from' symbol' trans_group ;;
         Some (Dict.set group_key_eqb all_optimized_transitions
                        (color_from', symbol') optimized_regions))
      groups (Some acc) = Some optimized_transitions
    /\ NoDup (map fst optimized_transitions)
    /\ (forall key, ~ In key (map fst groups) ->
                    Dict.get group_key_eqb optimized_transitions key
                    = Dict.get group_key_eqb acc key)
    /\ (NoDup (map fst groups) ->
        forall key trans_group, In (key, trans_group) groups ->
          Some (Dict.get group_key_eqb optimized_transitions key)
          = option_map Some
              (optimize_group parsed_transitions (fst key) (snd key) trans_group)).
Proof.
  induction groups as [ | [ [color_from' symbol'] trans_group] groups IH]; intros acc Hacc.
  - exists acc. simpl. repeat split; auto. intros _ key trans_group [].
  - simpl fold_left. cbn [bind].
    destruct (optimize_group_returns parsed_transitions color_from' symbol' trans_group)
      as [optimized_regions Hgroup].
    rewrite Hgroup. cbn [bind].
    destruct (IH (Dict.set group_key_eqb acc (color_from', symbol') optimized_regions))
      as (optimized_transitions & Hfold & Hnd & Hother & Hstored).
    { apply (eq_dict_set_NoDup group_key_eqb group_key_eqb_eq). exact Hacc. }
    exists optimized_transitions. split; [exact Hfold | ]. split; [exact Hnd | ]. split.
    + intros key Hkey. simpl in Hkey. rewrite Hother by tauto.
      apply (eq_dict_get_set_other group_key_eqb group_key_eqb_eq). tauto.
    + intros Hgroups key trans_group' Hin. simpl in Hgroups.
      inversion Hgroups as [ | ? ? Hnotin Hgroups']. subst.
      destruct Hin as [Hin | Hin].
      * injection Hin as <- <-. simpl fst. simpl snd. rewrite Hgroup. simpl.
        rewrite Hother by exact Hnotin.
        now rewrite (eq_dict_get_set_same group_key_eqb group_key_eqb_eq).
      * now apply Hstored.
Qed.

Lemma group_by_target_single (c : nat) : forall trans_group group0,
  (forall trans, In trans trans_group -> color_to trans = c) ->
  fold_left
    (fun d (trans : parsed_transition) =>
       match Dict.get Nat.eqb d (color_to trans) with
       | None => Dict.set Nat.eqb d (color_to trans) [trans]
       | Some group => Dict.set Nat.eqb d (color_to trans) (group ++ [trans])
       end)
    trans_group [(c, group0)]
  = [(c, group0 ++ trans_group)].
Proof.
  induction trans_group as [ | trans rest IH]; intros group0 Hc.
  - simpl. now rewrite app_nil_r.
  - cbn [fold_left]. rewrite (Hc trans (or_introl eq_refl)).
    cbn [Dict.get]. rewrite Nat.eqb_refl. cbn [Dict.set]. rewrite Nat.eqb_refl.
    rewrite IH.
    + now rewrite <- app_assoc.
    + intros t Ht. apply Hc. now right.
Qed.

Lemma dict_get_value {K V : Type} (keq : K -> K -> bool) (d : list (K * V)) k v :
  Dict.get keq d k = Some v -> exists k', In (k', v) d.
Proof.
  induction d as [ | [k' v'] d IH]; simpl; [discriminate | ].
  destruct (keq k' k).
  - intros H. injection H as ->. eauto.
  - intros H. destruct (IH H) as [k0 H0]. eauto.
Qed.

Lemma group_protected_points_colors parsed_transitions color_from' symbol' only_zero c :
  (forall trans, In trans parsed_transitions ->
                 color_from trans = color_from' -> symbol trans = symbol' ->
                 color_to trans = c) ->
  forall k v,
    In (k, v) (group_protected_points parsed_transitions color_from' symbol' only_zero) ->
    v = c.
Proof.
  unfold group_protected_points. intros Hc.
  assert (Hgen : forall l d,
             (forall trans, In trans l -> In trans parsed_transitions) ->
             (forall k v, In (k, v) d -> v = c) ->
             forall k v,
               In (k, v)
                  (fold_left
                     (fun d (trans : parsed_transition) =>
                        if group_key_eqb (color_from trans, symbol trans)
                                         (color_from', symbol') then
                          let '(lower, upper, lower_closed, upper_closed) := region trans in
                          if is_exact_point (region trans)
                             && (if only_zero then eqb lower (of_Z 0) else true)
                          then Dict.set eqb d (if only_zero then of_Z 0 else lower)
                                        (color_to trans)
                          else d
                        else d)
                     l d) -> v = c).
  { induction l as [ | trans rest IH]; intros d Hsub Hd k v; simpl; [apply Hd | ].
    apply IH.
    - intros t Ht. apply Hsub. now right.
    - destruct (group_key_eqb (color_from trans, symbol trans) (color_from', symbol')) eqn:E;
        [ | exact Hd].
      apply group_key_eqb_eq in E. injection E as E1 E2.
      destruct (region trans) as [ [ [lower upper] lower_closed] upper_closed].
      destruct (is_exact_point (lower, upper, lower_closed, upper_closed)
                && (if only_zero then eqb lower (of_Z 0) else true)); [ | exact Hd].
      intros k1 v1 Hin. apply dict_set_entries in Hin.
      destruct Hin as [Hin | [-> _] ]; [now apply (Hd k1) | ].
      apply Hc; auto. apply Hsub. now left. }
  apply Hgen; [auto | intros k v [] ].
Qed.

(** A group whose transitions all lead to colour [c] gets the one region
    [[0, inf)]. *)
Lemma optimize_group_single_target parsed_transitions color_from' symbol' trans_group c :
  trans_group <> [] ->
  (forall trans, In trans trans_group -> color_to trans = c) ->
  (forall trans, In trans parsed_transitions ->
                 color_from trans = color_from' -> symbol trans = symbol' ->
                 color_to trans = c) ->
  optimize_group parsed_transitions color_from' symbol' trans_group
  = Some [(c, [(of_Z 0, PInf, true, false)])].
Proof.
  intros Hne Hgroup Hall. unfold optimize_group.
  assert (Htarget : group_by_target trans_group = [(c, trans_group)]).
  { unfold group_by_target. destruct trans_group as [ | trans rest]; [congruence | ].
    simpl fold_left. rewrite (Hgroup trans (or_introl eq_refl)).
    rewrite (group_by_target_single c rest [trans]); [reflexivity | ].
    intros t Ht. apply Hgroup. now right. }
  rewrite Htarget. cbv zeta.
  assert (Hzero : match Dict.get eqb (group_protected_points parsed_transitions color_from'
                                                            symbol' true) (of_Z 0) with
                  | None => true
                  | Some c0 => Nat.eqb c0 c
                  end = true).
  { destruct (Dict.get eqb _ (of_Z 0)) as [c0 | ] eqn:E; [ | reflexivity].
    apply dict_get_value in E. destruct E as [k' Hin].
    apply (group_protected_points_colors _ _ _ _ c Hall) in Hin. subst.
    apply Nat.eqb_refl. }
  rewrite Hzero. reflexivity.
Qed.

End SingleTarget.

(** X19. A pair of a source colour and a symbol whose transitions all lead
    to one target colour is given the single region [[0, inf)] by
    [optimize_transitions_new]: in the optimised relation every time value
    from 0 on enables exactly the transition to that colour, and a negative
    time value enables none. *)
Theorem single_target_covers_time_axis
        (parsed_transitions : list Optimizer.parsed_transition)
        (color_from' : nat) (symbol' : string) (c : nat) :
  (exists trans, In trans parsed_transitions
                 /\ Optimizer.color_from trans = color_from'
                 /\ Optimizer.symbol trans = symbol') ->
  (forall trans, In trans parsed_transitions ->
                 Optimizer.color_from trans = color_from' ->
                 Optimizer.symbol trans = symbol' ->
                 Optimizer.color_to trans = c) ->
  exists optimized_transitions,
    Optimizer.optimize_transitions_new parsed_transitions = Some optimized_transitions
    /\ Dict.get Optimizer.group_key_eqb optimized_transitions (color_from', symbol')
       = Some [(c, [(of_Z 0, PInf, true, false)])]
    /\ (forall t, 0 <= t ->
                  Verifier.possible_transitions optimized_transitions color_from' symbol' t
                  = [c])
    /\ (forall t, t < 0 ->
                  Verifier.possible_transitions optimized_transitions color_from' symbol' t
                  = []).
Proof.
  intros (trans0 & Hin0 & Hfrom0 & Hsym0) Hall.
  set (key := (color_from', symbol')).
  set (members := filter (fun trans => Optimizer.group_key_eqb
                                         (Optimizer.color_from trans, Optimizer.symbol trans)
                                         key)
                         parsed_transitions).
  assert (Hmember : forall trans, In trans members <->
                      In trans parsed_transitions
                      /\ Optimizer.color_from trans = color_from'
                      /\ Optimizer.symbol trans = symbol').
  { intros trans. unfold members. rewrite filter_In, group_key_eqb_eq. unfold key.
    split; intros [H1 H2]; split; auto.
    - injection H2 as -> ->. auto.
    - destruct H2 as [-> ->]. reflexivity. }
  assert (Hnonempty : members <> []).
  { intros H. assert (Hm : In trans0 members) by (apply Hmember; auto).
    rewrite H in Hm. destruct Hm. }
  assert (Hget : Dict.get Optimizer.group_key_eqb
                          (Optimizer.group_by_source parsed_transitions) key
                 = Some members).
  { unfold Optimizer.group_by_source. rewrite group_by_source_get. cbv zeta. simpl Dict.get.
    fold members. destruct members; [congruence | reflexivity]. }
  assert (Hnodup : NoDup (map fst (Optimizer.group_by_source parsed_transitions))).
  { apply group_by_source_NoDup. constructor. }
  destruct (optimize_groups_store parsed_transitions
              (Optimizer.group_by_source parsed_transitions) [] (NoDup_nil _))
    as (optimized_transitions & Hfold & Hkeys & _ & Hstored).
  exists optimized_transitions. split; [exact Hfold | ].
  assert (Hentry : Dict.get Optimizer.group_key_eqb optimized_transitions key
                   = Some [(c, [(of_Z 0, PInf, true, false)])]).
  { specialize (Hstored Hnodup key members
                        (eq_dict_get_key _ group_key_eqb_eq _ _ _ Hget)).
    unfold key in Hstored at 2 3. simpl fst in Hstored. simpl snd in Hstored.
    rewrite (optimize_group_single_target parsed_transitions color_from' symbol' members c)
      in Hstored.
    - simpl in Hstored. now injection Hstored.
    - exact Hnonempty.
    - intros trans Ht. apply Hmember in Ht. destruct Ht as (H1 & H2 & H3). now apply Hall.
    - exact Hall. }
  split; [exact Hentry | ].
  assert (Hpossible : forall t,
             Verifier.possible_transitions optimized_transitions color_from' symbol' t
             = if Verifier.is_timestamp_in_region t (of_Z 0, PInf, true, false)
               then [c] else []).
  { intros t. unfold Verifier.possible_transitions.
    set (G := fun (_ : nat * string) (target_regions : Verifier.targets) =>
                flat_map
                  (fun tr : nat * list Verifier.region_tuple =>
                     let '(target_state, regions) := tr in
                     flat_map (fun r => if Verifier.is_timestamp_in_region t r
                                        then [target_state] else [])
                              regions)
                  target_regions).
    transitivity (flat_map (fun entry : (nat * string) * Verifier.targets =>
                              if Optimizer.group_key_eqb (fst entry) key
                              then G (fst entry) (snd entry) else [])
                           optimized_transitions).
    { apply flat_map_ext. intros [ [state_from sym] target_regions]. reflexivity. }
    rewrite (eq_dict_lookup_unique Optimizer.group_key_eqb group_key_eqb_eq
               optimized_transitions key _ G Hkeys Hentry).
    unfold G. simpl. now rewrite !app_nil_r. }
  split; intros t Ht; rewrite Hpossible; unfold Verifier.is_timestamp_in_region, geb, leb;
    simpl; destruct (Qltb t (inject_Z 0)) eqn:E; try reflexivity;
    exfalso; bool_to_Q; change (inject_Z 0) with 0 in *; lra.
Qed.

Lemma single_target_covers_time_axis_witness :
  exists optimized_transitions,
    Optimizer.optimize_transitions_new
      [Optimizer.mkParsed "a" (of_Z 1, of_Z 2, false, false) "(1, 2)" 0 1
                          "trans_a_(1, 2)_0_1"]
    = Some optimized_transitions
    /\ Verifier.possible_transitions optimized_transitions 0 "a" 0 = [1%nat].
Proof.
  destruct (single_target_covers_time_axis
              [Optimizer.mkParsed "a" (of_Z 1, of_Z 2, false, false) "(1, 2)" 0 1
                                  "trans_a_(1, 2)_0_1"] 0 "a" 1)
    as (optimized_transitions & Hrun & _ & Hcover & _).
  - eexists. split; [left; reflexivity | split; reflexivity].
  - intros trans [<- | [] ] _ _. reflexivity.
  - exists optimized_transitions. split; [exact Hrun | apply Hcover; lra].
Defined.

(** ** The region of an inserted event *)

Section SuffixRegion.

Import Min3RTA.

Lemma suffix_region_contains_iff (time max_time : Q) :
  contains (suffix_region time max_time) time = true
  <-> 0 <= time \/ time == inject_Z (int time).
Proof.
  unfold suffix_region.
  destruct (Qeq_bool time (inject_Z (int time))) eqn:Eint.
  - apply Qeq_bool_iff in Eint. split; [auto | intros _].
    assert (E1 : Qeq_bool (inject_Z (int time)) time = true).
    { apply Qeq_bool_iff. now symmetry. }
    assert (E2 : Qeq_bool time (inject_Z (int time)) = true) by now apply Qeq_bool_iff.
    destruct (Qltb (Qabs (time - max_time)) (1 # 1000));
      unfold contains, geb, gtb, leb, of_Z; cbn [lower upper lower_inclusive upper_inclusive];
      simpl; rewrite ?E1, ?E2, ?orb_true_r; reflexivity.
  - apply Qeqb_neq in Eint.
    assert (Hlow : Qltb (inject_Z (int time)) time = true <-> 0 <= time).
    { rewrite Qltb_lt. split.
      - intros H. destruct (Qlt_le_dec time 0) as [Hneg | Hpos]; [ | exact Hpos].
        rewrite int_neg_ceiling in H by lra.
        pose proof (Qle_ceiling time). lra.
      - intros H. rewrite int_nonneg_floor in * by exact H.
        pose proof (Qfloor_le time) as Hfl.
        destruct (Qle_lt_or_eq _ _ Hfl) as [Hlt | Heq]; [exact Hlt | ].
        destruct Eint. now symmetry. }
    assert (Hup : 0 <= time -> Qltb time (inject_Z (int time + 1)) = true).
    { intros H. apply Qltb_lt. rewrite int_nonneg_floor by exact H. apply Qlt_floor. }
    destruct (Qltb (Qabs (time - max_time)) (1 # 1000));
      unfold contains, geb, gtb, leb, of_Z; cbn [lower upper lower_inclusive upper_inclusive];
      simpl; split.
    + rewrite andb_true_r. intros H. left. now apply Hlow.
    + intros [H | H]; [ | contradiction]. rewrite andb_true_r. now apply Hlow.
    + intros H. apply andb_true_iff in H. left. now apply Hlow.
    + intros [H | H]; [ | contradiction].
      rewrite (proj2 Hlow H), (Hup H). reflexivity.
Qed.

(** X20. The region that [add_suffix] gives to a time value contains the
    time value exactly when the time value is non-negative or an integer: a
    negative time that is not an integer is given a region to the right of
    it, because [int] truncates toward zero. *)
Theorem suffix_region_contains_time (time max_time : Q) :
  contains (suffix_region time max_time) time = true
  <-> 0 <= time \/ time == inject_Z (int time).
Proof. apply suffix_region_contains_iff. Qed.

End SuffixRegion.

(** ** The choice of [last_child_with_symbol] *)

Section LastChild.

Import Min3RTA.

Lemma last_child_scan symbol t :
  forall (items seen : list (tkey * nat)) best_match best_region,
  (match best_match with
   | Some target => exists region, In ((symbol, region), target) seen
                                   /\ contains region t = true
   | None => forall region target, In ((symbol, region), target) seen ->
                                   contains region t = false
   end) ->
  match fst (fold_left
               (fun (best : option nat * option Region) (item : tkey * nat) =>
                  let '((sym, region), target_node) := item in
                  let '(best_match, best_region) := best in
                  if String.eqb sym symbol
                     && (match Some t with
                         | None => true
                         | Some t => contains region t
                         end)
                  then
                    if (match best_match with None => true | Some _ => false end)
                       || _is_more_specific_region region best_region
                    then (Some target_node, Some region)
                    else best
                  else best)
               items (best_match, best_region)) with
  | Some target => exists region, (In ((symbol, region), target) seen
                                   \/ In ((symbol, region), target) items)
                                  /\ contains region t = true
  | None => forall region target, In ((symbol, region), target) seen
                                  \/ In ((symbol, region), target) items ->
                                  contains region t = false
  end.
Proof.
  induction items as [ | [ [sym region] target_node] items IH];
    intros seen best_match best_region Hseen.
  - simpl. destruct best_match as [target | ].
    + destruct Hseen as (r & Hin & Hr). eauto.
    + intros r target [Hin | [] ]. now apply (Hseen r target).
  - cbn [fold_left].
    assert (Hnext : forall bm br,
               (match bm with
                | Some target =>
                    exists r, In ((symbol, r), target) (((sym, region), target_node) :: seen)
                              /\ contains r t = true
                | None =>
                    forall r target,
                      In ((symbol, r), target) (((sym, region), target_node) :: seen) ->
                      contains r t = false
                end) ->
               match fst (fold_left
                            (fun (best : option nat * option Region) (item : tkey * nat) =>
                               let '((sym, region), target_node) := item in
                               let '(best_match, best_region) := best in
                               if String.eqb sym symbol
                                  && (match Some t with
                                      | None => true
                                      | Some t => contains region t
                                      end)
                               then
                                 if (match best_match with None => true | Some _ => false end)
                                    || _is_more_specific_region region best_region
                                 then (Some target_node, Some region)
                                 else best
                               else best)
                            items (bm, br)) with
               | Some target =>
                   exists r, (In ((symbol, r), target) seen
                              \/ In ((symbol, r), target)
                                    (((sym, region), target_node) :: items))
                             /\ contains r t = true
               | None =>
                   forall r target,
                     In ((symbol, r), target) seen
                     \/ In ((symbol, r), target) (((sym, region), target_node) :: items) ->
                     contains r t = false
               end).
    { intros bm br H. specialize (IH (((sym, region), target_node) :: seen) bm br H).
      destruct (fst (fold_left _ items (bm, br))) as [target | ].
      - destruct IH as (r & Hin & Hr). exists r. split; [ | exact Hr].
        simpl in *. tauto.
      - intros r target Hin. apply (IH r target). simpl in *. tauto. }
    destruct (String.eqb sym symbol && contains region t) eqn:Ematch.
    + apply andb_true_iff in Ematch. destruct Ematch as [Esym Econt].
      apply String.eqb_eq in Esym. subst sym.
      destruct ((match best_match with None => true | Some _ => false end)
                || _is_more_specific_region region best_region) eqn:Ebetter.
      * apply Hnext. exists region. split; [now left | exact Econt].
      * apply Hnext. destruct best_match as [target | ]; [ | discriminate].
        destruct Hseen as (r & Hin & Hr). exists r. split; [now right | exact Hr].
    + apply Hnext. destruct best_match as [target | ].
      * destruct Hseen as (r & Hin & Hr). exists r. split; [now right | exact Hr].
      * intros r target [Hin | Hin]; [ | now apply (Hseen r target)].
        injection Hin as -> -> _. rewrite String.eqb_refl in Ematch. exact Ematch.
Qed.

(** X21. [last_child_with_symbol] with a time value returns a target only
    of a transition of the node on that symbol whose region contains the
    time value, and it returns [None] only when the node has no such
    transition. *)
Theorem last_child_with_symbol_enabled (self : RegionTreeNode) (symbol : string) (t : Q) :
  match last_child_with_symbol self symbol (Some t) with
  | Some target => exists region, In ((symbol, region), target) (transitions self)
                                  /\ contains region t = true
  | None => forall region target, In ((symbol, region), target) (transitions self) ->
                                  contains region t = false
  end.
Proof.
  unfold last_child_with_symbol.
  pose proof (last_child_scan symbol t (transitions self) [] None None) as H.
  cbv beta in H.
  destruct (fst (fold_left _ (transitions self) (None, None))) as [target | ].
  - destruct H as (r & [ [] | Hin] & Hr); [intros r0 t0 [] | ]. eauto.
  - intros r target Hin. apply (H (fun _ _ H0 => match H0 with end) r target). now right.
Qed.

End LastChild.

(** ** The path inserted by [add_suffix] *)

Section AddSuffix.

Import Min3RTA Convert.









End AddSuffix.


(** ** Models of the colour constraints *)

Section ColourConstraints.

Import Encoding EncodingClauses.

Lemma grows_refl enc : grows enc enc.
Proof. repeat split; auto. Qed.

Lemma grows_trans enc1 enc2 enc3 : grows enc1 enc2 -> grows enc2 enc3 -> grows enc1 enc3.
Proof.
  intros (A1 & A2 & A3) (B1 & B2 & B3). repeat split; [congruence | auto | auto].
Qed.

Lemma add_hard_constraint_grows enc constraint description :
  grows enc (add_hard_constraint enc constraint description)
  /\ In constraint (solver (add_hard_constraint enc constraint description)).
Proof.
  unfold grows, add_hard_constraint, variables_wf. simpl. repeat split; auto.
  - intros f Hf. apply in_or_app. now left.
  - apply in_or_app. right. now left.
Qed.

Lemma string_set_new {V : Type} (d : list (string * V)) k v :
  Dict.get String.eqb d k = None -> Dict.set String.eqb d k v = d ++ [(k, v)].
Proof.
  induction d as [ | [k' v'] d IH]; simpl; [reflexivity | ].
  destruct (String.eqb k' k); [discriminate | ].
  intros H. f_equal. now apply IH.
Qed.

Lemma new_variable_wf enc var_name :
  variables_wf enc ->
  Dict.get String.eqb (variables enc) var_name = None ->
  variables_wf
    (mkEncoding (positive_samples enc) (n_colors enc)
                (Dict.set String.eqb (variables enc) var_name (FVar var_name))
                (solver enc) (hard_constraints enc) (soft_constraints enc) (clauses enc)).
Proof.
  intros Hwf Hnone name var. simpl. rewrite (string_set_new _ _ _ Hnone).
  intros Hin. apply in_app_or in Hin. destruct Hin as [Hin | [Hin | [] ] ].
  - now apply Hwf.
  - now injection Hin as <- <-.
Qed.

Lemma color_node_grows enc node color :
  grows enc (fst (color_node enc node color))
  /\ solver (fst (color_node enc node color)) = solver enc
  /\ (variables_wf enc -> snd (color_node enc node color) = FVar (color_node_name node color)).
Proof.
  unfold color_node.
  destruct (Dict.get String.eqb (variables enc) (color_node_name node color))
    as [var | ] eqn:E; simpl.
  - split; [apply grows_refl | ]. split; [reflexivity | ].
    intros Hwf. apply string_dict_get_key in E. now apply Hwf.
  - split; [ | auto]. repeat split; auto.
    intros Hwf. now apply new_variable_wf.
Qed.

Lemma color_accepting_grows enc color :
  grows enc (fst (color_accepting enc color))
  /\ solver (fst (color_accepting enc color)) = solver enc
  /\ (variables_wf enc ->
      snd (color_accepting enc color) = FVar ("accepting_" ++ str_nat color)%string).
Proof.
  unfold color_accepting.
  destruct (Dict.get String.eqb (variables enc) ("accepting_" ++ str_nat color)%string)
    as [var | ] eqn:E; simpl.
  - split; [apply grows_refl | ]. split; [reflexivity | ].
    intros Hwf. apply string_dict_get_key in E. now apply Hwf.
  - split; [ | auto]. repeat split; auto.
    intros Hwf. now apply new_variable_wf.
Qed.

Lemma fold_left_grows {A : Type} (step : Encoding -> A -> Encoding) :
  (forall enc x, grows enc (step enc x)) ->
  forall l enc, grows enc (fold_left step l enc).
Proof.
  intros Hstep. induction l as [ | x l IH]; intros enc; simpl; [apply grows_refl | ].
  exact (grows_trans _ _ _ (Hstep enc x) (IH (step enc x))).
Qed.

(** A constraint asserted for an element of the list of a loop is asserted
    at the end of the loop. *)
Lemma fold_left_asserts {A : Type} (step : Encoding -> A -> Encoding)
      (k : nat) (P : A -> formula -> Prop) :
  (forall enc x, grows enc (step enc x)) ->
  (forall enc x f, variables_wf enc -> n_colors enc = k -> P x f ->
                   In f (solver (step enc x))) ->
  forall l enc x f,
    variables_wf enc -> n_colors enc = k -> In x l -> P x f ->
    In f (solver (fold_left step l enc)).
Proof.
  intros Hgrows Hstep. induction l as [ | y l IH]; intros enc x f Hwf Hk Hin HP;
    [destruct Hin | ].
  simpl. destruct (Hgrows enc y) as (Hn & Hkeep & Hwf').
  destruct Hin as [-> | Hin].
  - destruct (fold_left_grows step Hgrows l (step enc x)) as (_ & Hkeep' & _).
    apply Hkeep'. now apply Hstep.
  - apply (IH (step enc y) x f); auto. congruence.
Qed.

Lemma eval_or v fs :
  eval v (FOr fs) = true <-> exists f, In f fs /\ eval v f = true.
Proof.
  induction fs as [ | g fs IH].
  - simpl. split; [discriminate | intros (f & [] & _)].
  - change (eval v (FOr (g :: fs))) with (eval v g || eval v (FOr fs)).
    rewrite orb_true_iff, IH. split.
    + intros [H | (f & Hin & H)]; [exists g | exists f]; simpl; auto.
    + intros (f & [<- | Hin] & H); [now left | right; eauto].
Qed.

(** *** [generate_onehot_color_clauses] *)

Lemma node_color_vars_loop n : forall colors enc vars,
  let result :=
    fold_left
      (fun (st : Encoding * list formula) (c : nat) =>
         let '(enc, node_color_vars) := st in
         let '(enc, var) := color_node enc n c in
         (enc, (node_color_vars ++ [var])%list))
      colors (enc, vars) in
  grows enc (fst result)
  /\ solver (fst result) = solver enc
  /\ (variables_wf enc ->
      snd result = vars ++ map (fun c => FVar (color_node_name n c)) colors).
Proof.
  induction colors as [ | c colors IH]; intros enc vars; cbv zeta.
  - simpl. split; [apply grows_refl | ]. split; [reflexivity | ].
    intros _. now rewrite app_nil_r.
  - cbn [fold_left].
    destruct (color_node_grows enc n c) as (Hg & Hs & Hv).
    destruct (color_node enc n c) as [enc1 var] eqn:E. simpl in Hg, Hs, Hv.
    destruct (IH enc1 (vars ++ [var])) as (Hg' & Hs' & Hv').
    split; [exact (grows_trans _ _ _ Hg Hg') | ].
    split; [congruence | ].
    intros Hwf. rewrite Hv' by (apply Hg; exact Hwf). rewrite (Hv Hwf).
    rewrite <- app_assoc. reflexivity.
Qed.

Lemma at_least_one_color_grows enc n : grows enc (at_least_one_color enc n).
Proof.
  unfold at_least_one_color. destruct (Nat.eqb n 0).
  - destruct (color_node_grows enc 0 0) as (Hg & _).
    destruct (color_node enc 0 0) as [enc1 var]. simpl in Hg.
    exact (grows_trans _ _ _ Hg (proj1 (add_hard_constraint_grows _ _ _))).
  - destruct (node_color_vars_loop n (seq 0 (n_colors enc)) enc []) as (Hg & _).
    cbv zeta in Hg.
    destruct (fold_left _ (seq 0 (n_colors enc)) (enc, [])) as [enc1 vars].
    simpl in Hg.
    exact (grows_trans _ _ _ Hg (proj1 (add_hard_constraint_grows _ _ _))).
Qed.

Lemma at_least_one_color_asserts enc n :
  variables_wf enc ->
  In (if Nat.eqb n 0 then FVar (color_node_name 0 0)
      else FOr (map (fun c => FVar (color_node_name n c)) (seq 0 (n_colors enc))))
     (solver (at_least_one_color enc n)).
Proof.
  intros Hwf. unfold at_least_one_color. destruct (Nat.eqb n 0).
  - destruct (color_node_grows enc 0 0) as (_ & _ & Hv).
    destruct (color_node enc 0 0) as [enc1 var]. simpl in Hv. rewrite <- (Hv Hwf).
    apply add_hard_constraint_grows.
  - destruct (node_color_vars_loop n (seq 0 (n_colors enc)) enc []) as (_ & _ & Hv).
    cbv zeta in Hv.
    destruct (fold_left _ (seq 0 (n_colors enc)) (enc, [])) as [enc1 vars].
    simpl in Hv. rewrite <- (Hv Hwf).
    apply add_hard_constraint_grows.
Qed.

Lemma exclusion_step_grows n i enc j :
  grows enc
    (let '(enc, var_i) := color_node enc n i in
     let '(enc, var_j) := color_node enc n j in
     let constraint := FNot (FAnd var_i var_j) in
     add_hard_constraint enc constraint
       ("Colors " ++ str_nat i ++ " and " ++ str_nat j ++ " of node "
        ++ str_nat n ++ " are mutually exclusive")%string).
Proof.
  destruct (color_node_grows enc n i) as (Hg1 & _).
  destruct (color_node enc n i) as [enc1 var_i]. simpl in Hg1.
  destruct (color_node_grows enc1 n j) as (Hg2 & _).
  destruct (color_node enc1 n j) as [enc2 var_j]. simpl in Hg2.
  cbv zeta.
  exact (grows_trans _ _ _ Hg1
           (grows_trans _ _ _ Hg2 (proj1 (add_hard_constraint_grows _ _ _)))).
Qed.

Lemma exclusion_step_asserts n i enc j :
  variables_wf enc ->
  In (FNot (FAnd (FVar (color_node_name n i)) (FVar (color_node_name n j))))
     (solver
        (let '(enc, var_i) := color_node enc n i in
         let '(enc, var_j) := color_node enc n j in
         let constraint := FNot (FAnd var_i var_j) in
         add_hard_constraint enc constraint
           ("Colors " ++ str_nat i ++ " and " ++ str_nat j ++ " of node "
            ++ str_nat n ++ " are mutually exclusive")%string)).
Proof.
  intros Hwf.
  destruct (color_node_grows enc n i) as (Hg1 & _ & Hv1).
  destruct (color_node enc n i) as [enc1 var_i]. simpl in Hg1, Hv1.
  destruct (color_node_grows enc1 n j) as (Hg2 & _ & Hv2).
  destruct (color_node enc1 n j) as [enc2 var_j]. simpl in Hg2, Hv2.
  cbv zeta. rewrite <- (Hv1 Hwf), <- (Hv2 (proj2 (proj2 Hg1) Hwf)).
  apply add_hard_constraint_grows.
Qed.

Lemma at_most_one_color_grows enc n : grows enc (at_most_one_color enc n).
Proof.
  unfold at_most_one_color. generalize (seq 0 (n_colors enc)). intros colors.
  apply fold_left_grows. intros enc1 i.
  generalize (seq (i + 1) (n_colors enc1 - (i + 1))). intros js.
  apply fold_left_grows. intros enc2 j. apply exclusion_step_grows.
Qed.

Lemma at_most_one_color_asserts enc n i j :
  variables_wf enc -> (i < j < n_colors enc)%nat ->
  In (FNot (FAnd (FVar (color_node_name n i)) (FVar (color_node_name n j))))
     (solver (at_most_one_color enc n)).
Proof.
  intros Hwf Hij. unfold at_most_one_color.
  apply (fold_left_asserts
           (fun (enc : Encoding) (i : nat) =>
              fold_left
                (fun (enc : Encoding) (j : nat) =>
                   let '(enc, var_i) := color_node enc n i in
                   let '(enc, var_j) := color_node enc n j in
                   let constraint := FNot (FAnd var_i var_j) in
                   add_hard_constraint enc constraint
                     ("Colors " ++ str_nat i ++ " and " ++ str_nat j ++ " of node "
                      ++ str_nat n ++ " are mutually exclusive")%string)
                (seq (i + 1) (n_colors enc - (i + 1))) enc)
           (n_colors enc)
           (fun i f => exists j, (i < j < n_colors enc)%nat
                                 /\ f = FNot (FAnd (FVar (color_node_name n i))
                                                   (FVar (color_node_name n j))))
           ) with (x := i).
  - intros enc1 i1. generalize (seq (i1 + 1) (n_colors enc1 - (i1 + 1))). intros js.
    apply fold_left_grows. intros enc2 j2. apply exclusion_step_grows.
  - intros enc1 i1 f Hwf1 Hk (j1 & Hj1 & ->).
    apply (fold_left_asserts
             (fun (enc : Encoding) (j : nat) =>
                let '(enc, var_i) := color_node enc n i1 in
                let '(enc, var_j) := color_node enc n j in
                let constraint := FNot (FAnd var_i var_j) in
                add_hard_constraint enc constraint
                  ("Colors " ++ str_nat i1 ++ " and " ++ str_nat j ++ " of node "
                   ++ str_nat n ++ " are mutually exclusive")%string)
             (n_colors enc)
             (fun j f => f = FNot (FAnd (FVar (color_node_name n i1))
                                        (FVar (color_node_name n j))))) with (x := j1).
    + intros enc2 j2. apply exclusion_step_grows.
    + intros enc2 j2 f Hwf2 _ ->. now apply exclusion_step_asserts.
    + exact Hwf1.
    + exact Hk.
    + apply in_seq. lia.
    + reflexivity.
  - exact Hwf.
  - reflexivity.
  - apply in_seq. lia.
  - exists j. split; [exact Hij | reflexivity].
Qed.

Lemma onehot_step_grows registered_nodes enc n :
  grows enc
    (let enc := at_least_one_color enc n in
     if negb (existsb (Nat.eqb n) registered_nodes)
     then at_most_one_color enc n
     else enc).
Proof.
  cbv zeta. destruct (negb (existsb (Nat.eqb n) registered_nodes)).
  - exact (grows_trans _ _ _ (at_least_one_color_grows enc n)
             (at_most_one_color_grows _ n)).
  - apply at_least_one_color_grows.
Qed.

(** X23. In every model of the assertions left by
    [generate_onehot_color_clauses], node 0 has colour 0, every other node
    of the node list has at least one of the colours, and a node that is
    not registered has at most one; the assertions made before are kept. *)
Theorem onehot_color_models (node_list registered_nodes : list nat) (enc : Encoding)
        (v : string -> bool) :
  variables_wf enc ->
  is_model v (solver (generate_onehot_color_clauses node_list registered_nodes enc)) ->
  is_model v (solver enc)
  /\ (In 0%nat node_list -> has_color v 0 0 = true)
  /\ (forall n, In n node_list -> n <> 0%nat ->
                exists c, (c < n_colors enc)%nat /\ has_color v n c = true)
  /\ (forall n i j, In n node_list -> ~ In n registered_nodes ->
                    (i < j < n_colors enc)%nat ->
                    has_color v n i && has_color v n j = false).
Proof.
  intros Hwf Hmodel. unfold generate_onehot_color_clauses in Hmodel.
  set (step := fun (enc : Encoding) (n : nat) =>
                 let enc := at_least_one_color enc n in
                 if negb (existsb (Nat.eqb n) registered_nodes)
                 then at_most_one_color enc n
                 else enc) in *.
  assert (Hgrows : forall enc x, grows enc (step enc x))
    by (intros; apply onehot_step_grows).
  assert (Hasserts : forall n f,
             In n node_list ->
             (f = (if Nat.eqb n 0 then FVar (color_node_name 0 0)
                   else FOr (map (fun c => FVar (color_node_name n c))
                                 (seq 0 (n_colors enc))))
              \/ (existsb (Nat.eqb n) registered_nodes = false
                  /\ exists i j, (i < j < n_colors enc)%nat
                                 /\ f = FNot (FAnd (FVar (color_node_name n i))
                                                   (FVar (color_node_name n j))))) ->
             eval v f = true).
  { intros n f Hn Hf. apply Hmodel.
    apply (fold_left_asserts step (n_colors enc)
             (fun n f =>
                f = (if Nat.eqb n 0 then FVar (color_node_name 0 0)
                     else FOr (map (fun c => FVar (color_node_name n c))
                                   (seq 0 (n_colors enc))))
                \/ (existsb (Nat.eqb n) registered_nodes = false
                    /\ exists i j, (i < j < n_colors enc)%nat
                                   /\ f = FNot (FAnd (FVar (color_node_name n i))
                                                     (FVar (color_node_name n j))))))
      with (x := n); auto.
    intros enc1 n1 f1 Hwf1 Hk [-> | (Hreg & i & j & Hij & ->)]; unfold step; cbv zeta.
    - pose proof (at_least_one_color_asserts enc1 n1 Hwf1) as Hin. rewrite Hk in Hin.
      destruct (negb (existsb (Nat.eqb n1) registered_nodes)); [ | exact Hin].
      now apply (at_most_one_color_grows (at_least_one_color enc1 n1) n1).
    - rewrite Hreg. simpl negb. cbv iota.
      destruct (at_least_one_color_grows enc1 n1) as (Hn1 & _ & Hwf1').
      apply at_most_one_color_asserts; [now apply Hwf1' | ]. rewrite Hn1, Hk. exact Hij. }
  split; [ | split; [ | split] ].
  - intros f Hf. apply Hmodel.
    now apply (fold_left_grows step Hgrows node_list enc).
  - intros H0. exact (Hasserts 0%nat _ H0 (or_introl eq_refl)).
  - intros n Hn Hn0.
    assert (Hor : eval v (FOr (map (fun c => FVar (color_node_name n c))
                                   (seq 0 (n_colors enc)))) = true).
    { apply (Hasserts n); [exact Hn | ]. left.
      apply Nat.eqb_neq in Hn0. now rewrite Hn0. }
    apply eval_or in Hor. destruct Hor as (f & Hin & Hf).
    apply in_map_iff in Hin. destruct Hin as (c & <- & Hc).
    apply in_seq in Hc. exists c. split; [lia | exact Hf].
  - intros n i j Hn Hreg Hij.
    assert (Hnot : eval v (FNot (FAnd (FVar (color_node_name n i))
                                      (FVar (color_node_name n j)))) = true).
    { apply (Hasserts n); [exact Hn | ]. right. split; [ | eauto].
      destruct (existsb (Nat.eqb n) registered_nodes) eqn:E; [ | reflexivity].
      apply existsb_exists in E. destruct E as (m & Hm & E).
      apply Nat.eqb_eq in E. subst. contradiction. }
    simpl in Hnot. apply negb_true_iff in Hnot. exact Hnot.
Qed.

(** *** [generate_accept_reject_clauses] *)

Lemma accept_step_grows n (negated : bool) description enc c :
  grows enc
    (let '(enc, color_var) := color_node enc n c in
     let '(enc, accept_var) := color_accepting enc c in
     let constraint :=
       FImplies color_var (if negated then FNot accept_var else accept_var) in
     add_hard_constraint enc constraint (description c))
  /\ (variables_wf enc ->
      In (FImplies (FVar (color_node_name n c))
                   (if negated then FNot (FVar ("accepting_" ++ str_nat c)%string)
                    else FVar ("accepting_" ++ str_nat c)%string))
         (solver
            (let '(enc, color_var) := color_node enc n c in
             let '(enc, accept_var) := color_accepting enc c in
             let constraint :=
               FImplies color_var (if negated then FNot accept_var else accept_var) in
             add_hard_constraint enc constraint (description c)))).
Proof.
  destruct (color_node_grows enc n c) as (Hg1 & _ & Hv1).
  destruct (color_node enc n c) as [enc1 color_var]. cbn [fst snd] in Hg1, Hv1.
  destruct (color_accepting_grows enc1 c) as (Hg2 & _ & Hv2).
  destruct (color_accepting enc1 c) as [enc2 accept_var]. cbn [fst snd] in Hg2, Hv2.
  cbv zeta. split.
  - exact (grows_trans _ _ _ Hg1
             (grows_trans _ _ _ Hg2 (proj1 (add_hard_constraint_grows _ _ _)))).
  - intros Hwf. rewrite <- (Hv1 Hwf), <- (Hv2 (proj2 (proj2 Hg1) Hwf)).
    destruct negated; apply add_hard_constraint_grows.
Qed.

Lemma accepting_node_clauses_grows enc n : grows enc (accepting_node_clauses enc n).
Proof.
  unfold accepting_node_clauses. generalize (seq 0 (n_colors enc)). intros colors.
  apply fold_left_grows. intros enc1 c.
  exact (proj1 (accept_step_grows n false
                  (fun c => ("Color " ++ str_nat c ++ " of accepting node " ++ str_nat n
                             ++ " must be an accepting color")%string) enc1 c)).
Qed.

Lemma rejecting_node_clauses_grows enc n : grows enc (rejecting_node_clauses enc n).
Proof.
  unfold rejecting_node_clauses. generalize (seq 0 (n_colors enc)). intros colors.
  apply fold_left_grows. intros enc1 c.
  exact (proj1 (accept_step_grows n true
                  (fun c => ("Color " ++ str_nat c ++ " of rejecting node " ++ str_nat n
                             ++ " cannot be an accepting color")%string) enc1 c)).
Qed.

Lemma accepting_node_clauses_asserts enc n c :
  variables_wf enc -> (c < n_colors enc)%nat ->
  In (FImplies (FVar (color_node_name n c)) (FVar ("accepting_" ++ str_nat c)%string))
     (solver (accepting_node_clauses enc n)).
Proof.
  intros Hwf Hc. unfold accepting_node_clauses.
  apply (fold_left_asserts
           (fun (enc : Encoding) (c : nat) =>
              let '(enc, color_var) := color_node enc n c in
              let '(enc, accept_var) := color_accepting enc c in
              let constraint := FImplies color_var accept_var in
              add_hard_constraint enc constraint
                ("Color " ++ str_nat c ++ " of accepting node " ++ str_nat n
                 ++ " must be an accepting color")%string)
           (n_colors enc)
           (fun c f => f = FImplies (FVar (color_node_name n c))
                                    (FVar ("accepting_" ++ str_nat c)%string)))
    with (x := c); auto.
  - intros enc1 c1.
    exact (proj1 (accept_step_grows n false
                    (fun c => ("Color " ++ str_nat c ++ " of accepting node " ++ str_nat n
                               ++ " must be an accepting color")%string) enc1 c1)).
  - intros enc1 c1 f Hwf1 _ ->.
    exact (proj2 (accept_step_grows n false
                    (fun c => ("Color " ++ str_nat c ++ " of accepting node " ++ str_nat n
                               ++ " must be an accepting color")%string) enc1 c1) Hwf1).
  - apply in_seq. lia.
Qed.

Lemma rejecting_node_clauses_asserts enc n c :
  variables_wf enc -> (c < n_colors enc)%nat ->
  In (FImplies (FVar (color_node_name n c))
               (FNot (FVar ("accepting_" ++ str_nat c)%string)))
     (solver (rejecting_node_clauses enc n)).
Proof.
  intros Hwf Hc. unfold rejecting_node_clauses.
  apply (fold_left_asserts
           (fun (enc : Encoding) (c : nat) =>
              let '(enc, color_var) := color_node enc n c in
              let '(enc, accept_var) := color_accepting enc c in
              let constraint := FImplies color_var (FNot accept_var) in
              add_hard_constraint enc constraint
                ("Color " ++ str_nat c ++ " of rejecting node " ++ str_nat n
                 ++ " cannot be an accepting color")%string)
           (n_colors enc)
           (fun c f => f = FImplies (FVar (color_node_name n c))
                                    (FNot (FVar ("accepting_" ++ str_nat c)%string))))
    with (x := c); auto.
  - intros enc1 c1.
    exact (proj1 (accept_step_grows n true
                    (fun c => ("Color " ++ str_nat c ++ " of rejecting node " ++ str_nat n
                               ++ " cannot be an accepting color")%string) enc1 c1)).
  - intros enc1 c1 f Hwf1 _ ->.
    exact (proj2 (accept_step_grows n true
                    (fun c => ("Color " ++ str_nat c ++ " of rejecting node " ++ str_nat n
                               ++ " cannot be an accepting color")%string) enc1 c1) Hwf1).
  - apply in_seq. lia.
Qed.

(** X24. In every model of the assertions left by
    [generate_accept_reject_clauses], a colour given to an accepting node is
    an accepting colour and a colour given to a rejecting node is not, so an
    accepting and a rejecting node never have a colour in common, and a node
    that is in both sets has no colour at all; the assertions made before
    are kept. *)
Theorem accept_reject_models (accepting rejecting : list nat) (enc : Encoding)
        (v : string -> bool) :
  variables_wf enc ->
  is_model v (solver (generate_accept_reject_clauses accepting rejecting enc)) ->
  is_model v (solver enc)
  /\ (forall n c, In n accepting -> (c < n_colors enc)%nat -> has_color v n c = true ->
                  v ("accepting_" ++ str_nat c)%string = true)
  /\ (forall n c, In n rejecting -> (c < n_colors enc)%nat -> has_color v n c = true ->
                  v ("accepting_" ++ str_nat c)%string = false)
  /\ (forall n m c, In n accepting -> In m rejecting -> (c < n_colors enc)%nat ->
                    has_color v n c && has_color v m c = false).
Proof.
  intros Hwf Hmodel. unfold generate_accept_reject_clauses in Hmodel. cbv zeta in Hmodel.
  set (enc1 := fold_left accepting_node_clauses accepting enc) in *.
  destruct (fold_left_grows accepting_node_clauses accepting_node_clauses_grows
              accepting enc) as (Hn1 & Hkeep1 & Hwf1).
  fold enc1 in Hn1, Hkeep1, Hwf1.
  destruct (fold_left_grows rejecting_node_clauses rejecting_node_clauses_grows
              rejecting enc1) as (Hn2 & Hkeep2 & Hwf2).
  assert (Hacc : forall n c, In n accepting -> (c < n_colors enc)%nat ->
                             has_color v n c = true ->
                             v ("accepting_" ++ str_nat c)%string = true).
  { intros n c Hn Hc Hcol.
    assert (Hin : In (FImplies (FVar (color_node_name n c))
                               (FVar ("accepting_" ++ str_nat c)%string))
                     (solver enc1)).
    { apply (fold_left_asserts accepting_node_clauses (n_colors enc)
               (fun n f => exists c, (c < n_colors enc)%nat
                                     /\ f = FImplies (FVar (color_node_name n c))
                                                     (FVar ("accepting_" ++ str_nat c)%string)))
        with (x := n); eauto using accepting_node_clauses_grows.
      intros enc0 n0 f Hwf0 Hk (c0 & Hc0 & ->).
      apply accepting_node_clauses_asserts; [exact Hwf0 | now rewrite Hk]. }
    apply Hkeep2, Hmodel in Hin. simpl in Hin.
    unfold has_color in Hcol. rewrite Hcol in Hin. exact Hin. }
  assert (Hrej : forall n c, In n rejecting -> (c < n_colors enc)%nat ->
                             has_color v n c = true ->
                             v ("accepting_" ++ str_nat c)%string = false).
  { intros n c Hn Hc Hcol.
    assert (Hin : In (FImplies (FVar (color_node_name n c))
                               (FNot (FVar ("accepting_" ++ str_nat c)%string)))
                     (solver (fold_left rejecting_node_clauses rejecting enc1))).
    { apply (fold_left_asserts rejecting_node_clauses (n_colors enc)
               (fun n f => exists c, (c < n_colors enc)%nat
                                     /\ f = FImplies (FVar (color_node_name n c))
                                                     (FNot (FVar ("accepting_"
                                                                  ++ str_nat c)%string))))
        with (x := n); eauto using rejecting_node_clauses_grows.
      intros enc0 n0 f Hwf0 Hk (c0 & Hc0 & ->).
      apply rejecting_node_clauses_asserts; [exact Hwf0 | now rewrite Hk]. }
    apply Hmodel in Hin. simpl in Hin.
    unfold has_color in Hcol. rewrite Hcol in Hin. simpl in Hin.
    now apply negb_true_iff in Hin. }
  split; [ | split; [exact Hacc | split; [exact Hrej | ] ] ].
  - intros f Hf. apply Hmodel. auto.
  - intros n m c Hn Hm Hc.
    destruct (has_color v n c) eqn:E1; [ | reflexivity].
    destruct (has_color v m c) eqn:E2; [ | reflexivity].
    specialize (Hacc n c Hn Hc E1). specialize (Hrej m c Hm Hc E2). congruence.
Qed.

End ColourConstraints.

Lemma onehot_color_models_witness :
  exists c, (c < 2)%nat
            /\ EncodingClauses.has_color
                 (fun name => String.eqb name "node_0_color_0"
                              || String.eqb name "node_1_color_1") 1 c = true.
Proof.
  assert (Hwf : Encoding.variables_wf (Encoding.mkEncoding None 2 [] [] [] [] []))
    by (intros name var []).
  assert (Hmodel : Encoding.is_model
                     (fun name => String.eqb name "node_0_color_0"
                                  || String.eqb name "node_1_color_1")
                     (Encoding.solver
                        (EncodingClauses.generate_onehot_color_clauses
                           [0%nat; 1%nat] []
                           (Encoding.mkEncoding None 2 [] [] [] [] [])))).
  { intros f Hf. vm_compute in Hf.
    repeat (destruct Hf as [<- | Hf]; [vm_compute; reflexivity | ]). destruct Hf. }
  destruct (onehot_color_models [0%nat; 1%nat] []
              (Encoding.mkEncoding None 2 [] [] [] [] []) _ Hwf Hmodel)
    as (_ & _ & Hsome & _).
  apply (Hsome 1%nat); [right; left; reflexivity | discriminate].
Defined.

Lemma accept_reject_models_witness :
  EncodingClauses.has_color
    (fun name => String.eqb name "node_1_color_0" || String.eqb name "accepting_0") 1 0
  && EncodingClauses.has_color
       (fun name => String.eqb name "node_1_color_0" || String.eqb name "accepting_0") 2 0
  = false.
Proof.
  assert (Hwf : Encoding.variables_wf (Encoding.mkEncoding None 2 [] [] [] [] []))
    by (intros name var []).
  assert (Hmodel : Encoding.is_model
                     (fun name => String.eqb name "node_1_color_0"
                                  || String.eqb name "accepting_0")
                     (Encoding.solver
                        (EncodingClauses.generate_accept_reject_clauses
                           [1%nat] [2%nat]
                           (Encoding.mkEncoding None 2 [] [] [] [] [])))).
  { intros f Hf. vm_compute in Hf.
    repeat (destruct Hf as [<- | Hf]; [vm_compute; reflexivity | ]). destruct Hf. }
  destruct (accept_reject_models [1%nat] [2%nat]
              (Encoding.mkEncoding None 2 [] [] [] [] []) _ Hwf Hmodel)
    as (_ & _ & _ & Hdisjoint).
  apply (Hdisjoint 1%nat 2%nat 0%nat); [left; reflexivity | left; reflexivity | simpl; lia].
Defined.

(** ** [get_region_overlap] *)

Section Overlap.

Import Statements Verifier Optimizer OptimizerFacts RegionOverlap.

(** X25. For regions whose bounds are numbers, a region returned by
    [get_region_overlap] lies in both regions, and [None] is returned only
    when no time value lies strictly between the bounds of both. (A common
    end point can be lost: the closure flags are dropped when the bounds
    differ.) *)
Theorem region_overlap_sound (r1 r2 : region_tuple) :
  bounds_not_nan r1 = true -> bounds_not_nan r2 = true ->
  match get_region_overlap r1 r2 with
  | Some overlap =>
      forall t, is_timestamp_in_region t overlap = true ->
                is_timestamp_in_region t r1 = true /\ is_timestamp_in_region t r2 = true
  | None =>
      forall t, strictly_inside t r1 = true -> strictly_inside t r2 = true -> False
  end.
Proof.
  destruct r1 as [ [ [l1 u1] lc1] uc1], r2 as [ [ [l2 u2] lc2] uc2].
  unfold bounds_not_nan. rewrite !andb_true_iff. intros [Hl1 Hu1] [Hl2 Hu2].
  unfold get_region_overlap.
  set (lower := max l1 l2). set (upper := min u1 u2).
  set (lower_closed := (if eqb lower l1 then lc1 else false)
                       && (if eqb lower l2 then lc2 else false)).
  set (upper_closed := (if eqb upper u1 then uc1 else false)
                       && (if eqb upper u2 then uc2 else false)).
  destruct (ltb lower upper || (eqb lower upper && lower_closed && upper_closed)) eqn:Evalid.
  - intros t Ht. unfold is_timestamp_in_region in *.
    destruct (if lower_closed then ltb (Fin t) lower else leb (Fin t) lower) eqn:L;
      [discriminate | ].
    destruct (if upper_closed then gtb (Fin t) upper else geb (Fin t) upper) eqn:U;
      [discriminate | ].
    clear Ht Evalid.
    assert (L1 : (if lc1 then ltb (Fin t) l1 else leb (Fin t) l1) = false).
    { clear U Hu1 Hu2. revert L Hl1 Hl2. unfold lower_closed, lower, max, gtb, leb.
      destruct l1 as [a | | | ], l2 as [b | | | ], lc1, lc2;
        simpl; split_tests_in_goal; intros; try reflexivity; try discriminate;
        exfalso; bool_to_Q; lra. }
    assert (L2 : (if lc2 then ltb (Fin t) l2 else leb (Fin t) l2) = false).
    { clear U Hu1 Hu2 L1. revert L Hl1 Hl2. unfold lower_closed, lower, max, gtb, leb.
      destruct l1 as [a | | | ], l2 as [b | | | ], lc1, lc2;
        simpl; split_tests_in_goal; intros; try reflexivity; try discriminate;
        exfalso; bool_to_Q; lra. }
    assert (U1 : (if uc1 then gtb (Fin t) u1 else geb (Fin t) u1) = false).
    { clear L L1 L2 Hl1 Hl2. revert U Hu1 Hu2.
      unfold upper_closed, upper, min, gtb, geb, leb.
      destruct u1 as [a | | | ], u2 as [b | | | ], uc1, uc2;
        simpl; split_tests_in_goal; intros; try reflexivity; try discriminate;
        exfalso; bool_to_Q; lra. }
    assert (U2 : (if uc2 then gtb (Fin t) u2 else geb (Fin t) u2) = false).
    { clear L L1 L2 Hl1 Hl2 U1. revert U Hu1 Hu2.
      unfold upper_closed, upper, min, gtb, geb, leb.
      destruct u1 as [a | | | ], u2 as [b | | | ], uc1, uc2;
        simpl; split_tests_in_goal; intros; try reflexivity; try discriminate;
        exfalso; bool_to_Q; lra. }
    rewrite L1, L2, U1, U2. split; reflexivity.
  - intros t H1 H2. unfold strictly_inside in H1, H2.
    apply andb_true_iff in H1, H2. destruct H1 as [A1 B1], H2 as [A2 B2].
    apply orb_false_iff in Evalid. destruct Evalid as [Evalid _].
    assert (Hlow : ltb lower (Fin t) = true).
    { unfold lower, max, gtb. destruct (ltb l1 l2); assumption. }
    assert (Hupp : ltb (Fin t) upper = true).
    { unfold upper, min. destruct (ltb u2 u1); assumption. }
    rewrite (num_ltb_trans _ _ _ Hlow Hupp) in Evalid. discriminate.
Qed.

Lemma region_overlap_sound_witness :
  get_region_overlap (of_Z 0, of_Z 2, true, true) (of_Z 1, of_Z 3, true, true)
  = Some (of_Z 1, of_Z 2, false, false)
  /\ is_timestamp_in_region (3 # 2) (of_Z 0, of_Z 2, true, true) = true.
Proof.
  split; [vm_compute; reflexivity | ].
  pose proof (region_overlap_sound (of_Z 0, of_Z 2, true, true)
                                   (of_Z 1, of_Z 3, true, true) eq_refl eq_refl) as H.
  apply (H (3 # 2)). reflexivity.
Defined.

End Overlap.

(** ** [find_gaps] *)

Section FindGaps.

Import Statements Verifier Optimizer OptimizerFacts.

Lemma in_region_trichotomy t r :
  is_timestamp_in_region t r = negb (left_of t r) && negb (right_of t r).
Proof.
  destruct r as [ [ [l u] lc] uc]. unfold is_timestamp_in_region, left_of, right_of.
  destruct (if lc then ltb (Fin t) l else leb (Fin t) l); [reflexivity | ].
  destruct (if uc then gtb (Fin t) u else geb (Fin t) u); reflexivity.
Qed.

Lemma find_gaps_unfold first rest :
  find_gaps (first :: rest)
  = let '(first_lower, _, first_lower_closed, _) := first in
    let gaps :=
      if gtb first_lower (of_Z 0)
      then [(of_Z 0, first_lower, true, negb first_lower_closed)]
      else [] in
    let gaps := between_gaps (first :: rest) gaps in
    let '(_, last_upper, _, last_upper_closed) := List.last (first :: rest) first in
    if neqb last_upper PInf
    then gaps ++ [(last_upper, PInf, negb last_upper_closed, false)]
    else gaps.
Proof. reflexivity. Qed.

Lemma between_gaps_cons current next tail gaps :
  between_gaps (current :: next :: tail) gaps
  = between_gaps (next :: tail)
      (let '(_, current_upper, _, current_upper_closed) := current in
       let '(next_lower, _, next_lower_closed, _) := next in
       if ltb current_upper next_lower
       then gaps ++ [(current_upper, next_lower,
                      negb current_upper_closed, negb next_lower_closed)]
       else if eqb current_upper next_lower
               && negb (current_upper_closed && next_lower_closed)
       then
         if negb current_upper_closed && negb next_lower_closed
         then gaps ++ [(current_upper, current_upper, true, true)]
         else gaps
       else gaps).
Proof.
  destruct current as [ [ [l1 u1] lc1] uc1], next as [ [ [l2 u2] lc2] uc2]. reflexivity.
Qed.

Lemma between_gaps_acc : forall l gaps,
  between_gaps l gaps = gaps ++ between_gaps l [].
Proof.
  induction l as [ | current l IH]; intros gaps; [simpl; now rewrite app_nil_r | ].
  destruct l as [ | next tail]; [simpl; now rewrite app_nil_r | ].
  rewrite !between_gaps_cons.
  destruct current as [ [ [l1 u1] lc1] uc1], next as [ [ [l2 u2] lc2] uc2].
  rewrite (IH (if ltb u1 l2 then _ else _)).
  rewrite (IH (if ltb u1 l2 then [] ++ _ else _)).
  rewrite app_assoc. f_equal.
  destruct (ltb u1 l2); [reflexivity | ].
  destruct (eqb u1 l2 && negb (uc1 && lc2)); [ | now rewrite app_nil_r].
  destruct (negb uc1 && negb lc2); [reflexivity | now rewrite app_nil_r].
Qed.

(** A time value above one region and below the next lies in the gap that
    the loop adds for the pair. *)
Lemma neighbour_gap_covers current next tail t :
  right_of t current = true -> left_of t next = true ->
  covered t (between_gaps (current :: next :: tail) []).
Proof.
  destruct current as [ [ [l1 u1] lc1] uc1], next as [ [ [l2 u2] lc2] uc2].
  unfold right_of, left_of. intros Hr Hl.
  rewrite between_gaps_cons, between_gaps_acc.
  assert (Hgap : exists gap,
             In gap (if ltb u1 l2 then [] ++ [(u1, l2, negb uc1, negb lc2)]
                     else if eqb u1 l2 && negb (uc1 && lc2)
                          then if negb uc1 && negb lc2
                               then [] ++ [(u1, u1, true, true)] else []
                          else [])
             /\ is_timestamp_in_region t gap = true).
  { revert Hr Hl. unfold gtb, geb, leb.
    destruct u1 as [a | | | ], l2 as [b | | | ], uc1, lc2; simpl;
      split_tests_in_goal; intros; try discriminate;
      try (eexists; split; [left; reflexivity | ];
           unfold is_timestamp_in_region, gtb, geb, leb; simpl;
           split_tests_in_goal; try reflexivity; exfalso; bool_to_Q; lra);
      exfalso; bool_to_Q; lra. }
  destruct Hgap as (gap & Hin & Ht). exists gap. split; [ | exact Ht].
  apply in_or_app. now left.
Qed.

Lemma last_any_default {A : Type} (l : list A) : forall (y d d' : A),
  List.last (y :: l) d = List.last (y :: l) d'.
Proof.
  induction l as [ | z l IH]; intros y d d'; [reflexivity | ].
  change (List.last (z :: l) d = List.last (z :: l) d'). apply IH.
Qed.

Lemma last_cons_default {A : Type} (x y : A) l d :
  List.last (x :: y :: l) d = List.last (y :: l) x.
Proof.
  change (List.last (y :: l) d = List.last (y :: l) x). apply last_any_default.
Qed.

Lemma between_gaps_cover t : forall rest current,
  right_of t current = true ->
  covered t rest
  \/ covered t (between_gaps (current :: rest) [])
  \/ right_of t (List.last (current :: rest) current) = true.
Proof.
  induction rest as [ | next rest IH]; intros current Hright.
  - right. right. exact Hright.
  - destruct (left_of t next) eqn:Hleft.
    + right. left. now apply neighbour_gap_covers.
    + destruct (right_of t next) eqn:Hnext.
      * destruct (IH next Hnext) as [Hc | [Hc | Hc] ].
        -- left. destruct Hc as (r & Hr & Ht). exists r. split; [now right | exact Ht].
        -- right. left. destruct Hc as (r & Hr & Ht). exists r. split; [ | exact Ht].
           rewrite between_gaps_cons, between_gaps_acc. apply in_or_app. now right.
        -- right. right. rewrite last_cons_default.
           rewrite (last_any_default rest next current next). exact Hc.
      * left. exists next. split; [now left | ].
        rewrite in_region_trichotomy, Hleft, Hnext. reflexivity.
Qed.

(** X26. [find_gaps] misses nothing but the time 0 at an open start: for
    any list of regions, every time value from 0 on lies in one of the
    regions or in one of the gaps found, unless the value is 0 and the first
    region starts at 0 with an open bound. *)
Theorem find_gaps_complete (regions : list region_tuple) (t : Q) :
  0 <= t ->
  (starts_open_at_zero regions = true -> ~ t == 0) ->
  covered t regions \/ covered t (find_gaps regions).
Proof.
  intros Ht Hzero. destruct regions as [ | first rest].
  - right. exists (of_Z 0, PInf, true, false). split; [now left | ].
    unfold is_timestamp_in_region, geb, leb. simpl.
    destruct (Qltb t (inject_Z 0)) eqn:E; [ | reflexivity].
    exfalso. bool_to_Q. change (inject_Z 0) with 0 in *. lra.
  - rewrite find_gaps_unfold.
    destruct first as [ [ [l u] lc] uc].
    cbv beta zeta iota.
    match goal with
    | |- context [List.last ?regions ?first] =>
        destruct (List.last regions first) as [ [ [ll lu] llc] luc] eqn:Elast
    end.
    set (gaps0 := if gtb l (of_Z 0) then [(of_Z 0, l, true, negb lc)] else []).
    assert (Hfinal : forall gap,
               In gap (between_gaps ((l, u, lc, uc) :: rest) gaps0) ->
               In gap (if neqb lu PInf
                       then between_gaps ((l, u, lc, uc) :: rest) gaps0
                            ++ [(lu, PInf, negb luc, false)]
                       else between_gaps ((l, u, lc, uc) :: rest) gaps0)).
    { intros gap Hgap. destruct (neqb lu PInf); [apply in_or_app; now left | exact Hgap]. }
    destruct (left_of t (l, u, lc, uc)) eqn:Hleft.
    + right.
      assert (Hgap : gtb l (of_Z 0) = true
                     /\ is_timestamp_in_region t (of_Z 0, l, true, negb lc) = true).
      { simpl in Hzero. revert Hleft Hzero. unfold left_of, is_timestamp_in_region.
        unfold gtb, geb, leb, of_Z.
        destruct l as [a | | | ], lc; simpl; split_tests_in_goal; intros;
          try discriminate; try (split; reflexivity);
          exfalso; bool_to_Q; change (inject_Z 0) with 0 in *;
          try (apply Hzero; [reflexivity | ]); lra. }
      destruct Hgap as [Hpos Hin]. exists (of_Z 0, l, true, negb lc). split; [ | exact Hin].
      apply Hfinal. rewrite between_gaps_acc. apply in_or_app. left.
      unfold gaps0. rewrite Hpos. now left.
    + destruct (right_of t (l, u, lc, uc)) eqn:Hright.
      * destruct (between_gaps_cover t rest (l, u, lc, uc) Hright) as [Hc | [Hc | Hc] ].
        -- left. destruct Hc as (r & Hr & Hin). exists r. split; [now right | exact Hin].
        -- right. destruct Hc as (r & Hr & Hin). exists r. split; [ | exact Hin].
           apply Hfinal. rewrite between_gaps_acc. apply in_or_app. now right.
        -- right. rewrite Elast in Hc. exists (lu, PInf, negb luc, false).
           assert (Hlast : neqb lu PInf = true
                           /\ is_timestamp_in_region t (lu, PInf, negb luc, false) = true).
           { revert Hc. unfold right_of, is_timestamp_in_region, neqb, gtb, geb, leb.
             destruct lu as [a | | | ], luc; simpl; split_tests_in_goal; intros;
               try discriminate; try (split; reflexivity);
               exfalso; bool_to_Q; lra. }
           destruct Hlast as [Hne Hin]. rewrite Hne. split; [ | exact Hin].
           apply in_or_app. right. now left.
      * left. exists (l, u, lc, uc). split; [now left | ].
        rewrite in_region_trichotomy, Hleft, Hright. reflexivity.
Qed.

Lemma find_gaps_complete_witness :
  covered 3 [(of_Z 0, of_Z 1, true, false)]
  \/ covered 3 (find_gaps [(of_Z 0, of_Z 1, true, false)]).
Proof.
  apply (find_gaps_complete [(of_Z 0, of_Z 1, true, false)] 3).
  - lra.
  - intros H. discriminate H.
Defined.

End FindGaps.

(** ** Protected points in [optimize_regions_with_solver] *)

Section SolverRegions.

Import Statements Verifier Optimizer OptimizerFacts.

Lemma optimize_regions_with_solver_unfold by_target :
  optimize_regions_with_solver by_target
  = let protected_points := solver_protected_points by_target in
    let optimized : targets :=
      fold_left
        (fun d (entry : nat * list region_tuple) =>
           let '(color_to, regions) := entry in
           Dict.set Nat.eqb d color_to
                    (solver_processed_regions protected_points color_to regions))
        by_target [] in
    map (fun entry : nat * list region_tuple =>
           let '(color_to, regions) := entry in
           if Nat.ltb 1 (List.length regions)
           then (color_to,
                 merge_adjacent_regions_protected (sort_regions regions)
                                                  protected_points color_to)
           else entry)
        optimized.
Proof. reflexivity. Qed.

Lemma points_set_distinct (d : list (num * nat)) k v :
  points_distinct d -> points_distinct (Dict.set eqb d k v).
Proof.
  induction d as [ | [k' v'] d IH]; simpl.
  - intros _. split; [intros k1 v1 [] | exact I].
  - intros [Hhead Htail]. destruct (eqb k' k) eqn:E; simpl.
    + split; assumption.
    + split; [ | now apply IH].
      intros k1 v1 Hin. apply dict_set_entries in Hin.
      destruct Hin as [Hin | [_ [-> | [v0 Hin] ] ] ]; [ | exact E | ].
      * exact (Hhead k1 v1 Hin).
      * exact (Hhead k1 v0 Hin).
Qed.

Lemma solver_protected_points_distinct by_target :
  points_distinct (solver_protected_points by_target).
Proof.
  unfold solver_protected_points. cbv zeta.
  match goal with
  | |- points_distinct (fold_left ?f ?l []) =>
      generalize l; intros point_intervals;
      assert (H : forall d, points_distinct d -> points_distinct (fold_left f point_intervals d))
  end.
  { induction point_intervals as [ | [point_value target_colors] l IH]; intros d Hd;
      [exact Hd | ].
    simpl. apply IH.
    destruct (Nat.ltb 1 (List.length target_colors)); now apply points_set_distinct. }
  apply H. exact I.
Qed.

Lemma points_lookup (d : list (num * nat)) p cp l :
  points_distinct d -> In (p, cp) d -> eqb p l = true -> Dict.get eqb d l = Some cp.
Proof.
  induction d as [ | [k v] d IH]; simpl; [tauto | ].
  intros [Hhead Htail] [Hin | Hin] Hpl.
  - injection Hin as -> ->. now rewrite Hpl.
  - destruct (eqb k l) eqn:E.
    + rewrite num_eqb_sym in Hpl.
      pose proof (num_eqb_trans _ _ _ E Hpl) as H. rewrite (Hhead p cp Hin) in H.
      discriminate.
    + now apply IH.
Qed.

Lemma nat_dict_set_entries {V : Type} (d : list (nat * V)) k v k1 v1 :
  In (k1, v1) (Dict.set Nat.eqb d k v) -> In (k1, v1) d \/ (k1 = k /\ v1 = v).
Proof.
  induction d as [ | [k' v'] d IH]; simpl.
  - intros [H | [] ]. injection H as <- <-. auto.
  - destruct (Nat.eqb k' k) eqn:E.
    + apply Nat.eqb_eq in E. subst. intros [H | H]; [ | auto].
      injection H as <- <-. auto.
    + intros [H | H]; [auto | ]. destruct (IH H); auto.
Qed.

(** Every region kept for a colour avoids the protected points of the other
    colours. *)
Lemma solver_processed_regions_avoid protected_points color_to regions r p cp :
  points_distinct protected_points ->
  In r (solver_processed_regions protected_points color_to regions) ->
  In (p, cp) protected_points -> cp <> color_to ->
  point_in p r = false.
Proof.
  intros Hdistinct Hr Hp Hcp. unfold solver_processed_regions in Hr. revert r Hr.
  assert (Hgen : forall processed,
             (forall r0, In r0 processed -> point_in p r0 = false) ->
             forall r0,
               In r0 (fold_left
                        (fun processed (r : region_tuple) =>
                           let '(lower, upper, lower_closed, upper_closed) := r in
                           if is_exact_point r then
                             match Dict.get eqb protected_points lower with
                             | Some c => if Nat.eqb c color_to then processed ++ [r]
                                         else processed
                             | None => processed
                             end
                           else
                             let conflicts :=
                               flat_map
                                 (fun pe : num * nat =>
                                    let '(point_value, point_color) := pe in
                                    if negb (Nat.eqb point_color color_to)
                                       && point_in point_value r
                                    then [point_value] else [])
                                 protected_points in
                             if is_empty conflicts then processed ++ [r]
                             else processed ++ split_region_around_points r conflicts)
                        regions processed) ->
               point_in p r0 = false).
  { induction regions as [ | [ [ [l u] lc] uc] regions IH]; intros processed Hproc r0;
      [apply Hproc | ].
    cbn [fold_left]. apply IH. clear IH r0.
    destruct (is_exact_point (l, u, lc, uc)) eqn:Eexact.
    - destruct (Dict.get eqb protected_points l) as [c | ] eqn:Eget; [ | exact Hproc].
      destruct (Nat.eqb c color_to) eqn:Ec; [ | exact Hproc].
      apply Nat.eqb_eq in Ec. subst c.
      intros r0 Hr0. apply in_app_or in Hr0. destruct Hr0 as [Hr0 | [<- | [] ] ];
        [now apply Hproc | ].
      unfold is_exact_point in Eexact. apply andb_true_iff in Eexact.
      destruct Eexact as [Eexact Huc]. apply andb_true_iff in Eexact.
      destruct Eexact as [Elu Hlc]. subst lc uc.
      unfold point_in.
      assert (Hnot : eqb p l = false).
      { destruct (eqb p l) eqn:E; [ | reflexivity].
        rewrite (points_lookup _ _ _ _ Hdistinct Hp E) in Eget.
        injection Eget as ->. contradiction. }
      destruct (ltb l p && ltb p u) eqn:Einside.
      { apply andb_true_iff in Einside. destruct Einside as [E1 E2].
        rewrite (num_ltb_not_eqb _ _ (num_ltb_trans _ _ _ E1 E2)) in Elu. discriminate. }
      rewrite (num_eqb_sym l p), Hnot. simpl.
      destruct (eqb u p) eqn:Eup; [ | reflexivity].
      rewrite num_eqb_sym in Hnot. rewrite (num_eqb_trans _ _ _ Elu Eup) in Hnot.
      discriminate.
    - set (conflicts :=
             flat_map
               (fun pe : num * nat =>
                  let '(point_value, point_color) := pe in
                  if negb (Nat.eqb point_color color_to)
                     && point_in point_value (l, u, lc, uc)
                  then [point_value] else [])
               protected_points).
      assert (Hconf : point_in p (l, u, lc, uc) = true -> In p conflicts).
      { intros Hin. unfold conflicts. apply in_flat_map. exists (p, cp).
        split; [exact Hp | ]. cbv beta iota.
        apply Nat.eqb_neq in Hcp. rewrite Hcp, Hin. now left. }
      destruct (is_empty conflicts) eqn:Eempty.
      + intros r0 Hr0. apply in_app_or in Hr0. destruct Hr0 as [Hr0 | [<- | [] ] ];
          [now apply Hproc | ].
        destruct (point_in p (l, u, lc, uc)) eqn:E; [ | reflexivity].
        specialize (Hconf eq_refl). destruct conflicts; [destruct Hconf | discriminate].
      + intros r0 Hr0. apply in_app_or in Hr0. destruct Hr0 as [Hr0 | Hr0];
          [now apply Hproc | ].
        apply split_pieces_inside in Hr0. destruct Hr0 as [Havoid Hinside].
        destruct (point_in p r0) eqn:E; [ | reflexivity].
        rewrite <- E. apply Havoid. apply Hconf. now apply Hinside. }
  intros r Hr. apply (Hgen [] (fun r0 H => match H with end) r Hr).
Qed.

(** X27. [optimize_regions_with_solver] keeps the protected points apart:
    an exact point claimed by the regions of several target colours is
    protected for one of them, and in the result no region of another colour
    contains it (by the optimiser's point test), whether the region was kept,
    cut around the point or merged with its neighbours. *)
Theorem solver_regions_avoid_protected_points (by_target : targets)
        (p : num) (cp c : nat) (regions : list region_tuple) (r : region_tuple) :
  In (p, cp) (solver_protected_points by_target) ->
  c <> cp ->
  In (c, regions) (optimize_regions_with_solver by_target) ->
  In r regions ->
  point_in p r = false.
Proof.
  intros Hp Hc Hentry Hr. rewrite optimize_regions_with_solver_unfold in Hentry.
  cbv zeta in Hentry.
  set (protected_points := solver_protected_points by_target) in *.
  assert (Hdistinct : points_distinct protected_points)
    by apply solver_protected_points_distinct.
  assert (Hstored : forall entries d,
             (forall c0 regions0 r0, In (c0, regions0) d -> In r0 regions0 ->
                                     c0 <> cp -> point_in p r0 = false) ->
             forall c0 regions0 r0,
               In (c0, regions0)
                  (fold_left
                     (fun d (entry : nat * list region_tuple) =>
                        let '(color_to, regions) := entry in
                        Dict.set Nat.eqb d color_to
                                 (solver_processed_regions protected_points color_to regions))
                     entries d) ->
               In r0 regions0 -> c0 <> cp -> point_in p r0 = false).
  { induction entries as [ | [color_to regions1] entries IH]; intros d Hd; [exact Hd | ].
    cbn [fold_left]. apply IH.
    intros c0 regions0 r0 Hin Hr0 Hc0. apply nat_dict_set_entries in Hin.
    destruct Hin as [Hin | [-> ->] ]; [exact (Hd _ _ _ Hin Hr0 Hc0) | ].
    apply (solver_processed_regions_avoid protected_points color_to regions1 r0 p cp);
      auto. }
  apply in_map_iff in Hentry. destruct Hentry as ( [c0 regions0] & Heq & Hin).
  assert (Hbefore : forall r0, In r0 regions0 -> c0 <> cp -> point_in p r0 = false).
  { intros r0 Hr0 Hc0.
    apply (Hstored by_target [] (fun _ _ _ H => match H with end) c0 regions0 r0);
      assumption. }
  destruct (Nat.ltb 1 (List.length regions0)).
  - injection Heq as <- <-.
    apply (merge_adjacent_respects_protected_points_core
             (sort_regions regions0) protected_points c0 p cp Hp (not_eq_sym Hc)) with (r' := r);
      [ | exact Hr].
    intros r0 Hr0. apply Hbefore; [ | exact Hc].
    unfold sort_regions in Hr0. now apply sort_by_In in Hr0.
  - injection Heq as <- <-. now apply Hbefore.
Qed.

End SolverRegions.

Lemma solver_regions_avoid_protected_points_witness :
  In (of_Z 1, 0%nat)
     (OptimizerFacts.solver_protected_points
        [(0%nat, [(of_Z 1, of_Z 1, true, true)]); (1%nat, [(of_Z 0, of_Z 2, true, true)])])
  /\ Optimizer.point_in (of_Z 1) (of_Z 1, of_Z 2, false, true) = false.
Proof.
  assert (Hp : In (of_Z 1, 0%nat)
                  (OptimizerFacts.solver_protected_points
                     [(0%nat, [(of_Z 1, of_Z 1, true, true)]);
                      (1%nat, [(of_Z 0, of_Z 2, true, true)])]))
    by (vm_compute; left; reflexivity).
  split; [exact Hp | ].
  apply (solver_regions_avoid_protected_points
           [(0%nat, [(of_Z 1, of_Z 1, true, true)]); (1%nat, [(of_Z 0, of_Z 2, true, true)])]
           (of_Z 1) 0 1
           [(of_Z 0, of_Z 1, true, false); (of_Z 1, of_Z 2, false, true)]).
  - exact Hp.
  - discriminate.
  - vm_compute. right. left. reflexivity.
  - right. left. reflexivity.
Defined.

(** ** The determinism constraints *)

Section DeterminismConstraints.

Import Encoding EncodingRegions EncodingDeterminism.

Variable float : string -> option num.
Variable int : string -> option Z.

Lemma regions_may_intersect_sym region1_str region2_str :
  _regions_may_intersect float region1_str region2_str
  = _regions_may_intersect float region2_str region1_str.
Proof.
  unfold _regions_may_intersect. rewrite (String.eqb_sym region2_str region1_str).
  destruct (String.eqb region1_str region2_str); [reflexivity | ].
  destruct (parse_region float region1_str) as [ [ [ [l1 u1] c1] d1] | ];
    destruct (parse_region float region2_str) as [ [ [ [l2 u2] c2] d2] | ]; try reflexivity.
  unfold gtb. rewrite (num_eqb_sym u2 l1), (num_eqb_sym l2 u1).
  rewrite (orb_comm (negb d2) (negb c1)), (orb_comm (negb c2) (negb d1)).
  destruct (ltb u1 l2 || eqb u1 l2 && (negb d1 || negb c2));
    destruct (ltb u2 l1 || eqb l1 u2 && (negb c1 || negb d2)); reflexivity.
Qed.

Lemma source_key_eqb_eq a b : source_key_eqb a b = true <-> a = b.
Proof.
  destruct a as [n s], b as [m s']. unfold source_key_eqb. simpl.
  rewrite andb_true_iff, Z.eqb_eq, String.eqb_eq. split.
  - intros [-> ->]. reflexivity.
  - intros H. injection H as -> ->. auto.
Qed.

Lemma exclude_pair_grows color1 symbol enc entry_i entry_j :
  forall f, In f (solver enc) ->
            In f (solver (exclude_pair float color1 symbol enc entry_i entry_j)).
Proof.
  intros f Hf. destruct entry_i as [ [region1 color2_i] var_i].
  destruct entry_j as [ [region2 color2_j] var_j]. unfold exclude_pair.
  destruct (negb (Z.eqb color2_i color2_j) && _regions_may_intersect float region1 region2);
    [ | exact Hf].
  cbv zeta. now apply (proj1 (add_hard_constraint_grows _ _ _)).
Qed.

Lemma exclude_pair_fold_grows color1 symbol entry_i : forall rest enc f,
  In f (solver enc) ->
  In f (solver (fold_left (fun enc entry_j =>
                             exclude_pair float color1 symbol enc entry_i entry_j)
                          rest enc)).
Proof.
  induction rest as [ | entry_j rest IH]; intros enc f Hf; [exact Hf | ].
  cbn [fold_left]. apply IH. now apply exclude_pair_grows.
Qed.

Lemma exclude_pairs_grows color1 symbol : forall transitions enc f,
  In f (solver enc) ->
  In f (solver (exclude_pairs float color1 symbol transitions enc)).
Proof.
  induction transitions as [ | entry_i rest IH]; intros enc f Hf; [exact Hf | ].
  cbn [exclude_pairs]. apply IH. now apply exclude_pair_fold_grows.
Qed.

Lemma exclude_pair_fold_asserts color1 symbol region1 color2_i var_i
      region2 color2_j var_j : forall rest enc,
  In (region2, color2_j, var_j) rest ->
  color2_i <> color2_j ->
  _regions_may_intersect float region1 region2 = true ->
  In (FNot (FAnd var_i var_j))
     (solver (fold_left (fun enc entry_j =>
                           exclude_pair float color1 symbol enc
                                        (region1, color2_i, var_i) entry_j)
                        rest enc)).
Proof.
  induction rest as [ | entry_j rest IH]; intros enc Hin Hc Hmay; [destruct Hin | ].
  cbn [fold_left]. destruct Hin as [-> | Hin].
  - apply exclude_pair_fold_grows. unfold exclude_pair.
    apply Z.eqb_neq in Hc. rewrite Hc, Hmay. cbn [negb andb]. cbv zeta.
    exact (proj2 (add_hard_constraint_grows _ _ _)).
  - now apply IH.
Qed.

Lemma exclude_pairs_asserts color1 symbol region1 color2_i var_i region2 color2_j var_j :
  forall before after enc,
    In (region2, color2_j, var_j) after ->
    color2_i <> color2_j ->
    _regions_may_intersect float region1 region2 = true ->
    In (FNot (FAnd var_i var_j))
       (solver (exclude_pairs float color1 symbol
                              (before ++ (region1, color2_i, var_i) :: after) enc)).
Proof.
  induction before as [ | entry before IH]; intros after enc Hin Hc Hmay.
  - cbn [app exclude_pairs]. apply exclude_pairs_grows.
    apply (exclude_pair_fold_asserts _ _ _ _ _ region2 color2_j); assumption.
  - cbn [app exclude_pairs]. now apply IH.
Qed.

Lemma groups_fold_grows : forall groups enc f,
  In f (solver enc) ->
  In f (solver (fold_left
                  (fun enc (group : (Z * string) * list transition_entry) =>
                     let '((color1, symbol), transitions) := group in
                     exclude_pairs float color1 symbol transitions enc)
                  groups enc)).
Proof.
  induction groups as [ | [ [color1 symbol] transitions] groups IH]; intros enc f Hf;
    [exact Hf | ].
  cbn [fold_left]. apply IH. now apply exclude_pairs_grows.
Qed.

Lemma groups_fold_asserts key region1 color2_i var_i region2 color2_j var_j before after :
  forall groups enc,
    In (key, before ++ (region1, color2_i, var_i) :: after) groups ->
    In (region2, color2_j, var_j) after ->
    color2_i <> color2_j ->
    _regions_may_intersect float region1 region2 = true ->
    In (FNot (FAnd var_i var_j))
       (solver (fold_left
                  (fun enc (group : (Z * string) * list transition_entry) =>
                     let '((color1, symbol), transitions) := group in
                     exclude_pairs float color1 symbol transitions enc)
                  groups enc)).
Proof.
  induction groups as [ | [ [color1 symbol] transitions] groups IH];
    intros enc Hgroup Hin Hc Hmay; [destruct Hgroup | ].
  cbn [fold_left]. destruct Hgroup as [Hgroup | Hgroup].
  - injection Hgroup as _ ->. apply groups_fold_grows.
    apply (exclude_pairs_asserts _ _ _ _ _ region2 color2_j); assumption.
  - now apply IH.
Qed.

Lemma collect_fold_none variables :
  fold_left
    (fun acc (item : string * formula) =>
       transitions_by_source <- acc ;;
       let '(var_name, var) := item in
       parsed <- parse_transition_name int var_name ;;
       match parsed with
       | Some (color1, symbol, region_str, color2) =>
           let key := (color1, symbol) in
           let transitions_by_source :=
             match Dict.get source_key_eqb transitions_by_source key with
             | None => Dict.set source_key_eqb transitions_by_source key []
             | Some _ => transitions_by_source
             end in
           let group :=
             match Dict.get source_key_eqb transitions_by_source key with
             | Some group => group
             | None => []
             end in
           Some (Dict.set source_key_eqb transitions_by_source key
                          (group ++ [(region_str, color2, var)])%list)
       | None => Some transitions_by_source
       end)
    variables None = None.
Proof. induction variables as [ | item variables IH]; [reflexivity | exact IH]. Qed.

(** The first loop: the group of a key holds the entries of the variables
    with that key, in the order of the variable table. *)
Lemma collect_get (key : Z * string) : forall variables d0 d,
  fold_left
    (fun acc (item : string * formula) =>
       transitions_by_source <- acc ;;
       let '(var_name, var) := item in
       parsed <- parse_transition_name int var_name ;;
       match parsed with
       | Some (color1, symbol, region_str, color2) =>
           let key := (color1, symbol) in
           let transitions_by_source :=
             match Dict.get source_key_eqb transitions_by_source key with
             | None => Dict.set source_key_eqb transitions_by_source key []
             | Some _ => transitions_by_source
             end in
           let group :=
             match Dict.get source_key_eqb transitions_by_source key with
             | Some group => group
             | None => []
             end in
           Some (Dict.set source_key_eqb transitions_by_source key
                          (group ++ [(region_str, color2, var)])%list)
       | None => Some transitions_by_source
       end)
    variables (Some d0) = Some d ->
  Dict.get source_key_eqb d key
  = match Dict.get source_key_eqb d0 key with
    | Some group => Some (group ++ entries_for int key variables)
    | None => match entries_for int key variables with
              | [] => None
              | entries => Some entries
              end
    end.
Proof.
  intros vars. induction vars as [ | [var_name var] vars IH]; intros d0 d.
  - simpl. intros H. injection H as <-.
    destruct (Dict.get source_key_eqb d0 key); [now rewrite app_nil_r | reflexivity].
  - cbn [fold_left bind]. unfold entries_for. cbn [flat_map fst snd]. fold (entries_for int key vars).
    destruct (parse_transition_name int var_name)
      as [ [ [ [ [color1 symbol] region_str] color2] | ] | ] eqn:Eparse; cbn [bind].
    + intros H. apply IH in H. rewrite H. clear H IH.
      set (key' := (color1, symbol)).
      set (d1 := match Dict.get source_key_eqb d0 key' with
                 | None => Dict.set source_key_eqb d0 key' []
                 | Some _ => d0
                 end).
      assert (Hgroup : match Dict.get source_key_eqb d1 key' with
                       | Some group => group
                       | None => []
                       end
                       = match Dict.get source_key_eqb d0 key' with
                         | Some group => group
                         | None => []
                         end).
      { unfold d1. destruct (Dict.get source_key_eqb d0 key') as [group | ] eqn:E.
        - now rewrite E.
        - now rewrite (eq_dict_get_set_same source_key_eqb source_key_eqb_eq). }
      rewrite Hgroup.
      destruct (source_key_eqb key' key) eqn:Ekey.
      * apply source_key_eqb_eq in Ekey. rewrite <- Ekey.
        rewrite (eq_dict_get_set_same source_key_eqb source_key_eqb_eq).
        destruct (Dict.get source_key_eqb d0 key') as [group | ].
        -- now rewrite <- app_assoc.
        -- reflexivity.
      * assert (Hne : key' <> key).
        { intros He. apply source_key_eqb_eq in He. congruence. }
        rewrite (eq_dict_get_set_other source_key_eqb source_key_eqb_eq) by exact Hne.
        unfold d1. destruct (Dict.get source_key_eqb d0 key') eqn:E; [reflexivity | ].
        rewrite (eq_dict_get_set_other source_key_eqb source_key_eqb_eq) by exact Hne.
        reflexivity.
    + intros H. apply IH in H. exact H.
    + rewrite collect_fold_none. discriminate.
Qed.

Lemma entries_for_app key l1 l2 :
  entries_for int key (l1 ++ l2) = entries_for int key l1 ++ entries_for int key l2.
Proof. unfold entries_for. apply flat_map_app. Qed.

Lemma entries_for_member key var_name var color1 symbol region_str color2 variables :
  In (var_name, var) variables ->
  parse_transition_name int var_name = Some (Some (color1, symbol, region_str, color2)) ->
  key = (color1, symbol) ->
  In (region_str, color2, var) (entries_for int key variables).
Proof.
  intros Hin Hparse ->. unfold entries_for. apply in_flat_map.
  exists (var_name, var). split; [exact Hin | ]. cbn [fst snd]. rewrite Hparse.
  assert (H : source_key_eqb (color1, symbol) (color1, symbol) = true)
    by now apply source_key_eqb_eq.
  rewrite H. now left.
Qed.

(** Two variables of the same source colour and symbol, the first before
    the second in the variable table. *)
Lemma ordered_pair_excluded enc enc' v before after
      name1 var1 name2 var2 color1 symbol region1 region2 c2 c3 :
  _add_deterministic_constraints float int enc = Some enc' ->
  is_model v (solver enc') ->
  variables enc = before ++ (name1, var1) :: after ->
  In (name2, var2) after ->
  parse_transition_name int name1 = Some (Some (color1, symbol, region1, c2)) ->
  parse_transition_name int name2 = Some (Some (color1, symbol, region2, c3)) ->
  c2 <> c3 ->
  _regions_may_intersect float region1 region2 = true ->
  eval v var1 && eval v var2 = false.
Proof.
  intros Hrun Hmodel Hvars Hin2 Hp1 Hp2 Hc Hmay.
  unfold _add_deterministic_constraints in Hrun.
  destruct (collect_transitions int (variables enc)) as [groups | ] eqn:Ecollect;
    [ | discriminate].
  cbn [bind] in Hrun. injection Hrun as <-.
  unfold collect_transitions in Ecollect.
  pose proof (collect_get (color1, symbol) _ _ _ Ecollect) as Hget.
  cbn [Dict.get] in Hget. rewrite Hvars, entries_for_app in Hget.
  assert (Hcons : entries_for int (color1, symbol) ((name1, var1) :: after)
                  = (region1, c2, var1) :: entries_for int (color1, symbol) after).
  { unfold entries_for. cbn [flat_map fst snd]. rewrite Hp1.
    assert (H : source_key_eqb (color1, symbol) (color1, symbol) = true)
      by now apply source_key_eqb_eq.
    rewrite H. reflexivity. }
  rewrite Hcons in Hget.
  assert (Hgroup : In ((color1, symbol),
                       entries_for int (color1, symbol) before
                       ++ (region1, c2, var1) :: entries_for int (color1, symbol) after)
                      groups).
  { apply (eq_dict_get_key source_key_eqb source_key_eqb_eq).
    refine (eq_trans Hget _).
    destruct (entries_for int (color1, symbol) before); reflexivity. }
  assert (Hentry : In (region2, c3, var2) (entries_for int (color1, symbol) after)).
  { now apply (entries_for_member _ name2 var2 color1 symbol region2 c3). }
  pose proof (groups_fold_asserts _ _ _ _ _ _ _ _ _ groups enc Hgroup Hentry Hc Hmay)
    as Hassert.
  apply Hmodel in Hassert. simpl in Hassert. now apply negb_true_iff in Hassert.
Qed.

(** X29. [_add_deterministic_constraints] makes the colouring
    deterministic: when it returns (no variable name makes [int] fail), every
    model of the assertions keeps the earlier assertions and never makes two
    transition variables true whose names give the same source colour and
    symbol, different target colours, and regions that
    [_regions_may_intersect] does not separate. *)
Theorem deterministic_constraints_sound (enc enc' : Encoding) (v : string -> bool) :
  _add_deterministic_constraints float int enc = Some enc' ->
  is_model v (solver enc') ->
  is_model v (solver enc)
  /\ forall name1 var1 name2 var2 color1 symbol region1 region2 c2 c3,
       In (name1, var1) (variables enc) -> In (name2, var2) (variables enc) ->
       parse_transition_name int name1 = Some (Some (color1, symbol, region1, c2)) ->
       parse_transition_name int name2 = Some (Some (color1, symbol, region2, c3)) ->
       c2 <> c3 ->
       _regions_may_intersect float region1 region2 = true ->
       eval v var1 && eval v var2 = false.
Proof.
  intros Hrun Hmodel. split.
  - intros f Hf. apply Hmodel.
    unfold _add_deterministic_constraints in Hrun.
    destruct (collect_transitions int (variables enc)) as [groups | ]; [ | discriminate].
    cbn [bind] in Hrun. injection Hrun as <-. now apply groups_fold_grows.
  - intros name1 var1 name2 var2 color1 symbol region1 region2 c2 c3
           Hin1 Hin2 Hp1 Hp2 Hc Hmay.
    destruct (in_split _ _ Hin1) as (before & after & Hvars).
    rewrite Hvars in Hin2. apply in_app_or in Hin2.
    destruct Hin2 as [Hin2 | [Heq | Hin2] ].
    + destruct (in_split _ _ Hin2) as (before2 & after2 & Hbefore).
      rewrite andb_comm.
      apply (ordered_pair_excluded enc enc' v before2 (after2 ++ (name1, var1) :: after)
               name2 var2 name1 var1 color1 symbol region2 region1 c3 c2); auto.
      * rewrite Hvars, Hbefore, <- app_assoc. reflexivity.
      * apply in_or_app. right. now left.
      * now rewrite regions_may_intersect_sym.
    + injection Heq as <- <-. rewrite Hp1 in Hp2. injection Hp2 as _ Hsame. contradiction.
    + exact (ordered_pair_excluded enc enc' v before after name1 var1 name2 var2
               color1 symbol region1 region2 c2 c3 Hrun Hmodel Hvars Hin2 Hp1 Hp2 Hc Hmay).
Qed.

End DeterminismConstraints.

Lemma deterministic_constraints_sound_witness :
  Encoding.eval (fun name => String.eqb name "trans_a_[0, 1]_0_1")
                (Encoding.FVar "trans_a_[0, 1]_0_1")
  && Encoding.eval (fun name => String.eqb name "trans_a_[0, 1]_0_1")
                   (Encoding.FVar "trans_a_[1, 2]_0_2")
  = false.
Proof.
  pose (enc := Encoding.mkEncoding None 3
                 [("trans_a_[0, 1]_0_1"%string, Encoding.FVar "trans_a_[0, 1]_0_1");
                  ("trans_a_[1, 2]_0_2"%string, Encoding.FVar "trans_a_[1, 2]_0_2")]
                 [] [] [] []).
  destruct (EncodingDeterminism._add_deterministic_constraints
              EncodingRegions.float_of_digits EncodingDeterminism.int_of_digits enc)
    as [enc' | ] eqn:Erun; [ | vm_compute in Erun; discriminate].
  assert (Hmodel : Encoding.is_model (fun name => String.eqb name "trans_a_[0, 1]_0_1")
                                     (Encoding.solver enc')).
  { vm_compute in Erun. injection Erun as <-. intros f Hf. cbn [Encoding.solver] in Hf.
    repeat (destruct Hf as [<- | Hf]; [vm_compute; reflexivity | ]). destruct Hf. }
  destruct (deterministic_constraints_sound
              EncodingRegions.float_of_digits EncodingDeterminism.int_of_digits
              enc enc' _ Erun Hmodel) as [_ Hpairs].
  apply (Hpairs "trans_a_[0, 1]_0_1"%string _ "trans_a_[1, 2]_0_2"%string _
                0%Z "a"%string "[0, 1]"%string "[1, 2]"%string 1%Z 2%Z).
  - left. reflexivity.
  - right. left. reflexivity.
  - vm_compute. reflexivity.
  - vm_compute. reflexivity.
  - discriminate.
  - vm_compute. reflexivity.
Defined.
